(** * Wa-Tor: a predator-prey simulation on a toroidal grid

    A shallow embedding of [wa-tor.py].  The script builds on the
    agent-based modelling framework it imports: a multi-occupancy toroidal
    grid, a randomly ordered activation scheduler and a model base class
    owning the random source and the id counter.  Those three pieces are
    modelled from sections 4.1 and 4.3 of the specification; the agent rules,
    the seeding, the tick and the snapshot follow the script line by line.

    Python objects are mutable and shared: an agent is referenced from the
    cell it stands on and from the scheduler's roster.  The embedding keeps
    one object store, keyed by [unique_id], and lets cells and roster hold
    ids. *)

From stdpp Require Import gmap list.

Open Scope Z_scope.

(** ** Outcomes of a Python computation *)

(** A computation returns, raises an exception, or is still running when the
    step budget of a [while] loop is spent. *)
Inductive outcome (A : Type) : Type :=
  | Done (a : A)
  | Raise
  | Timeout.
Arguments Done {A} a.
Arguments Raise {A}.
Arguments Timeout {A}.

Definition outcome_bind {A B} (f : A → outcome B) (m : outcome A) : outcome B :=
  match m with
  | Done a => f a
  | Raise => Raise
  | Timeout => Timeout
  end.

#[export] Instance outcome_mret : MRet outcome := @Done.
#[export] Instance outcome_mbind : MBind outcome := @outcome_bind.

(** An attribute that may be [None] in Python and is dereferenced. *)
Definition unwrap {A} (o : option A) : outcome A :=
  match o with
  | Some a => Done a
  | None => Raise
  end.

(** ** The random source *)

(** The model owns one [random.Random]; [choice], [randrange] and [shuffle]
    all draw from it through bounded integer draws.  [randbelow n r] is the
    draw below [n] in generator state [r], with the next state. *)
Class PRNG (R : Type) := {
  randbelow : Z → R → Z * R;
  randbelow_range : ∀ n r, 0 < n → 0 ≤ (randbelow n r).1 < n
}.

Section random.
Context `{PRNG R}.

(** [random.randrange(n)]: [ValueError] on an empty range. *)
Definition randrange (n : Z) (r : R) : outcome (Z * R) :=
  if decide (0 < n) then Done (randbelow n r) else Raise.

(** [random.choice(seq)]: [IndexError] on an empty sequence, otherwise
    the element at a draw below [len(seq)]. *)
Definition choice {A} (seq : list A) (r : R) : outcome (A * R) :=
  match seq with
  | [] => Raise
  | _ =>
      let '(k, r') := randbelow (Z.of_nat (length seq)) r in
      x ← unwrap (seq !! Z.to_nat k); Done (x, r')
  end.

(** [x[i], x[j] = x[j], x[i]] *)
Definition swap {A} (i j : nat) (x : list A) : list A :=
  match x !! i, x !! j with
  | Some xi, Some xj => <[j := xi]> (<[i := xj]> x)
  | _, _ => x
  end.

(** [for i in reversed(range(1, n + 1)): j = randbelow(i + 1); swap] *)
Fixpoint shuffle_from {A} (i : nat) (x : list A) (r : R) : list A * R :=
  match i with
  | O => (x, r)
  | S i' =>
      let '(j, r') := randbelow (Z.of_nat i + 1) r in
      shuffle_from i' (swap i (Z.to_nat j) x) r'
  end.

(** [random.shuffle(x)] *)
Definition shuffle {A} (x : list A) (r : R) : list A * R :=
  shuffle_from (length x - 1)%nat x r.
End random.

Arguments choice : simpl never.
Arguments shuffle : simpl never.

(** ** Data model *)

Inductive Kind := Fish | Shark.

#[export] Instance Kind_eq_dec : EqDecision Kind.
Proof. solve_decision. Defined.

Definition Coord : Type := Z * Z.

(** The attributes of an agent object; its [unique_id] is its key in the
    object store. *)
Record Agent := mkAgent {
  kind : Kind;
  energy : Z;
  fertility_counter : Z;
  pos : option Coord
}.

Definition set_energy (e : Z) (a : Agent) : Agent :=
  mkAgent (kind a) e (fertility_counter a) (pos a).
Definition set_fertility_counter (c : Z) (a : Agent) : Agent :=
  mkAgent (kind a) (energy a) c (pos a).
Definition set_pos (p : option Coord) (a : Agent) : Agent :=
  mkAgent (kind a) (energy a) (fertility_counter a) p.

(** The constructor arguments of [WaTorModel]. *)
Record Params := mkParams {
  width : Z;
  height : Z;
  N_fish : nat;
  N_sharks : nat;
  fish_initial_energy : Z;
  shark_initial_energy : Z;
  fish_fertility_threshold : Z;
  shark_fertility_threshold : Z;
  shark_energy_from_fish : Z
}.

(** The mutable part of the model: cell occupancy, the agent objects, the
    roster (the keys of the scheduler's dictionary in insertion order) and
    the id counter. *)
Record Model := mkModel {
  grid : gmap Coord (list Z);
  agents : gmap Z Agent;
  schedule : list Z;
  current_id : Z
}.

Definition set_grid (g : gmap Coord (list Z)) (m : Model) : Model :=
  mkModel g (agents m) (schedule m) (current_id m).
Definition set_agents (ag : gmap Z Agent) (m : Model) : Model :=
  mkModel (grid m) ag (schedule m) (current_id m).
Definition set_schedule (sc : list Z) (m : Model) : Model :=
  mkModel (grid m) (agents m) sc (current_id m).
Definition set_current_id (c : Z) (m : Model) : Model :=
  mkModel (grid m) (agents m) (schedule m) c.

(** Dereferencing an agent reference. *)
Definition get_agent (i : Z) (m : Model) : outcome Agent :=
  unwrap (agents m !! i).

Definition update_agent (i : Z) (f : Agent → Agent) (m : Model) : outcome Model :=
  a ← get_agent i m; Done (set_agents (<[i := f a]> (agents m)) m).

(** [list.remove(x)] removes the first occurrence. *)
Fixpoint remove_first (x : Z) (l : list Z) : list Z :=
  match l with
  | [] => []
  | y :: l' => if decide (x = y) then l' else y :: remove_first x l'
  end.

(** ** World *)

Module World.

(** Modelled from the spec: the framework's grid query [occupants(pos)]
    (section 4.1), the ordered occupant sequence of a cell. *)
Definition occupants (m : Model) (p : Coord) : list Z :=
  default [] (grid m !! p).

(** Modelled from the spec: the framework's [is_empty(pos)] (section 4.1),
    true iff the occupant sequence is empty. *)
Definition is_cell_empty (m : Model) (p : Coord) : bool :=
  bool_decide (occupants m p = []).

(** Modelled from the spec: the framework's [neighbors(pos, pattern)]
    (section 4.1): the 4 orthogonally adjacent cells, or with [moore] the 8
    orthogonally and diagonally adjacent ones, every coordinate wrapped
    modulo width and height. *)
Definition offsets (moore : bool) : list (Z * Z) :=
  if moore
  then [(-1, -1); (-1, 0); (-1, 1); (0, -1); (0, 1); (1, -1); (1, 0); (1, 1)]
  else [(-1, 0); (0, -1); (0, 1); (1, 0)].

Definition get_neighborhood (cfg : Params) (p : Coord) (moore : bool) : list Coord :=
  (λ d, ((p.1 + d.1) `mod` width cfg, (p.2 + d.2) `mod` height cfg)) <$> offsets moore.

(** Modelled from the spec: the framework's [place(agent, pos)]
    (section 4.1): appends the agent to the cell's sequence and never
    checks emptiness; the agent's position becomes [pos]. *)
Definition place_agent (i : Z) (p : Coord) (m : Model) : outcome Model :=
  a ← get_agent i m;
  Done (set_agents (<[i := set_pos (Some p) a]> (agents m))
         (set_grid (<[p := occupants m p ++ [i]]> (grid m)) m)).

(** Modelled from the spec: the framework's [remove(agent)] (section 4.1):
    removes the agent from its current cell's sequence.  An agent without
    a position, or absent from its cell, is an invalid reference
    (section 7). *)
Definition remove_agent (i : Z) (m : Model) : outcome Model :=
  a ← get_agent i m;
  p ← unwrap (pos a);
  if decide (i ∈ occupants m p)
  then Done (set_agents (<[i := set_pos None a]> (agents m))
              (set_grid (<[p := remove_first i (occupants m p)]> (grid m)) m))
  else Raise.

(** Modelled from the spec: the framework's [move(agent, pos)]
    (section 4.1): removal from the current cell, then placement at the
    destination. *)
Definition move_agent (i : Z) (p : Coord) (m : Model) : outcome Model :=
  m1 ← remove_agent i m; place_agent i p m1.

End World.

(** ** Scheduler roster and id counter *)

Module Scheduler.

(** Modelled from the spec: the framework's roster insertion (section 4.3);
    ids are unique, a second registration of an id is refused. *)
Definition add (i : Z) (m : Model) : outcome Model :=
  if decide (i ∈ schedule m) then Raise
  else Done (set_schedule (schedule m ++ [i]) m).

(** Modelled from the spec: the framework's roster removal (section 4.3);
    removing an agent that is not live is an invalid reference
    (section 7). *)
Definition remove (i : Z) (m : Model) : outcome Model :=
  if decide (i ∈ schedule m)
  then Done (set_schedule (remove_first i (schedule m)) m)
  else Raise.

End Scheduler.

(** Modelled from the spec: the framework's [next_id] of the model base
    class, the source of the fresh unique ids of sections 3 and 4.2: the
    counter is advanced and its new value returned. *)
Definition next_id (m : Model) : Z * Model :=
  (current_id m + 1, set_current_id (current_id m + 1) m).

(** A new agent object: [Fish(uid, model, energy)] or [Shark(...)]; the
    fertility counter starts at 0 and the agent has no position yet. *)
Definition new_agent (k : Kind) (uid : Z) (e : Z) (m : Model) : Model :=
  set_agents (<[uid := mkAgent k e 0 None]> (agents m)) m.

(** ** Agent rules *)

Section rules.
Context `{PRNG R}.
Variable cfg : Params.

(** [self.model.fish_fertility_threshold] or
    [self.model.shark_fertility_threshold], by the class of the agent. *)
Definition fertility_threshold (k : Kind) : Z :=
  match k with
  | Fish => fish_fertility_threshold cfg
  | Shark => shark_fertility_threshold cfg
  end.

(** [self.model.fish_initial_energy] or [self.model.shark_initial_energy]. *)
Definition initial_energy (k : Kind) : Z :=
  match k with
  | Fish => fish_initial_energy cfg
  | Shark => shark_initial_energy cfg
  end.

(** [empty_steps = [step for step in possible_steps if is_cell_empty(step)]] *)
Definition empty_steps (m : Model) (possible_steps : list Coord) : list Coord :=
  filter (λ step, World.is_cell_empty m step = true) possible_steps.

(** [if empty_steps: move_agent(self, random.choice(empty_steps))] *)
Definition move_to_empty (i : Z) (steps : list Coord) (m : Model) (r : R)
  : outcome (Model * R) :=
  match steps with
  | [] => Done (m, r)
  | _ =>
      '(new_position, r') ← choice steps r;
      m' ← World.move_agent i new_position m;
      Done (m', r')
  end.

(** [Fish.move] *)
Definition Fish_move (i : Z) (m : Model) (r : R) : outcome (Model * R) :=
  a ← get_agent i m;
  p ← unwrap (pos a);
  let possible_steps := World.get_neighborhood cfg p false in
  move_to_empty i (empty_steps m possible_steps) m r.

(** [Fish.reproduce] and [Shark.reproduce]: the two methods differ in the
    class of the offspring, the threshold and the initial energy only. *)
Definition reproduce (k : Kind) (i : Z) (m : Model) : outcome Model :=
  m1 ← update_agent i (λ a, set_fertility_counter (fertility_counter a + 1) a) m;
  a ← get_agent i m1;
  if decide (fertility_threshold k ≤ fertility_counter a) then
    let '(uid, m2) := next_id m1 in
    let m3 := new_agent k uid (initial_energy k) m2 in
    p ← unwrap (pos a);
    m4 ← World.place_agent uid p m3;
    m5 ← Scheduler.add uid m4;
    update_agent i (set_fertility_counter 0) m5
  else Done m1.

Definition Fish_reproduce : Z → Model → outcome Model := reproduce Fish.
Definition Shark_reproduce : Z → Model → outcome Model := reproduce Shark.

(** The death check shared by both [step] methods:
    [if self.energy <= 0: grid.remove_agent(self); schedule.remove(self)] *)
Definition death_check (i : Z) (m : Model) : outcome Model :=
  a ← get_agent i m;
  if decide (energy a ≤ 0) then
    m1 ← World.remove_agent i m; Scheduler.remove i m1
  else Done m.

(** [Fish.step] *)
Definition Fish_step (i : Z) (m : Model) (r : R) : outcome (Model * R) :=
  '(m1, r1) ← Fish_move i m r;
  m2 ← update_agent i (λ a, set_energy (energy a - 1) a) m1;
  m3 ← Fish_reproduce i m2;
  m4 ← death_check i m3;
  Done (m4, r1).

(** [contents and isinstance(contents[0], Fish)] for the contents of the
    cell at [step]. *)
Definition first_is_fish (m : Model) (step : Coord) : bool :=
  match World.occupants m step with
  | [] => false
  | j :: _ =>
      match agents m !! j with
      | Some b => bool_decide (kind b = Fish)
      | None => false
      end
  end.

Definition fish_positions (m : Model) (possible_steps : list Coord) : list Coord :=
  filter (λ step, first_is_fish m step = true) possible_steps.

(** [Shark.move_and_eat] *)
Definition Shark_move_and_eat (i : Z) (m : Model) (r : R) : outcome (Model * R) :=
  a ← get_agent i m;
  p ← unwrap (pos a);
  let possible_steps := World.get_neighborhood cfg p true in
  match fish_positions m possible_steps with
  | [] => move_to_empty i (empty_steps m possible_steps) m r
  | fps =>
      '(new_position, r') ← choice fps r;
      fish ← unwrap (head (World.occupants m new_position));
      m1 ← World.remove_agent fish m;
      m2 ← Scheduler.remove fish m1;
      m3 ← World.move_agent i new_position m2;
      m4 ← update_agent i (λ a, set_energy (energy a + shark_energy_from_fish cfg) a) m3;
      Done (m4, r')
  end.

(** [Shark.step] *)
Definition Shark_step (i : Z) (m : Model) (r : R) : outcome (Model * R) :=
  '(m1, r1) ← Shark_move_and_eat i m r;
  m2 ← Shark_reproduce i m1;
  m3 ← update_agent i (λ a, set_energy (energy a - 1) a) m2;
  m4 ← death_check i m3;
  Done (m4, r1).

(** [agent.step()], dispatched on the class of the agent. *)
Definition agent_step (i : Z) (m : Model) (r : R) : outcome (Model * R) :=
  a ← get_agent i m;
  match kind a with
  | Fish => Fish_step i m r
  | Shark => Shark_step i m r
  end.

(** ** Scheduler tick *)

(** Modelled from the spec: the framework's scheduler tick (section 4.3).
    The activation list is walked in order; an agent no longer in the
    roster when its turn comes is skipped.  Next to the model the function
    returns the log of the ids it activated. *)
Fixpoint activate_all (keys : list Z) (m : Model) (r : R)
  : outcome (Model * R * list Z) :=
  match keys with
  | [] => Done (m, r, [])
  | k :: keys' =>
      if decide (k ∈ schedule m) then
        '(m1, r1) ← agent_step k m r;
        '(m2, r2, log) ← activate_all keys' m1 r1;
        Done (m2, r2, k :: log)
      else activate_all keys' m r
  end.

(** Modelled from the spec: the framework's [schedule.step()]
    (section 4.3): a snapshot of the roster taken before any activation is
    shuffled into the tick's activation order, then walked. *)
Definition schedule_step (m : Model) (r : R) : outcome (Model * R * list Z) :=
  let '(keys, r1) := shuffle (schedule m) r in
  activate_all keys m r1.

(** ** The model *)

Inductive CellType := EMPTY | FISH | SHARK.

Definition CellType_value (c : CellType) : Z :=
  match c with EMPTY => 0 | FISH => 1 | SHARK => 2 end.

(** The value [get_grid] leaves in the array for a cell with the given
    occupant sequence: the array starts at zero and only the first
    occupant is inspected. *)
Definition classify (m : Model) (content : list Z) : Z :=
  match content with
  | [] => 0
  | j :: _ =>
      match agents m !! j with
      | Some b =>
          match kind b with
          | Shark => CellType_value SHARK
          | Fish => CellType_value FISH
          end
      | None => 0
      end
  end.

(** [WaTorModel.get_grid]: entry [x][y] of the array, for [x] below the
    width and [y] below the height. *)
Definition get_grid (m : Model) : list (list Z) :=
  (λ x, (λ y, classify m (World.occupants m (x, y))) <$> seqZ 0 (height cfg))
    <$> seqZ 0 (width cfg).

(** [WaTorModel.find_empty_cell]; [fuel] bounds the number of times the
    loop condition is evaluated. *)
Fixpoint find_empty_loop (fuel : nat) (m : Model) (x y : Z) (r : R)
  : outcome (Coord * R) :=
  match fuel with
  | O => Timeout
  | S fuel' =>
      if World.is_cell_empty m (x, y) then Done ((x, y), r)
      else
        '(x', r1) ← randrange (width cfg) r;
        '(y', r2) ← randrange (height cfg) r1;
        find_empty_loop fuel' m x' y' r2
  end.

Definition find_empty_cell (fuel : nat) (m : Model) (r : R) : outcome (Coord * R) :=
  '(x, r1) ← randrange (width cfg) r;
  '(y, r2) ← randrange (height cfg) r1;
  find_empty_loop fuel m x y r2.

(** One iteration of a seeding loop of [WaTorModel.__init__]. *)
Definition seed_one (fuel : nat) (k : Kind) (m : Model) (r : R)
  : outcome (Model * R) :=
  '(p, r1) ← find_empty_cell fuel m r;
  let '(uid, m1) := next_id m in
  let m2 := new_agent k uid (initial_energy k) m1 in
  m3 ← World.place_agent uid p m2;
  m4 ← Scheduler.add uid m3;
  Done (m4, r1).

(** [for _ in range(n): ...] *)
Fixpoint seed_agents (fuel : nat) (k : Kind) (n : nat) (m : Model) (r : R)
  : outcome (Model * R) :=
  match n with
  | O => Done (m, r)
  | S n' =>
      '(m1, r1) ← seed_one fuel k m r;
      seed_agents fuel k n' m1 r1
  end.

Definition empty_model : Model := mkModel ∅ ∅ [] 0.

(** [WaTorModel.__init__] *)
Definition init (fuel : nat) (r : R) : outcome (Model * R) :=
  '(m1, r1) ← seed_agents fuel Fish (N_fish cfg) empty_model r;
  seed_agents fuel Shark (N_sharks cfg) m1 r1.

(** [WaTorModel.step]: the data collector records [get_grid()], then the
    scheduler runs one tick.  The recorded grids are threaded as [rows]. *)
Definition model_step (m : Model) (r : R) (rows : list (list (list Z)))
  : outcome (Model * R * list (list (list Z)) * list Z) :=
  let rows' := rows ++ [get_grid m] in
  '(m', r', log) ← schedule_step m r;
  Done (m', r', rows', log).

(** [for i in range(n): model.step()] *)
Fixpoint iterate (n : nat) (m : Model) (r : R) (rows : list (list (list Z)))
  : outcome (Model * R * list (list (list Z))) :=
  match n with
  | O => Done (m, r, rows)
  | S n' =>
      '(m1, r1, rows1, _) ← model_step m r rows;
      iterate n' m1 r1 rows1
  end.

(** The script: build the model, run [n] ticks, hand the recorded grids to
    the animation. *)
Definition run (fuel : nat) (n : nat) (r : R) : outcome (list (list (list Z))) :=
  '(m, r1) ← init fuel r;
  '(_, _, rows) ← iterate n m r1 [];
  Done rows.

End rules.

(** The constants at the end of the script. *)
Definition MAX_ITERATIONS : nat := 100.

Definition script_params : Params :=
  {| width := 60; height := 85; N_fish := 140; N_sharks := 45;
     fish_initial_energy := 20; shark_initial_energy := 4;
     fish_fertility_threshold := 6; shark_fertility_threshold := 10;
     shark_energy_from_fish := 8 |}.

(** The script as run: the grids it hands to the animation, from the state
    [r] the framework leaves the model's random source in. *)
Definition script `{PRNG R} (fuel : nat) (r : R) : outcome (list (list (list Z))) :=
  run script_params fuel MAX_ITERATIONS r.

(** * Vocabulary of the verification *)

Definition pos_of (m : Model) (i : Z) : option Coord := agents m !! i ≫= pos.

(** Roster, cells and object store agree: the live agents are exactly the
    agents standing on some cell, each on the one cell its [pos] names, and
    every id handed out so far is at most the counter. *)
Record wf (m : Model) : Prop := mk_wf {
  wf_nodup : NoDup (schedule m);
  wf_live : ∀ i, i ∈ schedule m → ∃ p, pos_of m i = Some p ∧ i ∈ World.occupants m p;
  wf_cell : ∀ p i, i ∈ World.occupants m p → i ∈ schedule m ∧ pos_of m i = Some p;
  wf_cell_nodup : ∀ p, NoDup (World.occupants m p);
  wf_ids : ∀ i, is_Some (agents m !! i) → i ≤ current_id m
}.

(** Two agent records that differ in position at most. *)
Definition same_attrs (a b : Agent) : Prop :=
  kind b = kind a ∧ energy b = energy a
  ∧ fertility_counter b = fertility_counter a.

(** [frame i m m']: from [m] to [m'] the id counter did not go back, no
    agent outside the roster entered it unless its id is new, the objects
    other than [i] kept kind, energy and fertility counter, and the objects
    that are new start with fertility counter 0. *)
Record frame (i : Z) (m m' : Model) : Prop := mk_frame {
  fr_id : current_id m ≤ current_id m';
  fr_sched : ∀ j, j ∈ schedule m' → j ∈ schedule m ∨ current_id m < j;
  fr_others : ∀ j b, j ≠ i → agents m !! j = Some b →
              ∃ b', agents m' !! j = Some b' ∧ same_attrs b b';
  fr_new : ∀ j b', agents m !! j = None → agents m' !! j = Some b' →
           fertility_counter b' = 0
}.

(** What holds between two models however many activations lie between
    them: ids are only ever handed out upwards and an id once out of the
    roster stays out. *)
Record tick_frame (m m' : Model) : Prop := mk_tick_frame {
  tf_id : current_id m ≤ current_id m';
  tf_sched : ∀ j, j ∈ schedule m' → j ∈ schedule m ∨ current_id m < j
}.

(** Entry [x][y] of a recorded grid. *)
Definition grid_at (g : list (list Z)) (x y : Z) : option Z :=
  g !! Z.to_nat x ≫= λ row, row !! Z.to_nat y.


Section vocabulary.
Context `{PRNG R}.
Variable cfg : Params.

(** The new value of the fertility counter after [reproduce]. *)
Definition next_fertility (k : Kind) (c : Z) : Z :=
  if decide (fertility_threshold cfg k ≤ c + 1) then 0 else c + 1.

(** The cell a shark standing on [p] picks when it eats, if it does. *)
Definition chosen_prey_cell (m : Model) (p : Coord) (r : R) : option Coord :=
  let fps := fish_positions m (World.get_neighborhood cfg p true) in
  fps !! Z.to_nat (randbelow (Z.of_nat (length fps)) r).1.

(** The fish it eats there: the first occupant of that cell. *)
Definition prey_of (m : Model) (p : Coord) (r : R) : option Z :=
  match fish_positions m (World.get_neighborhood cfg p true) with
  | [] => None
  | _ => chosen_prey_cell m p r ≫= λ q, head (World.occupants m q)
  end.

(** The energy a shark standing on [p] gains from [move_and_eat]. *)
Definition gained (m : Model) (p : Coord) : Z :=
  match fish_positions m (World.get_neighborhood cfg p true) with
  | [] => 0
  | _ => shark_energy_from_fish cfg
  end.

(** The cells of the grid, in the order the grid iterates over them. *)
Definition cells : list Coord :=
  x ← seqZ 0 (width cfg); (λ y, (x, y)) <$> seqZ 0 (height cfg).

(** One sampling of [find_empty_cell]: a column, then a row. *)
Definition draw_cell (r : R) : Coord * R :=
  let '(x, r1) := randbelow (width cfg) r in
  let '(y, r2) := randbelow (height cfg) r1 in
  ((x, y), r2).

Definition occupied (m : Model) : list Coord :=
  filter (λ p, World.occupants m p ≠ []) cells.

(** During seeding every agent stands alone on a cell of the grid. *)
Record seeded (m : Model) : Prop := mk_seeded {
  sd_wf : wf m;
  sd_range : ∀ p, World.occupants m p ≠ [] → p ∈ cells;
  sd_single : ∀ p, (length (World.occupants m p) ≤ 1)%nat;
  sd_count : length (schedule m) = length (occupied m)
}.

(** The generator state after [k] samplings of a cell. *)
Fixpoint after_draws (k : nat) (r : R) : R :=
  match k with
  | O => r
  | S k' => after_draws k' (draw_cell r).2
  end.

(** A source is fair for the grid when, from any point of its sequence of
    samplings on, every cell of the grid is sampled again. *)
Definition fair (r : R) : Prop :=
  ∀ k p, p ∈ cells → ∃ j, (draw_cell (after_draws (k + j) r)).1 = p.

(** A sequence of activations of live agents. *)
Inductive activations : Model → list Z → Model → Prop :=
  | activations_nil m : activations m [] m
  | activations_cons m i r m1 r1 log m2 :
      i ∈ schedule m →
      agent_step cfg i m r = Done (m1, r1) →
      activations m1 log m2 →
      activations m (i :: log) m2.

(** Whether the activation of agent [a] in model [m] eats: [a] is a shark
    and some neighbouring cell shows a fish first. *)
Definition eats (m : Model) (a : Agent) : bool :=
  match kind a, pos a with
  | Shark, Some p =>
      bool_decide (fish_positions m (World.get_neighborhood cfg p true) ≠ [])
  | _, _ => false
  end.

(** Every agent object has its fertility counter between 0 and the
    threshold of its variant minus 1. *)
Definition fert_ok (m : Model) : Prop :=
  ∀ j b, agents m !! j = Some b →
         0 ≤ fertility_counter b ≤ fertility_threshold cfg (kind b) - 1.

(** Every agent object with a position has it on a cell of the grid. *)
Definition on_grid (m : Model) : Prop :=
  ∀ j b p, agents m !! j = Some b → pos b = Some p → p ∈ cells.

(** A stage of an activation that removes nobody but possibly the
    activated agent [i] itself. *)
Record gentle (i : Z) (m m' : Model) : Prop := mk_gentle {
  g_wf : wf m';
  g_cid : current_id m ≤ current_id m';
  g_len : Z.of_nat (length (schedule m')) + current_id m
          ≤ Z.of_nat (length (schedule m)) + current_id m';
  g_keep : ∀ j, j ∈ schedule m → j ≠ i → j ∈ schedule m';
  g_grid : 0 < width cfg → 0 < height cfg → on_grid m → on_grid m'
}.

End vocabulary.

Section alike.
Context {R1 R2 : Type}.
Variable sim : R1 → R2 → Prop.



End alike.

(** A counter read digit by digit: the first draw after a step of the
    counter is its remainder by the bound, the second the remainder of the
    quotient left over, after which the counter steps.  Used to run the
    model on concrete inputs. *)
Record Sweep := mkSweep {
  sweep_counter : Z;
  sweep_quotient : Z;
  sweep_second : bool
}.

Definition sweep_randbelow (n : Z) (s : Sweep) : Z * Sweep :=
  if sweep_second s
  then (sweep_quotient s `mod` n, mkSweep (sweep_counter s + 1) 0 false)
  else (sweep_counter s `mod` n, mkSweep (sweep_counter s) (sweep_counter s `div` n) true).

#[export] Program Instance sweep_PRNG : PRNG Sweep := {|
  randbelow := sweep_randbelow
|}.
Next Obligation.
  intros n s Hn. unfold sweep_randbelow.
  destruct (sweep_second s); simpl; by apply Z.mod_pos_bound.
Qed.

Definition sweep_from (c : Z) : Sweep := mkSweep c 0 false.

(** A second random source: the counter source with a count of the draws
    made so far next to it. *)
Record Counted := mkCounted {
  counted_source : Sweep;
  counted_draws : nat
}.

Definition counted_randbelow (n : Z) (c : Counted) : Z * Counted :=
  ((sweep_randbelow n (counted_source c)).1,
   mkCounted (sweep_randbelow n (counted_source c)).2 (S (counted_draws c))).

#[export] Program Instance counted_PRNG : PRNG Counted := {|
  randbelow := counted_randbelow
|}.
Next Obligation.
  intros n c Hn. unfold counted_randbelow. cbn [fst].
  exact (randbelow_range (R := Sweep) n (counted_source c) Hn).
Qed.

(** ** Scenarios *)

(** A 3 x 3 torus seeded with two fish and one shark; fish reproduce at
    every activation. *)
Module Scenario.

Definition cfg : Params :=
  {| width := 3; height := 3; N_fish := 2; N_sharks := 1;
     fish_initial_energy := 3; shark_initial_energy := 2;
     fish_fertility_threshold := 1; shark_fertility_threshold := 3;
     shark_energy_from_fish := 4 |}.

(** The same population on a grid of two cells. *)
Definition crowded : Params :=
  {| width := 2; height := 1; N_fish := 2; N_sharks := 1;
     fish_initial_energy := 3; shark_initial_energy := 2;
     fish_fertility_threshold := 1; shark_fertility_threshold := 3;
     shark_energy_from_fish := 4 |}.

Definition model_of (o : outcome (Model * Sweep)) : Model :=
  match o with Done (m, _) => m | _ => empty_model end.

Definition source_of (o : outcome (Model * Sweep)) : Sweep :=
  match o with Done (_, r) => r | _ => sweep_from 0 end.

(** After seeding: fish 1 on (0,0), fish 2 on (1,0), shark 3 on (2,0). *)
Definition seeded_model : Model := Eval vm_compute in model_of (init cfg 9 (sweep_from 0)).
Definition seeded_source : Sweep := Eval vm_compute in source_of (init cfg 9 (sweep_from 0)).

(** After the activation of fish 2: it moved and left an offspring, agent
    4, on its new cell. *)
Definition after_fish : Model :=
  Eval vm_compute in model_of (agent_step cfg 2 seeded_model seeded_source).
Definition after_fish_source : Sweep :=
  Eval vm_compute in source_of (agent_step cfg 2 seeded_model seeded_source).

(** After the activation of shark 3 on a source whose draw picks the cell
    of fish 2 and its offspring: fish 2 is eaten and the shark stands on
    that cell behind the offspring. *)
Definition after_shark : Model :=
  Eval vm_compute in model_of (agent_step cfg 3 after_fish (sweep_from 0)).
Definition after_shark_source : Sweep :=
  Eval vm_compute in source_of (agent_step cfg 3 after_fish (sweep_from 0)).

(** The seeded scenario after [n] ticks: the model, the random source and
    the grids recorded. *)
Definition ticks (n : nat) : outcome (Model * Sweep * list (list (list Z))) :=
  iterate cfg n seeded_model seeded_source [].

Definition after_ticks (n : nat) : Model :=
  match ticks n with Done (m, _, _) => m | _ => empty_model end.

Definition source_after_ticks (n : nat) : Sweep :=
  match ticks n with Done (_, r, _) => r | _ => sweep_from 0 end.

Definition rows_after_ticks (n : nat) : list (list (list Z)) :=
  match ticks n with Done (_, _, rows) => rows | _ => [] end.

(** The same population and no column to put it on. *)
Definition no_cells : Params :=
  {| width := 0; height := 3; N_fish := 2; N_sharks := 1;
     fish_initial_energy := 3; shark_initial_energy := 2;
     fish_fertility_threshold := 1; shark_fertility_threshold := 3;
     shark_energy_from_fish := 4 |}.

End Scenario.

(** * Verification *)

(** ** Outcomes *)

Lemma bind_Done {A B} (f : A → outcome B) (m : outcome A) (b : B) :
  m ≫= f = Done b ↔ ∃ a, m = Done a ∧ f a = Done b.
Proof.
  destruct m as [a| |]; simpl; split.
  - intros Hf. by exists a.
  - by intros (a' & [= <-] & Hf).
  - done.
  - by intros (? & ? & ?).
  - done.
  - by intros (? & ? & ?).
Qed.

Lemma unwrap_Done {A} (o : option A) (a : A) : unwrap o = Done a ↔ o = Some a.
Proof. destruct o; simpl; split; congruence. Qed.

(** Splits a hypothesis [m ≫= f = Done b] into its two halves, repeatedly. *)
Ltac inv_done :=
  repeat match goal with
  | H : Done _ = Done _ |- _ => injection H as H; try subst
  | H : @Raise _ = Done _ |- _ => discriminate H
  | H : @Timeout _ = Done _ |- _ => discriminate H
  | H : unwrap _ = Done _ |- _ => apply unwrap_Done in H
  | H : mbind _ _ = Done _ |- _ =>
      let a := fresh "x" in
      let H1 := fresh H in
      apply bind_Done in H as (a & H1 & H)
  | H : (let '(_, _) := ?p in _) = Done _ |- _ => destruct p eqn:?
  end.

(** ** Lists: removal of the first occurrence *)

Lemma remove_first_subseteq x l j : j ∈ remove_first x l → j ∈ l.
Proof.
  induction l as [|y l IH]; simpl; [done|].
  case_decide; [by right|].
  intros [->|Hj]%elem_of_cons; [by left | right; auto].
Qed.

Lemma elem_of_remove_first x l j :
  NoDup l → j ∈ remove_first x l ↔ j ∈ l ∧ j ≠ x.
Proof.
  induction 1 as [|y l Hy Hnd IH]; simpl.
  - split; [by intros ?%elem_of_nil | by intros [?%elem_of_nil _]].
  - case_decide as Hxy.
    + subst y. rewrite elem_of_cons. split.
      * intros Hj. split; [by right|]. by intros ->.
      * intros [[->|Hj] Hne]; done.
    + rewrite !elem_of_cons, IH. split.
      * intros [->|[Hj Hne]]; split; auto.
      * intros [[->|Hj] Hne]; auto.
Qed.

Lemma NoDup_remove_first x l : NoDup l → NoDup (remove_first x l).
Proof.
  induction 1 as [|y l Hy Hnd IH]; simpl; [constructor|].
  case_decide; [done|]. constructor; [|done].
  intros Hin%remove_first_subseteq. done.
Qed.

Lemma remove_first_not_elem x l : x ∉ l → remove_first x l = l.
Proof.
  induction l as [|y l IH]; simpl; [done|].
  intros Hx. case_decide as Hxy.
  - subst. exfalso. apply Hx. by left.
  - f_equal. apply IH. intros ?. apply Hx. by right.
Qed.

Lemma length_remove_first x l :
  x ∈ l → S (length (remove_first x l)) = length l.
Proof.
  induction l as [|y l IH]; simpl.
  - by intros ?%elem_of_nil.
  - intros Hx. case_decide as Hxy; [done|]. simpl. f_equal. apply IH.
    apply elem_of_cons in Hx as [->|Hx]; done.
Qed.

(** ** Lists: the shuffle is a permutation *)

Lemma insert_Permutation_cons {A} (l : list A) (j : nat) (x a : A) :
  l !! j = Some x → x :: <[j := a]> l ≡ₚ a :: l.
Proof.
  revert j. induction l as [|y l IH]; intros [|j]; simpl; try done.
  - intros [= ->]. apply perm_swap.
  - intros Hj. rewrite (perm_swap y x). rewrite (IH _ Hj). apply perm_swap.
Qed.

Lemma swap_Permutation {A} (i j : nat) (x : list A) : swap i j x ≡ₚ x.
Proof.
  unfold swap.
  destruct (x !! i) as [xi|] eqn:Hi; [|done].
  destruct (x !! j) as [xj|] eqn:Hj; [|done].
  revert i j Hi Hj. induction x as [|y x IH]; intros [|i] [|j]; simpl; try done.
  - by intros [= ->] [= ->].
  - intros [= ->] Hj. by apply insert_Permutation_cons.
  - intros Hi [= ->]. by apply insert_Permutation_cons.
  - intros Hi Hj. f_equiv. by apply IH.
Qed.

Section shuffle_facts.
Context `{PRNG R}.

Lemma shuffle_from_Permutation {A} (i : nat) (x : list A) (r : R) :
  (shuffle_from i x r).1 ≡ₚ x.
Proof.
  revert x r. induction i as [|i IH]; intros x r; [done|].
  cbn [shuffle_from].
  destruct (randbelow (Z.of_nat (S i) + 1) r) as [j r'].
  rewrite IH. apply swap_Permutation.
Qed.

Lemma shuffle_Permutation {A} (x : list A) (r : R) : (shuffle x r).1 ≡ₚ x.
Proof. apply shuffle_from_Permutation. Qed.

Lemma choice_Done {A} (seq : list A) (r : R) :
  seq ≠ [] →
  ∃ x, choice seq r = Done (x, (randbelow (Z.of_nat (length seq)) r).2)
       ∧ seq !! Z.to_nat (randbelow (Z.of_nat (length seq)) r).1 = Some x.
Proof.
  intros Hne. unfold choice.
  pose proof (randbelow_range (Z.of_nat (length seq)) r) as Hr.
  destruct (randbelow (Z.of_nat (length seq)) r) as [k r'] eqn:Hk. simpl in *.
  destruct seq as [|y seq]; [done|].
  destruct ((y :: seq) !! Z.to_nat k) as [x|] eqn:Hx.
  - exists x. done.
  - apply lookup_ge_None in Hx. simpl in *. lia.
Qed.

Lemma choice_inv {A} (seq : list A) (r : R) (x : A) (r' : R) :
  choice seq r = Done (x, r') →
  seq ≠ [] ∧ r' = (randbelow (Z.of_nat (length seq)) r).2
  ∧ seq !! Z.to_nat (randbelow (Z.of_nat (length seq)) r).1 = Some x.
Proof.
  intros Hc. destruct (decide (seq = [])) as [->|Hne]; [done|].
  destruct (choice_Done seq r Hne) as (x' & Hc' & Hx').
  rewrite Hc' in Hc. injection Hc as -> ->. done.
Qed.
End shuffle_facts.

(** ** World operations *)

Lemma pos_of_Some m i p :
  pos_of m i = Some p ↔ ∃ a, agents m !! i = Some a ∧ pos a = Some p.
Proof.
  unfold pos_of. destruct (agents m !! i) as [a|]; simpl.
  - split; [by exists a | by intros (? & [= <-] & ?)].
  - split; [done | by intros (? & ? & ?)].
Qed.

Lemma occupants_insert m g p l q :
  grid g = <[p := l]> (grid m) →
  World.occupants g q = if decide (p = q) then l else World.occupants m q.
Proof.
  intros Hg. unfold World.occupants. rewrite Hg, lookup_insert.
  by case_decide.
Qed.

Lemma occupants_set_agents ag m p :
  World.occupants (set_agents ag m) p = World.occupants m p.
Proof. done. Qed.

Lemma is_cell_empty_true m p :
  World.is_cell_empty m p = true ↔ World.occupants m p = [].
Proof. unfold World.is_cell_empty. apply bool_decide_eq_true. Qed.

Lemma place_agent_Done i p m a :
  agents m !! i = Some a →
  World.place_agent i p m =
    Done (set_agents (<[i := set_pos (Some p) a]> (agents m))
           (set_grid (<[p := World.occupants m p ++ [i]]> (grid m)) m)).
Proof. intros Ha. unfold World.place_agent, get_agent. by rewrite Ha. Qed.

Lemma place_agent_inv i p m m' :
  World.place_agent i p m = Done m' →
  ∃ a, agents m !! i = Some a
       ∧ m' = set_agents (<[i := set_pos (Some p) a]> (agents m))
                (set_grid (<[p := World.occupants m p ++ [i]]> (grid m)) m).
Proof.
  unfold World.place_agent, get_agent. intros Hp. inv_done. eauto.
Qed.

Lemma remove_agent_Done i p m a :
  agents m !! i = Some a → pos a = Some p → i ∈ World.occupants m p →
  World.remove_agent i m =
    Done (set_agents (<[i := set_pos None a]> (agents m))
           (set_grid (<[p := remove_first i (World.occupants m p)]> (grid m)) m)).
Proof.
  intros Ha Hp Hi. unfold World.remove_agent, get_agent.
  rewrite Ha. simpl. rewrite Hp. simpl. by rewrite decide_True.
Qed.

Lemma remove_agent_inv i m m' :
  World.remove_agent i m = Done m' →
  ∃ a p, agents m !! i = Some a ∧ pos a = Some p ∧ i ∈ World.occupants m p
         ∧ m' = set_agents (<[i := set_pos None a]> (agents m))
                  (set_grid (<[p := remove_first i (World.occupants m p)]> (grid m)) m).
Proof.
  unfold World.remove_agent, get_agent. intros Hr. inv_done.
  case_decide; inv_done. eauto 10.
Qed.

Lemma update_agent_Done i f m a :
  agents m !! i = Some a →
  update_agent i f m = Done (set_agents (<[i := f a]> (agents m)) m).
Proof. intros Ha. unfold update_agent, get_agent. by rewrite Ha. Qed.

Lemma update_agent_inv i f m m' :
  update_agent i f m = Done m' →
  ∃ a, agents m !! i = Some a ∧ m' = set_agents (<[i := f a]> (agents m)) m.
Proof. unfold update_agent, get_agent. intros Hu. inv_done. eauto. Qed.

(** ** Well-formed models *)

Lemma wf_agent m i :
  wf m → i ∈ schedule m →
  ∃ a p, agents m !! i = Some a ∧ pos a = Some p ∧ i ∈ World.occupants m p.
Proof.
  intros Hwf Hi. destruct (wf_live m Hwf i Hi) as (p & Hp & Hin).
  apply pos_of_Some in Hp as (a & Ha & Hpa). eauto.
Qed.

Lemma wf_fresh m : wf m → agents m !! (current_id m + 1) = None.
Proof.
  intros Hwf. destruct (agents m !! (current_id m + 1)) eqn:Hl; [|done].
  assert (current_id m + 1 ≤ current_id m) by (apply (wf_ids m Hwf); eauto). lia.
Qed.

Lemma wf_fresh_schedule m : wf m → current_id m + 1 ∉ schedule m.
Proof.
  intros Hwf Hin. destruct (wf_agent m _ Hwf Hin) as (a & p & Ha & _).
  by rewrite wf_fresh in Ha.
Qed.

Lemma wf_fresh_cell m p : wf m → current_id m + 1 ∉ World.occupants m p.
Proof.
  intros Hwf Hin. apply (wf_cell m Hwf) in Hin as [Hin _].
  by apply wf_fresh_schedule in Hin.
Qed.

Lemma wf_empty_model : wf empty_model.
Proof.
  split; simpl.
  - constructor.
  - by intros i ?%elem_of_nil.
  - intros p i. unfold World.occupants. simpl. rewrite lookup_empty. simpl.
    by intros ?%elem_of_nil.
  - intros p. unfold World.occupants. simpl. rewrite lookup_empty. constructor.
  - intros i [a Ha]. by rewrite lookup_empty in Ha.
Qed.

(** A change of attributes other than the position. *)
Lemma wf_update m i a f :
  wf m → agents m !! i = Some a → pos (f a) = pos a →
  wf (set_agents (<[i := f a]> (agents m)) m).
Proof.
  intros Hwf Ha Hpos.
  assert (Hpo : ∀ j, pos_of (set_agents (<[i := f a]> (agents m)) m) j = pos_of m j).
  { intros j. unfold pos_of. simpl. rewrite lookup_insert. case_decide; [|done].
    subst j. rewrite Ha. simpl. done. }
  split; simpl.
  - apply Hwf.
  - intros j Hj. destruct (wf_live m Hwf j Hj) as (p & Hp & Hin).
    exists p. by rewrite Hpo.
  - intros p j Hj. rewrite Hpo. by apply (wf_cell m Hwf).
  - apply Hwf.
  - intros j. rewrite lookup_insert. case_decide.
    + subst j. intros _. apply (wf_ids m Hwf). eauto.
    + apply (wf_ids m Hwf).
Qed.

(** In a well-formed model an agent stands on one cell only. *)
Lemma wf_remove_first_other m i p x :
  wf m → pos_of m i = Some p → x ≠ p →
  remove_first i (World.occupants m x) = World.occupants m x.
Proof.
  intros Hwf Hp Hx. apply remove_first_not_elem.
  intros Hin. apply (wf_cell m Hwf) in Hin as [_ Hp']. congruence.
Qed.

(** [move_agent] on a live agent. *)
Lemma move_agent_spec m i q :
  wf m → i ∈ schedule m →
  ∃ m' a,
    agents m !! i = Some a
    ∧ World.move_agent i q m = Done m'
    ∧ wf m'
    ∧ schedule m' = schedule m
    ∧ current_id m' = current_id m
    ∧ agents m' = <[i := set_pos (Some q) a]> (agents m)
    ∧ ∀ x, World.occupants m' x =
           remove_first i (World.occupants m x) ++ (if decide (x = q) then [i] else []).
Proof.
  intros Hwf Hi.
  destruct (wf_agent m i Hwf Hi) as (a & p & Ha & Hpa & Hin).
  assert (Hpo : pos_of m i = Some p) by (apply pos_of_Some; eauto).
  set (m1 := set_agents (<[i := set_pos None a]> (agents m))
               (set_grid (<[p := remove_first i (World.occupants m p)]> (grid m)) m)).
  assert (Hocc1 : ∀ x, World.occupants m1 x = remove_first i (World.occupants m x)).
  { intros x. rewrite (occupants_insert m m1 p _ x) by done.
    case_decide; [by subst|]. symmetry. by apply (wf_remove_first_other m i p). }
  set (m' := set_agents (<[i := set_pos (Some q) a]> (agents m))
               (set_grid (<[q := World.occupants m1 q ++ [i]]> (grid m1)) m1)).
  assert (Hocc : ∀ x, World.occupants m' x =
            remove_first i (World.occupants m x) ++ (if decide (x = q) then [i] else [])).
  { intros x. rewrite (occupants_insert m1 m' q _ x) by done.
    rewrite !Hocc1. repeat case_decide; subst; try done. by rewrite app_nil_r. }
  assert (Hpos : ∀ j, pos_of m' j = if decide (j = i) then Some q else pos_of m j).
  { intros j. unfold pos_of. simpl. rewrite lookup_insert.
    repeat case_decide; subst; done. }
  exists m', a. split_and!; try done.
  - unfold World.move_agent. rewrite (remove_agent_Done i p m a) by done. simpl.
    fold m1. rewrite (place_agent_Done i q m1 (set_pos None a)).
    + unfold m'. simpl. by rewrite insert_insert_eq.
    + simpl. by rewrite lookup_insert_eq.
  - split.
    + apply Hwf.
    + intros j Hj. change (schedule m') with (schedule m) in Hj.
      rewrite Hpos. case_decide as Hji.
      * subst j. exists q. split; [done|]. rewrite Hocc, decide_True by done.
        apply elem_of_app. right. by left.
      * destruct (wf_live m Hwf j Hj) as (pj & Hpj & Hinj).
        exists pj. split; [done|]. rewrite Hocc. apply elem_of_app. left.
        apply elem_of_remove_first; [apply Hwf | done].
    + intros x j. rewrite Hocc, Hpos. intros [Hj|Hj]%elem_of_app.
      * apply elem_of_remove_first in Hj as [Hj Hne]; [|apply Hwf].
        rewrite decide_False by done. by apply (wf_cell m Hwf).
      * case_decide as Hx; [|by apply elem_of_nil in Hj].
        apply list_elem_of_singleton in Hj as ->. subst x.
        by rewrite decide_True.
    + intros x. rewrite Hocc. apply NoDup_app. split_and!.
      * apply NoDup_remove_first, Hwf.
      * intros j [_ Hne]%elem_of_remove_first; [|apply Hwf].
        case_decide; [|by intros ?%elem_of_nil].
        by intros ->%list_elem_of_singleton.
      * case_decide; [apply NoDup_singleton | constructor].
    + intros j. simpl. rewrite lookup_insert. case_decide.
      * subst j. intros _. apply (wf_ids m Hwf). eauto.
      * apply (wf_ids m Hwf).
Qed.

(** Destruction of a live agent: removal from its cell and from the roster. *)
Lemma kill_spec m i :
  wf m → i ∈ schedule m →
  ∃ m1 m' a,
    agents m !! i = Some a
    ∧ World.remove_agent i m = Done m1
    ∧ Scheduler.remove i m1 = Done m'
    ∧ wf m'
    ∧ schedule m' = remove_first i (schedule m)
    ∧ current_id m' = current_id m
    ∧ agents m' = <[i := set_pos None a]> (agents m)
    ∧ ∀ x, World.occupants m' x = remove_first i (World.occupants m x).
Proof.
  intros Hwf Hi.
  destruct (wf_agent m i Hwf Hi) as (a & p & Ha & Hpa & Hin).
  assert (Hpo : pos_of m i = Some p) by (apply pos_of_Some; eauto).
  set (m1 := set_agents (<[i := set_pos None a]> (agents m))
               (set_grid (<[p := remove_first i (World.occupants m p)]> (grid m)) m)).
  set (m' := set_schedule (remove_first i (schedule m)) m1).
  assert (Hocc : ∀ x, World.occupants m' x = remove_first i (World.occupants m x)).
  { intros x. rewrite (occupants_insert m m' p _ x) by done.
    case_decide; [by subst|]. symmetry. by apply (wf_remove_first_other m i p). }
  assert (Hpos : ∀ j, pos_of m' j = if decide (j = i) then None else pos_of m j).
  { intros j. unfold pos_of. simpl. rewrite lookup_insert.
    repeat case_decide; subst; done. }
  exists m1, m', a. split_and!; try done.
  - by apply remove_agent_Done.
  - unfold Scheduler.remove. by rewrite decide_True.
  - split.
    + apply NoDup_remove_first, Hwf.
    + intros j Hj. simpl in Hj.
      apply elem_of_remove_first in Hj as [Hj Hne]; [|apply Hwf].
      rewrite Hpos, decide_False by done.
      destruct (wf_live m Hwf j Hj) as (pj & Hpj & Hinj).
      exists pj. split; [done|]. rewrite Hocc.
      apply elem_of_remove_first; [apply Hwf | done].
    + intros x j. rewrite Hocc, Hpos.
      intros [Hj Hne]%elem_of_remove_first; [|apply Hwf].
      rewrite decide_False by done. simpl.
      destruct (wf_cell m Hwf x j Hj) as [Hs Hp]. split; [|done].
      apply elem_of_remove_first; [apply Hwf | done].
    + intros x. rewrite Hocc. apply NoDup_remove_first, Hwf.
    + intros j. simpl. rewrite lookup_insert. case_decide.
      * subst j. intros _. apply (wf_ids m Hwf). eauto.
      * apply (wf_ids m Hwf).
Qed.

(** Creation of an agent: a fresh id, the object, its placement at [p] and
    its registration in the roster. *)
Lemma spawn_spec m k e p :
  wf m →
  let uid := current_id m + 1 in
  ∃ m1 m',
    World.place_agent uid p (new_agent k uid e (next_id m).2) = Done m1
    ∧ Scheduler.add uid m1 = Done m'
    ∧ wf m'
    ∧ schedule m' = schedule m ++ [uid]
    ∧ current_id m' = uid
    ∧ agents m' = <[uid := mkAgent k e 0 (Some p)]> (agents m)
    ∧ ∀ x, World.occupants m' x =
           World.occupants m x ++ (if decide (x = p) then [uid] else []).
Proof.
  intros Hwf uid. simpl.
  set (m0 := new_agent k uid e (set_current_id (current_id m + 1) m)).
  set (m1 := set_agents (<[uid := set_pos (Some p) (mkAgent k e 0 None)]> (agents m0))
               (set_grid (<[p := World.occupants m0 p ++ [uid]]> (grid m0)) m0)).
  set (m' := set_schedule (schedule m ++ [uid]) m1).
  assert (Hocc : ∀ x, World.occupants m' x =
            World.occupants m x ++ (if decide (x = p) then [uid] else [])).
  { intros x. rewrite (occupants_insert m m' p _ x) by done.
    repeat case_decide; subst; try done. by rewrite app_nil_r. }
  assert (Hag : agents m' = <[uid := mkAgent k e 0 (Some p)]> (agents m)).
  { unfold m'. simpl. by rewrite insert_insert_eq. }
  assert (Hpos : ∀ j, pos_of m' j = if decide (j = uid) then Some p else pos_of m j).
  { intros j. unfold pos_of. rewrite Hag, lookup_insert.
    repeat case_decide; subst; done. }
  exists m1, m'. split_and!; try done.
  - apply place_agent_Done. unfold m0. simpl. by rewrite lookup_insert_eq.
  - unfold Scheduler.add. rewrite decide_False; [done|].
    apply (wf_fresh_schedule m Hwf).
  - split.
    + simpl. apply NoDup_app. split_and!.
      * apply Hwf.
      * intros j Hj ->%list_elem_of_singleton. by apply (wf_fresh_schedule m Hwf).
      * apply NoDup_singleton.
    + intros j. simpl. rewrite Hpos. intros [Hj|Hj]%elem_of_app.
      * rewrite decide_False.
        2:{ intros ->. by apply (wf_fresh_schedule m Hwf). }
        destruct (wf_live m Hwf j Hj) as (pj & Hpj & Hinj).
        exists pj. split; [done|]. rewrite Hocc. apply elem_of_app. by left.
      * apply list_elem_of_singleton in Hj as ->. exists p.
        rewrite Hocc, !decide_True by done. split; [done|].
        apply elem_of_app. right. by left.
    + intros x j. rewrite Hocc, Hpos. simpl. intros [Hj|Hj]%elem_of_app.
      * rewrite decide_False.
        2:{ intros ->. by apply (wf_fresh_cell m x Hwf). }
        destruct (wf_cell m Hwf x j Hj) as [Hs Hp]. split; [|done].
        apply elem_of_app. by left.
      * case_decide as Hx; [|by apply elem_of_nil in Hj].
        apply list_elem_of_singleton in Hj as ->. subst x.
        rewrite decide_True by done. split; [|done].
        apply elem_of_app. right. by left.
    + intros x. rewrite Hocc. apply NoDup_app. split_and!.
      * apply Hwf.
      * intros j Hj. case_decide; [|by intros ?%elem_of_nil].
        intros ->%list_elem_of_singleton. by apply (wf_fresh_cell m x Hwf).
      * case_decide; [apply NoDup_singleton | constructor].
    + intros j. rewrite Hag, lookup_insert. simpl. case_decide.
      * subst j. intros _. unfold uid. lia.
      * intros Hj. apply (wf_ids m Hwf) in Hj. lia.
Qed.

(** ** One activation, rule by rule *)

Section rule_facts.
Context `{PRNG R}.
Variable cfg : Params.

Lemma reproduce_below k i m a :
  agents m !! i = Some a →
  ¬ fertility_threshold cfg k ≤ fertility_counter a + 1 →
  reproduce cfg k i m =
    Done (set_agents (<[i := set_fertility_counter (fertility_counter a + 1) a]> (agents m)) m).
Proof.
  intros Ha Hlt. unfold reproduce.
  rewrite (update_agent_Done i _ m a Ha). simpl.
  unfold get_agent. simpl. rewrite lookup_insert_eq. simpl.
  by rewrite decide_False.
Qed.

Lemma reproduce_reached k i m a p :
  wf m → agents m !! i = Some a → pos a = Some p →
  fertility_threshold cfg k ≤ fertility_counter a + 1 →
  let uid := current_id m + 1 in
  ∃ m',
    reproduce cfg k i m = Done m'
    ∧ wf m'
    ∧ schedule m' = schedule m ++ [uid]
    ∧ current_id m' = uid
    ∧ agents m' = <[i := set_fertility_counter 0 a]>
                    (<[uid := mkAgent k (initial_energy cfg k) 0 (Some p)]> (agents m))
    ∧ ∀ x, World.occupants m' x =
           World.occupants m x ++ (if decide (x = p) then [uid] else []).
Proof.
  intros Hwf Ha Hp Hge uid.
  set (a1 := set_fertility_counter (fertility_counter a + 1) a).
  set (m1 := set_agents (<[i := a1]> (agents m)) m).
  assert (Hwf1 : wf m1) by (by apply wf_update).
  destruct (spawn_spec m1 k (initial_energy cfg k) p Hwf1)
    as (m4 & m5 & Hplace & Hadd & Hwf5 & Hs5 & Hc5 & Ha5 & Ho5).
  assert (Hne : i ≠ uid).
  { unfold uid. intros ->. by rewrite (wf_fresh m Hwf) in Ha. }
  assert (Hi5 : agents m5 !! i = Some a1).
  { rewrite Ha5. simpl. rewrite lookup_insert_ne by done. by rewrite lookup_insert_eq. }
  exists (set_agents (<[i := set_fertility_counter 0 a1]> (agents m5)) m5).
  split_and!.
  - unfold reproduce. rewrite (update_agent_Done i _ m a Ha). simpl.
    unfold get_agent at 1. simpl. rewrite lookup_insert_eq. simpl.
    rewrite decide_True by done. rewrite Hp. simpl.
    unfold m1, a1 in Hplace, Hadd. simpl in Hplace, Hadd.
    rewrite Hplace. simpl. rewrite Hadd. simpl.
    by apply update_agent_Done.
  - by apply wf_update.
  - done.
  - done.
  - simpl. rewrite Ha5. simpl.
    rewrite (insert_insert_ne _ (current_id m + 1) i) by done.
    by rewrite !insert_insert_eq.
  - done.
Qed.

Lemma death_check_alive i m a :
  agents m !! i = Some a → ¬ energy a ≤ 0 → death_check i m = Done m.
Proof.
  intros Ha He. unfold death_check, get_agent. rewrite Ha. simpl.
  by rewrite decide_False.
Qed.

Lemma death_check_dead i m a :
  wf m → i ∈ schedule m → agents m !! i = Some a → energy a ≤ 0 →
  ∃ m',
    death_check i m = Done m'
    ∧ wf m'
    ∧ schedule m' = remove_first i (schedule m)
    ∧ current_id m' = current_id m
    ∧ agents m' = <[i := set_pos None a]> (agents m)
    ∧ ∀ x, World.occupants m' x = remove_first i (World.occupants m x).
Proof.
  intros Hwf Hi Ha He.
  destruct (kill_spec m i Hwf Hi) as (m1 & m' & a' & Ha' & Hrm & Hsr & Hrest).
  assert (a' = a) as -> by congruence.
  exists m'. split; [|done].
  unfold death_check, get_agent. rewrite Ha. simpl.
  rewrite decide_True by done. by rewrite Hrm.
Qed.

(** The move shared by [Fish.move] and the fallback of
    [Shark.move_and_eat]. *)
Lemma move_to_empty_spec i steps m r :
  wf m → i ∈ schedule m →
  match steps with
  | [] => move_to_empty i steps m r = Done (m, r)
  | _ =>
      ∃ q m' a,
        steps !! Z.to_nat (randbelow (Z.of_nat (length steps)) r).1 = Some q
        ∧ move_to_empty i steps m r = Done (m', (randbelow (Z.of_nat (length steps)) r).2)
        ∧ agents m !! i = Some a
        ∧ wf m'
        ∧ schedule m' = schedule m
        ∧ current_id m' = current_id m
        ∧ agents m' = <[i := set_pos (Some q) a]> (agents m)
        ∧ ∀ x, World.occupants m' x =
               remove_first i (World.occupants m x) ++ (if decide (x = q) then [i] else [])
  end.
Proof.
  intros Hwf Hi. destruct steps as [|s steps]; [done|].
  destruct (choice_Done (s :: steps) r) as (q & Hc & Hq); [done|].
  destruct (move_agent_spec m i q Hwf Hi) as (m' & a & Ha & Hmv & Hrest).
  exists q, m', a. split; [done|]. split; [|done].
  unfold move_to_empty. rewrite Hc. simpl. by rewrite Hmv.
Qed.

End rule_facts.

Lemma set_pos_id a : set_pos (pos a) a = a.
Proof. by destruct a. Qed.

Section step_facts.
Context `{PRNG R}.
Variable cfg : Params.

Lemma Fish_move_unfold i m r a p :
  agents m !! i = Some a → pos a = Some p →
  Fish_move cfg i m r =
    move_to_empty i (empty_steps m (World.get_neighborhood cfg p false)) m r.
Proof.
  intros Ha Hp. unfold Fish_move, get_agent. rewrite Ha. simpl. by rewrite Hp.
Qed.

(** Whatever the candidate list, the conditional move leaves everything
    but the position of the agent and the two cells involved as it was. *)
Lemma move_to_empty_summary i steps m r a :
  wf m → i ∈ schedule m → agents m !! i = Some a →
  ∃ m' r' q,
    move_to_empty i steps m r = Done (m', r')
    ∧ wf m'
    ∧ schedule m' = schedule m
    ∧ current_id m' = current_id m
    ∧ agents m' = <[i := set_pos q a]> (agents m)
    ∧ is_Some q.
Proof.
  intros Hwf Hi Ha.
  pose proof (move_to_empty_spec i steps m r Hwf Hi) as Hspec.
  destruct steps as [|s steps].
  - destruct (wf_agent m i Hwf Hi) as (a' & p & Ha' & Hp & _).
    assert (a' = a) as -> by congruence.
    exists m, r, (pos a). split_and!; try done.
    rewrite set_pos_id. symmetry. by apply insert_id.
  - destruct Hspec as (q & m' & a' & _ & Hmv & Ha' & Hwf' & Hs & Hc & Hag & _).
    assert (a' = a) as -> by congruence.
    eexists m', _, (Some q). split_and!; eauto.
Qed.

(** [Shark.move_and_eat] when some neighbouring cell shows a fish first:
    the first occupant [fish] of the chosen cell [q] is destroyed, the
    shark is appended to what is left of the cell and gains the bonus. *)
Lemma Shark_move_and_eat_eats i m r a p :
  wf m → i ∈ schedule m → agents m !! i = Some a → pos a = Some p →
  kind a = Shark →
  let fps := fish_positions m (World.get_neighborhood cfg p true) in
  fps ≠ [] →
  ∃ q fish rest b m',
    fps !! Z.to_nat (randbelow (Z.of_nat (length fps)) r).1 = Some q
    ∧ World.occupants m q = fish :: rest
    ∧ agents m !! fish = Some b ∧ kind b = Fish ∧ fish ≠ i
    ∧ Shark_move_and_eat cfg i m r = Done (m', (randbelow (Z.of_nat (length fps)) r).2)
    ∧ wf m'
    ∧ schedule m' = remove_first fish (schedule m)
    ∧ current_id m' = current_id m
    ∧ agents m' =
        <[i := set_energy (energy a + shark_energy_from_fish cfg) (set_pos (Some q) a)]>
          (<[fish := set_pos None b]> (agents m))
    ∧ ∀ x, World.occupants m' x =
           remove_first i (remove_first fish (World.occupants m x))
             ++ (if decide (x = q) then [i] else []).
Proof.
  intros Hwf Hi Ha Hp Hk fps. unfold fps.
  remember (fish_positions m (World.get_neighborhood cfg p true)) as fps' eqn:Hfps.
  clear fps. rename fps' into fps. intros Hne.
  destruct (choice_Done fps r Hne) as (q & Hc & Hq).
  assert (Hqin : q ∈ fps) by (by eapply list_elem_of_lookup_2).
  rewrite Hfps in Hqin.
  apply list_elem_of_filter in Hqin as [Hfish _].
  unfold first_is_fish in Hfish.
  destruct (World.occupants m q) as [|fish rest] eqn:Hocc; [done|].
  destruct (agents m !! fish) as [b|] eqn:Hb; [|done].
  apply bool_decide_eq_true in Hfish.
  assert (Hfi : fish ≠ i) by (intros ->; congruence).
  assert (Hfs : fish ∈ schedule m).
  { apply (wf_cell m Hwf q). rewrite Hocc. by left. }
  destruct (kill_spec m fish Hwf Hfs)
    as (m1 & m2 & b' & Hb' & Hrm & Hsr & Hwf2 & Hs2 & Hc2 & Ha2 & Ho2).
  assert (b' = b) as -> by congruence.
  assert (Hi2 : i ∈ schedule m2).
  { rewrite Hs2. apply elem_of_remove_first; [apply Hwf | done]. }
  destruct (move_agent_spec m2 i q Hwf2 Hi2)
    as (m3 & a3 & Ha3 & Hmv & Hwf3 & Hs3 & Hc3 & Hag3 & Ho3).
  assert (a3 = a) as ->.
  { rewrite Ha2, lookup_insert_ne in Ha3 by done. congruence. }
  set (a4 := set_energy (energy a + shark_energy_from_fish cfg) (set_pos (Some q) a)).
  exists q, fish, rest, b, (set_agents (<[i := a4]> (agents m3)) m3).
  split_and!; try done.
  - unfold Shark_move_and_eat, get_agent. rewrite Ha. simpl. rewrite Hp. simpl.
    rewrite <- Hfps. destruct fps as [|fp fps']; [done|].
    rewrite Hc. simpl. rewrite Hocc. simpl. rewrite Hrm. simpl.
    rewrite Hsr. simpl. rewrite Hmv. simpl.
    rewrite (update_agent_Done i _ m3 (set_pos (Some q) a)); [done|].
    rewrite Hag3. by rewrite lookup_insert_eq.
  - apply wf_update; [done| |done]. rewrite Hag3. by rewrite lookup_insert_eq.
  - simpl. congruence.
  - simpl. congruence.
  - simpl. rewrite Hag3, Ha2. by rewrite insert_insert_eq.
  - intros x. rewrite occupants_set_agents. by rewrite Ho3, Ho2.
Qed.

(** [Shark.move_and_eat] when no neighbouring cell shows a fish first. *)
Lemma Shark_move_and_eat_fallback i m r a p :
  agents m !! i = Some a → pos a = Some p →
  fish_positions m (World.get_neighborhood cfg p true) = [] →
  Shark_move_and_eat cfg i m r =
    move_to_empty i (empty_steps m (World.get_neighborhood cfg p true)) m r.
Proof.
  intros Ha Hp Hf. unfold Shark_move_and_eat, get_agent.
  rewrite Ha. simpl. rewrite Hp. simpl. by rewrite Hf.
Qed.

End step_facts.

(** ** What an activation leaves alone *)

Lemma same_attrs_refl a : same_attrs a a.
Proof. by repeat split. Qed.

Lemma same_attrs_trans a b c : same_attrs a b → same_attrs b c → same_attrs a c.
Proof. unfold same_attrs. intros (? & ? & ?) (? & ? & ?). split_and!; congruence. Qed.

Lemma same_attrs_set_pos q a : same_attrs a (set_pos q a).
Proof. by repeat split. Qed.

Lemma frame_refl i m : frame i m m.
Proof.
  split; [lia|auto| |].
  - intros j b _ Hb. exists b. split; [done | apply same_attrs_refl].
  - intros j b' Hn Hs. congruence.
Qed.

Lemma frame_trans i m m1 m2 :
  is_Some (agents m !! i) → frame i m m1 → frame i m1 m2 → frame i m m2.
Proof.
  intros Hi F1 F2. split.
  - pose proof (fr_id _ _ _ F1). pose proof (fr_id _ _ _ F2). lia.
  - intros j Hj. pose proof (fr_id _ _ _ F1).
    destruct (fr_sched _ _ _ F2 j Hj) as [Hj1|Hj1]; [|right; lia].
    apply (fr_sched _ _ _ F1 j Hj1).
  - intros j b Hne Hb.
    destruct (fr_others _ _ _ F1 j b Hne Hb) as (b1 & Hb1 & Hs1).
    destruct (fr_others _ _ _ F2 j b1 Hne Hb1) as (b2 & Hb2 & Hs2).
    exists b2. split; [done|]. by eapply same_attrs_trans.
  - intros j b' Hn Hs.
    assert (Hne : j ≠ i) by (intros ->; rewrite Hn in Hi; by destruct Hi).
    destruct (agents m1 !! j) as [b1|] eqn:Hb1.
    + destruct (fr_others _ _ _ F2 j b1 Hne Hb1) as (b2 & Hb2 & _ & _ & Hfc).
      assert (b2 = b') as -> by congruence.
      rewrite Hfc. by apply (fr_new _ _ _ F1 j b1).
    + by apply (fr_new _ _ _ F2 j b').
Qed.

(** A change of the attributes of [i] alone. *)
Lemma frame_update i m a a' :
  agents m !! i = Some a →
  frame i m (set_agents (<[i := a']> (agents m)) m).
Proof.
  intros Ha. split; simpl; [lia|auto| |].
  - intros j b Hne Hb. exists b. rewrite lookup_insert_ne by done.
    split; [done | apply same_attrs_refl].
  - intros j b' Hn. rewrite lookup_insert. case_decide; [congruence|]. congruence.
Qed.

Lemma frame_same_roster i m m' a a' :
  agents m !! i = Some a →
  schedule m' = schedule m → current_id m' = current_id m →
  agents m' = <[i := a']> (agents m) →
  frame i m m'.
Proof.
  intros Ha Hs Hc Hag. split.
  - lia.
  - intros j. rewrite Hs. auto.
  - intros j b Hne Hb. exists b. rewrite Hag, lookup_insert_ne by done.
    split; [done | apply same_attrs_refl].
  - intros j b' Hn. rewrite Hag, lookup_insert. case_decide; congruence.
Qed.

Section activation.
Context `{PRNG R}.
Variable cfg : Params.

Lemma move_to_empty_frame i steps m r a :
  wf m → i ∈ schedule m → agents m !! i = Some a →
  ∃ m' r' a',
    move_to_empty i steps m r = Done (m', r')
    ∧ wf m' ∧ frame i m m' ∧ i ∈ schedule m'
    ∧ agents m' !! i = Some a' ∧ same_attrs a a'.
Proof.
  intros Hwf Hi Ha.
  destruct (move_to_empty_summary i steps m r a Hwf Hi Ha)
    as (m' & r' & q & Hmv & Hwf' & Hs & Hc & Hag & _).
  exists m', r', (set_pos q a). split_and!; try done.
  - by eapply frame_same_roster.
  - by rewrite Hs.
  - by rewrite Hag, lookup_insert_eq.
Qed.

Lemma update_energy_frame i m a e :
  wf m → i ∈ schedule m → agents m !! i = Some a →
  ∃ m',
    update_agent i (λ a, set_energy (energy a + e) a) m = Done m'
    ∧ wf m' ∧ frame i m m' ∧ i ∈ schedule m'
    ∧ agents m' !! i = Some (set_energy (energy a + e) a).
Proof.
  intros Hwf Hi Ha. eexists. split_and!.
  - by apply update_agent_Done.
  - by apply (wf_update m i a (λ a, set_energy (energy a + e) a)).
  - by eapply frame_update.
  - done.
  - simpl. by rewrite lookup_insert_eq.
Qed.

Lemma reproduce_frame k i m a :
  wf m → i ∈ schedule m → agents m !! i = Some a →
  ∃ m',
    reproduce cfg k i m = Done m'
    ∧ wf m' ∧ frame i m m' ∧ i ∈ schedule m'
    ∧ agents m' !! i =
        Some (set_fertility_counter (next_fertility cfg k (fertility_counter a)) a).
Proof.
  intros Hwf Hi Ha. unfold next_fertility.
  destruct (decide (fertility_threshold cfg k ≤ fertility_counter a + 1)) as [Hge|Hlt].
  - destruct (wf_agent m i Hwf Hi) as (a' & p & Ha' & Hp & _).
    assert (a' = a) as -> by congruence.
    destruct (reproduce_reached cfg k i m a p Hwf Ha Hp Hge)
      as (m' & Hr & Hwf' & Hs & Hc & Hag & Ho).
    assert (Hne : i ≠ current_id m + 1).
    { intros ->. by rewrite (wf_fresh m Hwf) in Ha. }
    exists m'. split_and!; try done.
    + split.
      * lia.
      * intros j. rewrite Hs. intros [Hj|Hj]%elem_of_app; [by left|].
        apply list_elem_of_singleton in Hj. right. lia.
      * intros j b Hji Hb. exists b. rewrite Hag, lookup_insert_ne by done.
        rewrite lookup_insert_ne; [split; [done | apply same_attrs_refl]|].
        intros <-. by rewrite (wf_fresh m Hwf) in Hb.
      * intros j b' Hn. rewrite Hag, lookup_insert. case_decide; [congruence|].
        rewrite lookup_insert. case_decide; [|congruence]. by intros [= <-].
    + rewrite Hs. apply elem_of_app. by left.
    + by rewrite Hag, lookup_insert_eq.
  - rewrite (reproduce_below cfg k i m a Ha Hlt). eexists. split_and!.
    + done.
    + by apply (wf_update m i a (λ a, set_fertility_counter (fertility_counter a + 1) a)).
    + by eapply frame_update.
    + done.
    + simpl. by rewrite lookup_insert_eq.
Qed.

Lemma death_check_frame i m a :
  wf m → i ∈ schedule m → agents m !! i = Some a →
  ∃ m' a',
    death_check i m = Done m'
    ∧ wf m' ∧ frame i m m'
    ∧ agents m' !! i = Some a' ∧ same_attrs a a'
    ∧ (i ∈ schedule m' ↔ 0 < energy a).
Proof.
  intros Hwf Hi Ha. destruct (decide (energy a ≤ 0)) as [Hd|Hl].
  - destruct (death_check_dead i m a Hwf Hi Ha Hd)
      as (m' & Hdc & Hwf' & Hs & Hc & Hag & Ho).
    exists m', (set_pos None a). split_and!; try done.
    + split.
      * lia.
      * intros j. rewrite Hs. intros Hj%remove_first_subseteq. by left.
      * intros j b Hne Hb. exists b. rewrite Hag, lookup_insert_ne by done.
        split; [done | apply same_attrs_refl].
      * intros j b' Hn. rewrite Hag, lookup_insert. case_decide; congruence.
    + by rewrite Hag, lookup_insert_eq.
    + rewrite Hs. split; [|lia].
      intros [_ Hne]%elem_of_remove_first; [done | apply Hwf].
  - exists m, a. split_and!; try done.
    + by eapply death_check_alive.
    + apply frame_refl.
    + split; [lia | done].
Qed.

(** [Fish.step] on a live fish: it returns; the energy of the fish went
    down by one, its fertility counter followed [next_fertility], and it is
    still in the roster iff its energy is positive. *)
Lemma Fish_step_spec i m r a :
  wf m → i ∈ schedule m → agents m !! i = Some a →
  ∃ m' r' a',
    Fish_step cfg i m r = Done (m', r')
    ∧ wf m' ∧ frame i m m'
    ∧ agents m' !! i = Some a'
    ∧ kind a' = kind a
    ∧ energy a' = energy a - 1
    ∧ fertility_counter a' = next_fertility cfg Fish (fertility_counter a)
    ∧ (i ∈ schedule m' ↔ 0 < energy a').
Proof.
  intros Hwf Hi Ha.
  assert (HiS : is_Some (agents m !! i)) by eauto.
  destruct (wf_agent m i Hwf Hi) as (a0 & p & Ha0 & Hp & _).
  assert (a0 = a) as -> by congruence.
  destruct (move_to_empty_frame i
              (empty_steps m (World.get_neighborhood cfg p false)) m r a Hwf Hi Ha)
    as (m1 & r1 & a1 & Hmv & Hwf1 & F1 & Hi1 & Ha1 & (Hk1 & He1 & Hf1)).
  destruct (update_energy_frame i m1 a1 (-1) Hwf1 Hi1 Ha1)
    as (m2 & Hup & Hwf2 & F2 & Hi2 & Ha2).
  destruct (reproduce_frame Fish i m2 _ Hwf2 Hi2 Ha2)
    as (m3 & Hrp & Hwf3 & F3 & Hi3 & Ha3).
  destruct (death_check_frame i m3 _ Hwf3 Hi3 Ha3)
    as (m4 & a4 & Hdc & Hwf4 & F4 & Ha4 & (Hk4 & He4 & Hf4) & Hlive).
  simpl in *.
  exists m4, r1, a4. split_and!; try done.
  - unfold Fish_step. rewrite (Fish_move_unfold cfg i m r a p Ha Hp), Hmv. simpl.
    change (λ a : Agent, set_energy (energy a - 1) a)
      with (λ a : Agent, set_energy (energy a + -1) a).
    rewrite Hup. simpl. unfold Fish_reproduce. rewrite Hrp. simpl. by rewrite Hdc.
  - eapply frame_trans; [done| |exact F4].
    eapply frame_trans; [done| |exact F3].
    eapply frame_trans; [done|exact F1|exact F2].
  - congruence.
  - lia.
  - congruence.
  - rewrite Hlive. lia.
Qed.

End activation.

Section predation.
Context `{PRNG R}.
Variable cfg : Params.

Lemma Shark_move_and_eat_frame i m r a p :
  wf m → i ∈ schedule m → agents m !! i = Some a → pos a = Some p →
  kind a = Shark →
  ∃ m' r' a',
    Shark_move_and_eat cfg i m r = Done (m', r')
    ∧ wf m' ∧ frame i m m' ∧ i ∈ schedule m'
    ∧ agents m' !! i = Some a'
    ∧ kind a' = kind a
    ∧ energy a' = energy a + gained cfg m p
    ∧ fertility_counter a' = fertility_counter a
    ∧ ∀ f, prey_of cfg m p r = Some f →
           f ∈ schedule m ∧ (f ∉ schedule m') ∧ f ≤ current_id m'.
Proof.
  intros Hwf Hi Ha Hp Hk. unfold gained, prey_of, chosen_prey_cell.
  destruct (fish_positions m (World.get_neighborhood cfg p true)) as [|fp fps] eqn:Hfps.
  - destruct (move_to_empty_frame i
                (empty_steps m (World.get_neighborhood cfg p true)) m r a Hwf Hi Ha)
      as (m1 & r1 & a1 & Hmv & Hwf1 & F1 & Hi1 & Ha1 & (Hk1 & He1 & Hf1)).
    exists m1, r1, a1. split_and!; try done.
    + by rewrite (Shark_move_and_eat_fallback cfg i m r a p Ha Hp Hfps).
    + lia.
  - destruct (Shark_move_and_eat_eats cfg i m r a p Hwf Hi Ha Hp Hk)
      as (q & fish & rest & b & m' & Hq & Hocc & Hb & Hkb & Hne & Heat
          & Hwf' & Hs & Hc & Hag & Ho); [by rewrite Hfps|].
    rewrite Hfps in Hq, Heat.
    eexists m', _, _. split_and!.
    + exact Heat.
    + done.
    + split.
      * lia.
      * intros j. rewrite Hs. intros Hj%remove_first_subseteq. by left.
      * intros j c Hji Hj. rewrite Hag, lookup_insert_ne by done.
        rewrite lookup_insert. case_decide as Hjf.
        -- subst j. assert (c = b) as -> by congruence.
           eexists. split; [done | apply same_attrs_set_pos].
        -- exists c. split; [done | apply same_attrs_refl].
      * intros j b' Hn. rewrite Hag, lookup_insert. case_decide; [congruence|].
        rewrite lookup_insert. case_decide; congruence.
    + rewrite Hs. apply elem_of_remove_first; [apply Hwf | done].
    + by rewrite Hag, lookup_insert_eq.
    + done.
    + done.
    + done.
    + intros f. rewrite Hq. simpl. rewrite Hocc. simpl. intros [= <-]. split_and!.
      * apply (wf_cell m Hwf q). rewrite Hocc. by left.
      * rewrite Hs. intros [_ Hff]%elem_of_remove_first; [done | apply Hwf].
      * rewrite Hc. apply (wf_ids m Hwf). eauto.
Qed.

(** [Shark.step] on a live shark. *)
Lemma Shark_step_spec i m r a p :
  wf m → i ∈ schedule m → agents m !! i = Some a → pos a = Some p →
  kind a = Shark →
  ∃ m' r' a',
    Shark_step cfg i m r = Done (m', r')
    ∧ wf m' ∧ frame i m m'
    ∧ agents m' !! i = Some a'
    ∧ kind a' = kind a
    ∧ energy a' = energy a + gained cfg m p - 1
    ∧ fertility_counter a' = next_fertility cfg Shark (fertility_counter a)
    ∧ (i ∈ schedule m' ↔ 0 < energy a')
    ∧ ∀ f, prey_of cfg m p r = Some f → f ∈ schedule m ∧ f ∉ schedule m'.
Proof.
  intros Hwf Hi Ha Hp Hk.
  assert (HiS : is_Some (agents m !! i)) by eauto.
  destruct (Shark_move_and_eat_frame i m r a p Hwf Hi Ha Hp Hk)
    as (m1 & r1 & a1 & Hmv & Hwf1 & F1 & Hi1 & Ha1 & Hk1 & He1 & Hf1 & Hprey).
  assert (HiS1 : is_Some (agents m1 !! i)) by eauto.
  destruct (reproduce_frame cfg Shark i m1 _ Hwf1 Hi1 Ha1)
    as (m2 & Hrp & Hwf2 & F2 & Hi2 & Ha2).
  destruct (update_energy_frame i m2 _ (-1) Hwf2 Hi2 Ha2)
    as (m3 & Hup & Hwf3 & F3 & Hi3 & Ha3).
  destruct (death_check_frame i m3 _ Hwf3 Hi3 Ha3)
    as (m4 & a4 & Hdc & Hwf4 & F4 & Ha4 & (Hk4 & He4 & Hf4) & Hlive).
  simpl in *.
  assert (F14 : frame i m1 m4).
  { eapply frame_trans; [done| |exact F4]. eapply frame_trans; [done|exact F2|exact F3]. }
  exists m4, r1, a4. split_and!; try done.
  - unfold Shark_step. rewrite Hmv. simpl. unfold Shark_reproduce. rewrite Hrp. simpl.
    change (λ a : Agent, set_energy (energy a - 1) a)
      with (λ a : Agent, set_energy (energy a + -1) a).
    rewrite Hup. simpl. by rewrite Hdc.
  - by eapply frame_trans.
  - congruence.
  - lia.
  - congruence.
  - rewrite Hlive. lia.
  - intros f Hf. destruct (Hprey f Hf) as (Hfs & Hfn & Hle). split; [done|].
    intros Hin4. destruct (fr_sched _ _ _ F14 f Hin4) as [?|Hlt]; [done|lia].
Qed.

(** [agent.step()] on a live agent of either kind. *)
Lemma agent_step_spec i m r :
  wf m → i ∈ schedule m →
  ∃ m' r', agent_step cfg i m r = Done (m', r') ∧ wf m' ∧ frame i m m'.
Proof.
  intros Hwf Hi. destruct (wf_agent m i Hwf Hi) as (a & p & Ha & Hp & _).
  unfold agent_step, get_agent. rewrite Ha. simpl.
  destruct (kind a) eqn:Hk.
  - destruct (Fish_step_spec cfg i m r a Hwf Hi Ha) as (m' & r' & a' & Hst & Hwf' & F & _).
    eauto.
  - destruct (Shark_step_spec i m r a p Hwf Hi Ha Hp Hk)
      as (m' & r' & a' & Hst & Hwf' & F & _).
    eauto.
Qed.

End predation.

(** ** One tick *)

Lemma tick_frame_refl m : tick_frame m m.
Proof. split; [lia | auto]. Qed.

Lemma tick_frame_trans m m1 m2 : tick_frame m m1 → tick_frame m1 m2 → tick_frame m m2.
Proof.
  intros [Hi1 Hs1] [Hi2 Hs2]. split; [lia|].
  intros j Hj. destruct (Hs2 j Hj) as [Hj1|Hj1]; [by apply Hs1 | right; lia].
Qed.

Lemma frame_tick_frame i m m' : frame i m m' → tick_frame m m'.
Proof. intros F. split; [apply (fr_id _ _ _ F) | apply (fr_sched _ _ _ F)]. Qed.

Section tick.
Context `{PRNG R}.
Variable cfg : Params.

(** The walk over the activation list returns; its log is a subsequence
    of the list, and every logged id was in the roster when the walk
    began or did not exist yet. *)
Lemma activate_all_spec keys m r :
  wf m →
  ∃ m' r' log,
    activate_all cfg keys m r = Done (m', r', log)
    ∧ wf m' ∧ tick_frame m m'
    ∧ log `sublist_of` keys
    ∧ ∀ k, k ∈ log → k ∈ schedule m ∨ current_id m < k.
Proof.
  revert m r. induction keys as [|k keys IH]; intros m r Hwf; simpl.
  - exists m, r, []. split_and!; try done.
    + apply tick_frame_refl.
    + by intros k ?%elem_of_nil.
  - case_decide as Hk.
    + destruct (agent_step_spec cfg k m r Hwf Hk) as (m1 & r1 & Hst & Hwf1 & F1).
      apply frame_tick_frame in F1.
      destruct (IH m1 r1 Hwf1) as (m2 & r2 & log & Hall & Hwf2 & F2 & Hsub & Hlog).
      exists m2, r2, (k :: log). split_and!; try done.
      * rewrite Hst. simpl. by rewrite Hall.
      * by eapply tick_frame_trans.
      * by apply sublist_skip.
      * intros k' [->|Hk']%elem_of_cons; [by left|].
        destruct (Hlog k' Hk') as [Hk1|Hk1].
        -- by apply (tf_sched _ _ F1).
        -- right. pose proof (tf_id _ _ F1). lia.
    + destruct (IH m r Hwf) as (m2 & r2 & log & Hall & Hwf2 & F2 & Hsub & Hlog).
      exists m2, r2, log. split_and!; try done. by apply sublist_cons.
Qed.

(** An invariant of single activations is an invariant of the walk. *)
Lemma activate_all_invariant (P : Model → Prop) keys m r m' r' log :
  (∀ i m r m' r',
     wf m → P m → i ∈ schedule m → agent_step cfg i m r = Done (m', r') → P m') →
  wf m → P m →
  activate_all cfg keys m r = Done (m', r', log) → P m'.
Proof.
  intros Hstep. revert m r r' log.
  induction keys as [|k keys IH]; intros m r r' log Hwf HP; simpl.
  - by intros [= <- _ _].
  - case_decide as Hk; [|by apply IH].
    destruct (agent_step_spec cfg k m r Hwf Hk) as (m1 & r1 & Hst & Hwf1 & F1).
    rewrite Hst. simpl. intros Hall.
    apply bind_Done in Hall as ([[m2 r2] log2] & Hall & Hd).
    injection Hd as <- _ _. eapply (IH m1 r1); [done| |exact Hall]. eauto.
Qed.

Lemma schedule_step_spec m r :
  wf m →
  ∃ m' r' log,
    schedule_step cfg m r = Done (m', r', log)
    ∧ wf m' ∧ tick_frame m m'
    ∧ NoDup log
    ∧ ∀ k, k ∈ log → k ∈ schedule m.
Proof.
  intros Hwf. unfold schedule_step.
  pose proof (shuffle_Permutation (schedule m) r) as Hperm.
  destruct (shuffle (schedule m) r) as [keys r1]. simpl in Hperm.
  destruct (activate_all_spec keys m r1 Hwf)
    as (m' & r' & log & Hall & Hwf' & F & Hsub & Hlog).
  exists m', r', log. split_and!; try done.
  - apply (sublist_NoDup log keys); [|done]. rewrite Hperm. apply Hwf.
  - intros k Hk. rewrite <- Hperm. by eapply elem_of_sublist.
Qed.

Lemma schedule_step_invariant (P : Model → Prop) m r m' r' log :
  (∀ i m r m' r',
     wf m → P m → i ∈ schedule m → agent_step cfg i m r = Done (m', r') → P m') →
  wf m → P m →
  schedule_step cfg m r = Done (m', r', log) → P m'.
Proof.
  intros Hstep Hwf HP. unfold schedule_step.
  destruct (shuffle (schedule m) r) as [keys r1].
  by apply activate_all_invariant.
Qed.

End tick.

(** ** Seeding *)

Section seeding.
Context `{PRNG R}.
Variable cfg : Params.

Lemma elem_of_cells p :
  p ∈ cells cfg ↔ (0 ≤ p.1 < width cfg) ∧ (0 ≤ p.2 < height cfg).
Proof.
  unfold cells. rewrite list_elem_of_bind. destruct p as [x y]. simpl. split.
  - intros (x' & Hy & Hx). apply list_elem_of_fmap in Hy as (y' & [= -> ->] & Hy).
    apply elem_of_seqZ in Hx, Hy. lia.
  - intros [Hx Hy]. exists x. split.
    + apply list_elem_of_fmap. exists y. split; [done|]. apply elem_of_seqZ. lia.
    + apply elem_of_seqZ. lia.
Qed.

Lemma NoDup_cells : NoDup (cells cfg).
Proof.
  unfold cells. apply NoDup_bind.
  - intros x1 x2 p _ _ Hp1 Hp2.
    apply list_elem_of_fmap in Hp1 as (y1 & -> & _).
    by apply list_elem_of_fmap in Hp2 as (y2 & [= -> _] & _).
  - intros x _. apply NoDup_fmap_2; [|apply NoDup_seqZ]. by intros y1 y2 [= ->].
  - apply NoDup_seqZ.
Qed.

Lemma length_cells :
  length (cells cfg) = (Z.to_nat (width cfg) * Z.to_nat (height cfg))%nat.
Proof.
  unfold cells. generalize (seqZ 0 (width cfg)) (length_seqZ 0 (width cfg)).
  intros l <-. induction l as [|x l IH]; [done|].
  rewrite bind_cons, length_app, length_fmap, length_seqZ.
  etrans; [apply f_equal, IH|]. cbn [length]. lia.
Qed.

Lemma draw_cell_in_range r :
  0 < width cfg → 0 < height cfg → (draw_cell cfg r).1 ∈ cells cfg.
Proof.
  intros HW HH. unfold draw_cell.
  pose proof (randbelow_range (width cfg) r HW) as Hx.
  destruct (randbelow (width cfg) r) as [x r1].
  pose proof (randbelow_range (height cfg) r1 HH) as Hy.
  destruct (randbelow (height cfg) r1) as [y r2].
  apply elem_of_cells. simpl in *. lia.
Qed.

(** The loop of [find_empty_cell], one sampling at a time. *)
Lemma find_empty_cell_0 m r :
  0 < width cfg → 0 < height cfg → find_empty_cell cfg 0 m r = Timeout.
Proof.
  intros HW HH. unfold find_empty_cell, randrange. rewrite decide_True by done.
  simpl. destruct (randbelow (width cfg) r) as [x r1]. simpl.
  rewrite decide_True by done. simpl.
  by destruct (randbelow (height cfg) r1) as [y r2].
Qed.

Lemma find_empty_cell_S fuel m r :
  0 < width cfg → 0 < height cfg →
  find_empty_cell cfg (S fuel) m r =
    if World.is_cell_empty m (draw_cell cfg r).1 then Done (draw_cell cfg r)
    else find_empty_cell cfg fuel m (draw_cell cfg r).2.
Proof.
  intros HW HH. unfold find_empty_cell, draw_cell, randrange.
  rewrite decide_True by done. simpl.
  destruct (randbelow (width cfg) r) as [x r1]. simpl.
  rewrite decide_True by done. simpl.
  destruct (randbelow (height cfg) r1) as [y r2]. simpl.
  destruct (World.is_cell_empty m (x, y)); [done|].
  unfold randrange. rewrite decide_True by done. simpl.
  destruct (randbelow (width cfg) r2) as [x' r3]. simpl.
  rewrite decide_True by done. simpl. done.
Qed.

Lemma find_empty_cell_sound fuel m r p r' :
  0 < width cfg → 0 < height cfg →
  find_empty_cell cfg fuel m r = Done (p, r') →
  World.occupants m p = [] ∧ p ∈ cells cfg.
Proof.
  intros HW HH. revert r. induction fuel as [|fuel IH]; intros r.
  - by rewrite find_empty_cell_0.
  - rewrite find_empty_cell_S by done.
    destruct (World.is_cell_empty m (draw_cell cfg r).1) eqn:He; [|apply IH].
    intros [= Hd]. pose proof (draw_cell_in_range r HW HH) as Hin.
    apply is_cell_empty_true in He. rewrite Hd in He, Hin. done.
Qed.

Lemma find_empty_cell_no_raise fuel m r :
  0 < width cfg → 0 < height cfg → find_empty_cell cfg fuel m r ≠ Raise.
Proof.
  intros HW HH. revert r. induction fuel as [|fuel IH]; intros r.
  - by rewrite find_empty_cell_0.
  - rewrite find_empty_cell_S by done.
    destruct (World.is_cell_empty m (draw_cell cfg r).1); [done | apply IH].
Qed.

Lemma find_empty_cell_mono fuel fuel' m r x :
  0 < width cfg → 0 < height cfg → (fuel ≤ fuel')%nat →
  find_empty_cell cfg fuel m r = Done x → find_empty_cell cfg fuel' m r = Done x.
Proof.
  intros HW HH. revert fuel' r. induction fuel as [|fuel IH]; intros fuel' r Hle.
  - by rewrite find_empty_cell_0.
  - destruct fuel' as [|fuel']; [lia|].
    rewrite !find_empty_cell_S by done.
    destruct (World.is_cell_empty m (draw_cell cfg r).1); [done|].
    apply IH. lia.
Qed.

End seeding.

(** ** Counting occupied cells *)

Lemma filter_ext_in {A} (P Q : A → Prop)
    `{∀ x, Decision (P x)} `{∀ x, Decision (Q x)} (l : list A) :
  (∀ x, x ∈ l → P x ↔ Q x) → filter P l = filter Q l.
Proof.
  induction l as [|y l IH]; intros HPQ; [done|].
  rewrite !filter_cons.
  assert (Hy : P y ↔ Q y) by (apply HPQ; by left).
  rewrite IH by (intros x Hx; apply HPQ; by right).
  destruct (decide (P y)), (decide (Q y)); tauto.
Qed.

Lemma filter_none {A} (P : A → Prop) `{∀ x, Decision (P x)} (l : list A) :
  (∀ x, ¬ P x) → filter P l = [].
Proof.
  intros HP. induction l as [|y l IH]; [done|].
  rewrite filter_cons, decide_False; auto.
Qed.

Lemma length_filter_add {A} (P Q : A → Prop)
    `{∀ x, Decision (P x)} `{∀ x, Decision (Q x)} (l : list A) (p : A) :
  NoDup l → p ∈ l → ¬ P p → (∀ x, Q x ↔ P x ∨ x = p) →
  length (filter Q l) = S (length (filter P l)).
Proof.
  intros Hnd Hp HPp HQ. induction Hnd as [|y l Hy Hnd IH].
  - by apply elem_of_nil in Hp.
  - rewrite !filter_cons. apply elem_of_cons in Hp as [<-|Hp].
    + rewrite decide_True by (apply HQ; by right).
      rewrite decide_False by done. simpl. f_equal.
      f_equal. apply filter_ext_in. intros x Hx. rewrite HQ.
      split; [|by left]. intros [?| ->]; done.
    + specialize (IH Hp). destruct (decide (P y)) as [HPy|HPy].
      * rewrite decide_True by (apply HQ; by left). simpl. by rewrite IH.
      * rewrite decide_False; [done|]. rewrite HQ. intros [?| ->]; done.
Qed.

Lemma filter_lt_exists {A} (P : A → Prop) `{∀ x, Decision (P x)} (l : list A) :
  (length (filter P l) < length l)%nat → ∃ x, x ∈ l ∧ ¬ P x.
Proof.
  induction l as [|y l IH]; simpl; [lia|].
  rewrite filter_cons. destruct (decide (P y)) as [HPy|HPy].
  - simpl. intros Hlt. destruct IH as (x & Hx & HPx); [lia|].
    exists x. split; [by right | done].
  - intros _. exists y. split; [by left | done].
Qed.

Section seeding_invariant.
Context `{PRNG R}.
Variable cfg : Params.
Hypothesis width_pos : 0 < width cfg.
Hypothesis height_pos : 0 < height cfg.

Lemma seeded_empty_model : seeded cfg empty_model.
Proof.
  assert (Ho : ∀ p, World.occupants empty_model p = []).
  { intros p. unfold World.occupants. simpl. by rewrite lookup_empty. }
  split.
  - apply wf_empty_model.
  - intros p. by rewrite Ho.
  - intros p. rewrite Ho. simpl. lia.
  - unfold occupied. rewrite filter_none; [done|]. intros p Hne. by rewrite Ho in Hne.
Qed.

Lemma seeded_capacity m : seeded cfg m → (length (schedule m) ≤ length (cells cfg))%nat.
Proof. intros Hs. rewrite (sd_count cfg m Hs). apply length_filter. Qed.

(** One seeding iteration succeeds exactly when the search for an empty
    cell does; the new agent then stands alone on the cell found. *)
Lemma seed_one_Done fuel k m r p r1 :
  seeded cfg m → find_empty_cell cfg fuel m r = Done (p, r1) →
  ∃ m',
    seed_one cfg fuel k m r = Done (m', r1)
    ∧ seeded cfg m'
    ∧ World.occupants m p = [] ∧ p ∈ cells cfg
    ∧ schedule m' = schedule m ++ [current_id m + 1]
    ∧ agents m' = <[current_id m + 1 := mkAgent k (initial_energy cfg k) 0 (Some p)]> (agents m)
    ∧ ∀ x, World.occupants m' x =
           World.occupants m x ++ (if decide (x = p) then [current_id m + 1] else []).
Proof.
  intros Hs Hfind.
  destruct (find_empty_cell_sound cfg fuel m r p r1 width_pos height_pos Hfind)
    as [Hempty Hin].
  destruct (spawn_spec m k (initial_energy cfg k) p (sd_wf cfg m Hs))
    as (m1 & m' & Hplace & Hadd & Hwf' & Hsch & Hc & Hag & Ho).
  exists m'. split_and!; try done.
  - unfold seed_one. rewrite Hfind. simpl. simpl in Hplace. rewrite Hplace. simpl.
    by rewrite Hadd.
  - split; [done| | |].
    + intros x. rewrite Ho. case_decide as Hx; [by subst|].
      rewrite app_nil_r. apply (sd_range cfg m Hs).
    + intros x. rewrite Ho. case_decide as Hx.
      * subst x. by rewrite Hempty.
      * rewrite app_nil_r. apply (sd_single cfg m Hs).
    + rewrite Hsch, length_app, (sd_count cfg m Hs). simpl. unfold occupied.
      rewrite (length_filter_add (λ p, World.occupants m p ≠ [])
                 (λ p, World.occupants m' p ≠ []) (cells cfg) p).
      * lia.
      * apply NoDup_cells.
      * done.
      * intros Hn. by rewrite Hempty in Hn.
      * intros x. rewrite Ho. case_decide as Hx.
        -- subst x. rewrite Hempty. simpl. split; [by right | done].
        -- rewrite app_nil_r. split; [by left | by intros [?|?]].
Qed.

Lemma seed_one_inv fuel k m r m' r' :
  seeded cfg m → seed_one cfg fuel k m r = Done (m', r') →
  ∃ p,
    find_empty_cell cfg fuel m r = Done (p, r')
    ∧ seeded cfg m'
    ∧ World.occupants m p = [] ∧ p ∈ cells cfg
    ∧ schedule m' = schedule m ++ [current_id m + 1]
    ∧ agents m' = <[current_id m + 1 := mkAgent k (initial_energy cfg k) 0 (Some p)]> (agents m)
    ∧ ∀ x, World.occupants m' x =
           World.occupants m x ++ (if decide (x = p) then [current_id m + 1] else []).
Proof.
  intros Hs Hseed.
  destruct (find_empty_cell cfg fuel m r) as [[p r1]| |] eqn:Hfind.
  - destruct (seed_one_Done fuel k m r p r1 Hs Hfind) as (m1 & Hseed1 & Hrest).
    rewrite Hseed1 in Hseed. injection Hseed as <- <-. by exists p.
  - unfold seed_one in Hseed. by rewrite Hfind in Hseed.
  - unfold seed_one in Hseed. by rewrite Hfind in Hseed.
Qed.

Lemma seed_one_no_raise fuel k m r :
  seeded cfg m → seed_one cfg fuel k m r ≠ Raise.
Proof.
  intros Hs. destruct (find_empty_cell cfg fuel m r) as [[p r1]| |] eqn:Hfind.
  - destruct (seed_one_Done fuel k m r p r1 Hs Hfind) as (m1 & -> & _). done.
  - by apply find_empty_cell_no_raise in Hfind.
  - unfold seed_one. by rewrite Hfind.
Qed.

(** The seeding loop: when it returns, [n] more agents stand alone on
    cells of the grid. *)
Lemma seed_agents_sound fuel k n m r m' r' :
  seeded cfg m → seed_agents cfg fuel k n m r = Done (m', r') →
  seeded cfg m' ∧ length (schedule m') = (length (schedule m) + n)%nat.
Proof.
  revert m r. induction n as [|n IH]; intros m r Hs; simpl.
  - intros [= <- <-]. split; [done | lia].
  - intros Hseed. apply bind_Done in Hseed as ([m1 r1] & H1 & Hseed).
    destruct (seed_one_inv fuel k m r m1 r1 Hs H1) as (p & _ & Hs1 & _ & _ & Hsch & _).
    destruct (IH m1 r1 Hs1 Hseed) as [Hs' Hlen]. split; [done|].
    rewrite Hlen, Hsch, length_app. simpl. lia.
Qed.

Lemma seed_agents_no_raise fuel k n m r :
  seeded cfg m → seed_agents cfg fuel k n m r ≠ Raise.
Proof.
  revert m r. induction n as [|n IH]; intros m r Hs; simpl; [done|].
  destruct (seed_one cfg fuel k m r) as [[m1 r1]| |] eqn:H1; simpl.
  - apply IH. by destruct (seed_one_inv fuel k m r m1 r1 Hs H1) as (p & _ & Hs1 & _).
  - by apply seed_one_no_raise in H1.
  - done.
Qed.

Lemma seed_one_mono fuel fuel' k m r x :
  (fuel ≤ fuel')%nat →
  seed_one cfg fuel k m r = Done x → seed_one cfg fuel' k m r = Done x.
Proof.
  intros Hle. unfold seed_one. intros Hseed.
  apply bind_Done in Hseed as ([p r1] & Hfind & Hseed).
  apply (find_empty_cell_mono cfg fuel fuel') in Hfind; [|done..].
  by rewrite Hfind.
Qed.

Lemma seed_agents_mono fuel fuel' k n m r x :
  (fuel ≤ fuel')%nat →
  seed_agents cfg fuel k n m r = Done x → seed_agents cfg fuel' k n m r = Done x.
Proof.
  intros Hle. revert m r. induction n as [|n IH]; intros m r; simpl; [done|].
  intros Hseed. apply bind_Done in Hseed as ([m1 r1] & H1 & Hseed).
  apply (seed_one_mono fuel fuel') in H1; [|done].
  rewrite H1. simpl. by apply IH.
Qed.

(** What one seeding iteration, and the loop, do to ids, roster and cells. *)
Lemma seed_one_layout fuel k m r m' r' :
  seeded cfg m → seed_one cfg fuel k m r = Done (m', r') →
  ∃ p,
    find_empty_cell cfg fuel m r = Done (p, r')
    ∧ seeded cfg m'
    ∧ World.occupants m p = [] ∧ p ∈ cells cfg
    ∧ current_id m' = current_id m + 1
    ∧ schedule m' = schedule m ++ [current_id m + 1]
    ∧ agents m' = <[current_id m + 1 := mkAgent k (initial_energy cfg k) 0 (Some p)]> (agents m)
    ∧ ∀ x, World.occupants m' x =
           World.occupants m x ++ (if decide (x = p) then [current_id m + 1] else []).
Proof.
  intros Hs Hseed.
  destruct (seed_one_inv fuel k m r m' r' Hs Hseed)
    as (p & Hfind & Hs' & Hempty & Hin & Hsch & Hag & Ho).
  exists p. split_and!; try done.
  destruct (spawn_spec m k (initial_energy cfg k) p (sd_wf cfg m Hs))
    as (m1 & m2 & Hplace & Hadd & _ & _ & Hc & _).
  unfold seed_one in Hseed. rewrite Hfind in Hseed. simpl in Hseed, Hplace.
  rewrite Hplace in Hseed. simpl in Hseed. rewrite Hadd in Hseed.
  injection Hseed as <-. exact Hc.
Qed.

(** The seeding loop hands out the next [n] ids in order. *)
Lemma seed_agents_layout fuel k n m r m' r' :
  seeded cfg m → seed_agents cfg fuel k n m r = Done (m', r') →
  seeded cfg m'
  ∧ current_id m' = current_id m + Z.of_nat n
  ∧ schedule m' = schedule m ++ seqZ (current_id m + 1) (Z.of_nat n)
  ∧ (∀ j, j ≤ current_id m → agents m' !! j = agents m !! j)
  ∧ (∀ x, World.occupants m x ≠ [] → World.occupants m' x = World.occupants m x)
  ∧ (∀ j, current_id m < j ≤ current_id m + Z.of_nat n →
          ∃ p, agents m' !! j = Some (mkAgent k (initial_energy cfg k) 0 (Some p))
               ∧ p ∈ cells cfg ∧ World.occupants m' p = [j]).
Proof.
  revert m r. induction n as [|n IH]; intros m r Hs; simpl.
  - intros [= <- _]. split_and!; try done.
    + lia.
    + by rewrite app_nil_r.
    + intros j Hj. lia.
  - intros Hseed. apply bind_Done in Hseed as ([m1 r1] & H1 & Hseed).
    destruct (seed_one_layout fuel k m r m1 r1 Hs H1)
      as (p & _ & Hs1 & Hempty & Hin & Hc1 & Hsch1 & Hag1 & Ho1).
    destruct (IH m1 r1 Hs1 Hseed) as (Hs' & Hc' & Hsch' & Hold' & Hocc' & Hnew').
    split_and!; try done.
    + lia.
    + rewrite Hsch', Hsch1, Hc1, <- app_assoc. f_equal.
      rewrite (seqZ_cons (current_id m + 1)) by lia. simpl. f_equal. f_equal; lia.
    + intros j Hj. rewrite Hold' by lia. rewrite Hag1, lookup_insert_ne by lia. done.
    + intros x Hx. rewrite Hocc'.
      * rewrite Ho1. case_decide as Hxp; [by subst | by rewrite app_nil_r].
      * rewrite Ho1. by destruct (World.occupants m x).
    + intros j Hj. destruct (decide (j = current_id m + 1)) as [->|Hne].
      * exists p. rewrite Hold' by lia. rewrite Hag1, lookup_insert_eq.
        split_and!; try done.
        rewrite Hocc'; rewrite Ho1, Hempty, decide_True by done; done.
      * apply Hnew'. lia.
Qed.

End seeding_invariant.

(** ** Seeding terminates on a fair random source *)

Section fairness.
Context `{PRNG R}.
Variable cfg : Params.
Hypothesis width_pos : 0 < width cfg.
Hypothesis height_pos : 0 < height cfg.

Lemma after_draws_add a b r :
  after_draws cfg (a + b) r = after_draws cfg b (after_draws cfg a r).
Proof. revert r. induction a as [|a IH]; intros r; simpl; [done | apply IH]. Qed.

Lemma after_draws_S k r :
  after_draws cfg (S k) r = (draw_cell cfg (after_draws cfg k r)).2.
Proof.
  replace (S k) with (k + 1)%nat by lia. by rewrite after_draws_add.
Qed.

(** If the sampling number [j] from now hits an empty cell, the search
    returns at that sampling or before. *)
Lemma find_empty_cell_hits m r j :
  World.occupants m (draw_cell cfg (after_draws cfg j r)).1 = [] →
  ∃ j', (j' ≤ j)%nat
        ∧ find_empty_cell cfg (S j') m r = Done (draw_cell cfg (after_draws cfg j' r)).
Proof.
  revert r. induction j as [|j IH]; intros r Hempty.
  - exists O. split; [lia|]. rewrite find_empty_cell_S by done.
    simpl in *. apply is_cell_empty_true in Hempty. by rewrite Hempty.
  - destruct (World.is_cell_empty m (draw_cell cfg r).1) eqn:He.
    + exists O. split; [lia|]. rewrite find_empty_cell_S by done. by rewrite He.
    + destruct (IH (draw_cell cfg r).2 Hempty) as (j' & Hle & Hfind).
      exists (S j'). split; [lia|].
      rewrite find_empty_cell_S by done. by rewrite He.
Qed.

Lemma seed_one_terminates k m r0 n :
  fair cfg r0 → seeded cfg m → (length (schedule m) < length (cells cfg))%nat →
  ∃ fuel m' n', seed_one cfg fuel k m (after_draws cfg n r0) = Done (m', after_draws cfg n' r0).
Proof.
  intros Hfair Hs Hlt.
  rewrite (sd_count cfg m Hs) in Hlt.
  apply filter_lt_exists in Hlt as (p & Hp & Hempty).
  assert (Hocc : World.occupants m p = []).
  { destruct (World.occupants m p); [done | by destruct Hempty]. }
  destruct (Hfair n p Hp) as (j & Hj).
  rewrite after_draws_add in Hj.
  destruct (find_empty_cell_hits m (after_draws cfg n r0) j) as (j' & Hle & Hfind).
  { by rewrite Hj. }
  destruct (draw_cell cfg (after_draws cfg j' (after_draws cfg n r0))) as [q r1] eqn:Hd.
  destruct (seed_one_Done cfg width_pos height_pos (S j') k m _ q r1 Hs Hfind)
    as (m' & Hseed & _).
  exists (S j'), m', (S (n + j')). rewrite Hseed. do 2 f_equal.
  rewrite after_draws_S, after_draws_add, Hd. done.
Qed.

Lemma seed_agents_terminates k c m r0 n :
  fair cfg r0 → seeded cfg m →
  (length (schedule m) + c ≤ length (cells cfg))%nat →
  ∃ fuel m' n', seed_agents cfg fuel k c m (after_draws cfg n r0) = Done (m', after_draws cfg n' r0).
Proof.
  intros Hfair. revert m n. induction c as [|c IH]; intros m n Hs Hle.
  - exists O, m, n. done.
  - destruct (seed_one_terminates k m r0 n Hfair Hs) as (f1 & m1 & n1 & H1); [lia|].
    destruct (seed_one_inv cfg width_pos height_pos f1 k m _ m1 _ Hs H1)
      as (p & _ & Hs1 & _ & _ & Hsch & _).
    destruct (IH m1 n1 Hs1) as (f2 & m2 & n2 & H2).
    { rewrite Hsch, length_app. simpl. lia. }
    exists (f1 `max` f2)%nat, m2, n2. simpl.
    rewrite (seed_one_mono cfg width_pos height_pos f1 (f1 `max` f2) k m _ _ ltac:(lia) H1).
    simpl. apply (seed_agents_mono cfg width_pos height_pos f2); [lia | done].
Qed.

End fairness.

(** ** Reachable models *)

Section reachable.
Context `{PRNG R}.
Variable cfg : Params.

Lemma init_seeded fuel r m r' :
  0 < width cfg → 0 < height cfg →
  init cfg fuel r = Done (m, r') →
  seeded cfg m ∧ length (schedule m) = (N_fish cfg + N_sharks cfg)%nat.
Proof.
  intros HW HH Hinit. unfold init in Hinit.
  apply bind_Done in Hinit as ([m1 r1] & Hf & Hs).
  destruct (seed_agents_sound cfg HW HH _ _ _ _ _ _ _ (seeded_empty_model cfg) Hf)
    as [Hs1 Hl1].
  destruct (seed_agents_sound cfg HW HH _ _ _ _ _ _ _ Hs1 Hs) as [Hs2 Hl2].
  split; [done|]. rewrite Hl2, Hl1. done.
Qed.

Lemma init_wf fuel r m r' :
  0 < width cfg → 0 < height cfg → init cfg fuel r = Done (m, r') → wf m.
Proof.
  intros HW HH Hinit.
  destruct (init_seeded fuel r m r' HW HH Hinit) as [Hs _]. apply Hs.
Qed.



Lemma activations_app m log1 m1 log2 m2 :
  activations cfg m log1 m1 → activations cfg m1 log2 m2 → activations cfg m (log1 ++ log2) m2.
Proof.
  induction 1 as [|m i r m1 r1 log m1' Hi Hst Hact IH]; intros H2; [done|].
  simpl. eapply activations_cons; eauto.
Qed.

Lemma activations_wf m log m' : wf m → activations cfg m log m' → wf m'.
Proof.
  intros Hwf Hact. induction Hact as [|m i r m1 r1 log m2 Hi Hst Hact IH]; [done|].
  apply IH. destruct (agent_step_spec cfg i m r Hwf Hi) as (m1' & r1' & Hst' & Hwf1 & _).
  rewrite Hst' in Hst. by injection Hst as <- _.
Qed.

Lemma activations_tick_frame m log m' :
  wf m → activations cfg m log m' → tick_frame m m'.
Proof.
  intros Hwf Hact. induction Hact as [|m i r m1 r1 log m2 Hi Hst Hact IH].
  - apply tick_frame_refl.
  - destruct (agent_step_spec cfg i m r Hwf Hi) as (m1' & r1' & Hst' & Hwf1 & F).
    rewrite Hst' in Hst. injection Hst as <- _.
    eapply tick_frame_trans; [by eapply frame_tick_frame | by apply IH].
Qed.

(** The walk of a tick is such a sequence, and its log lists it. *)
Lemma activate_all_activations keys m r m' r' log :
  activate_all cfg keys m r = Done (m', r', log) → activations cfg m log m'.
Proof.
  revert m r log. induction keys as [|k keys IH]; intros m r log; simpl.
  - intros [= <- _ <-]. constructor.
  - case_decide as Hk; [|apply IH].
    intros Hall. apply bind_Done in Hall as ([m1 r1] & Hst & Hall).
    apply bind_Done in Hall as ([[m2 r2] log2] & Hall & Hd).
    injection Hd as <- <- <-.
    apply (activations_cons cfg m k r m1 r1); [done..|]. by eapply IH.
Qed.

Lemma model_step_activations m r rows m' r' rows' log :
  model_step cfg m r rows = Done (m', r', rows', log) →
  activations cfg m log m' ∧ rows' = rows ++ [get_grid cfg m].
Proof.
  unfold model_step, schedule_step. intros Hst.
  apply bind_Done in Hst as ([[m1 r1] log1] & Hss & Hd).
  injection Hd as <- _ <- <-. split; [|done].
  destruct (shuffle (schedule m) r) as [keys r0].
  by eapply activate_all_activations.
Qed.

Lemma iterate_activations n m r rows m' r' rows' :
  iterate cfg n m r rows = Done (m', r', rows') → ∃ log, activations cfg m log m'.
Proof.
  revert m r rows. induction n as [|n IH]; intros m r rows; simpl.
  - intros [= <- _ _]. exists []. constructor.
  - intros Hit. apply bind_Done in Hit as ([[[m1 r1] rows1] log1] & Hst & Hit).
    apply model_step_activations in Hst as [Hact _].
    destruct (IH _ _ _ Hit) as (log & Hact').
    exists (log1 ++ log). by eapply activations_app.
Qed.


(** An invariant of single activations holds along any such sequence. *)
Lemma activations_invariant (P : Model → Prop) m log m' :
  (∀ i m r m' r',
     wf m → P m → i ∈ schedule m → agent_step cfg i m r = Done (m', r') → P m') →
  wf m → P m → activations cfg m log m' → P m'.
Proof.
  intros Hstep Hwf HP Hact.
  induction Hact as [|m i r m1 r1 log m2 Hi Hst Hact IH]; [done|].
  apply IH.
  - eapply activations_wf; [done|].
    eapply activations_cons; [done..|constructor].
  - eauto.
Qed.

(** The tick of the model returns on every well-formed model. *)
Lemma model_step_Done m r rows :
  wf m →
  ∃ m' r' log,
    model_step cfg m r rows = Done (m', r', rows ++ [get_grid cfg m], log) ∧ wf m'.
Proof.
  intros Hwf. destruct (schedule_step_spec cfg m r Hwf)
    as (m' & r' & log & Hss & Hwf' & _).
  exists m', r', log. split; [|done]. unfold model_step. by rewrite Hss.
Qed.

Lemma iterate_Done n m r rows :
  wf m → ∃ m' r' rows', iterate cfg n m r rows = Done (m', r', rows') ∧ wf m'.
Proof.
  revert m r rows. induction n as [|n IH]; intros m r rows Hwf; simpl.
  - by exists m, r, rows.
  - destruct (model_step_Done m r rows Hwf) as (m1 & r1 & log & Hst & Hwf1).
    rewrite Hst. simpl. by apply IH.
Qed.

End reachable.

(** ** The scenarios are well-formed *)

Module ScenarioFacts.
Import Scenario.

Lemma init_seeded_model : init cfg 9 (sweep_from 0) = Done (seeded_model, seeded_source).
Proof. vm_compute. reflexivity. Qed.

Lemma wf_seeded_model : wf seeded_model.
Proof. apply (init_wf cfg 9 (sweep_from 0) _ seeded_source); [done..|apply init_seeded_model]. Qed.

Lemma step_after_fish :
  agent_step cfg 2 seeded_model seeded_source = Done (after_fish, after_fish_source).
Proof. vm_compute. reflexivity. Qed.

Lemma wf_after_fish : wf after_fish.
Proof.
  apply (activations_wf (R := Sweep) cfg seeded_model [2]); [apply wf_seeded_model|].
  eapply activations_cons; [|apply step_after_fish|constructor].
  vm_compute. set_solver.
Qed.

Lemma step_after_shark :
  agent_step cfg 3 after_fish (sweep_from 0) = Done (after_shark, after_shark_source).
Proof. vm_compute. reflexivity. Qed.

Lemma wf_after_shark : wf after_shark.
Proof.
  apply (activations_wf (R := Sweep) cfg after_fish [3]); [apply wf_after_fish|].
  eapply activations_cons; [|apply step_after_shark|constructor].
  vm_compute. set_solver.
Qed.

End ScenarioFacts.

(** * The claims *)

Section claim_energy.
Context `{PRNG R}.
Variable cfg : Params.

(** C1.  The activation of a live agent returns, and the energy of the
    agent afterwards is its energy before minus 1, plus the configured
    [shark_energy_from_fish] when the agent is a shark whose
    [move_and_eat] ate a fish. *)
Theorem C1_energy_per_activation i m r a :
  wf m → i ∈ schedule m → agents m !! i = Some a →
  ∃ m' r' a',
    agent_step cfg i m r = Done (m', r')
    ∧ agents m' !! i = Some a'
    ∧ energy a' =
        energy a - 1 + (if eats cfg m a then shark_energy_from_fish cfg else 0).
Proof.
  intros Hwf Hi Ha.
  destruct (wf_agent m i Hwf Hi) as (a0 & p & Ha0 & Hp & _).
  assert (a0 = a) as -> by congruence.
  unfold agent_step, get_agent, eats. rewrite Ha, Hp. simpl.
  destruct (kind a) eqn:Hk.
  - destruct (Fish_step_spec cfg i m r a Hwf Hi Ha)
      as (m' & r' & a' & Hst & _ & _ & Ha' & _ & He & _).
    exists m', r', a'. split_and!; [done..|lia].
  - destruct (Shark_step_spec cfg i m r a p Hwf Hi Ha Hp Hk)
      as (m' & r' & a' & Hst & _ & _ & Ha' & _ & He & _).
    exists m', r', a'. split_and!; [done..|].
    rewrite He. unfold gained.
    destruct (fish_positions m (World.get_neighborhood cfg p true)) eqn:Hf.
    + rewrite bool_decide_eq_false_2 by (intros Hn; by apply Hn). lia.
    + rewrite bool_decide_eq_true_2 by done. lia.
Qed.

End claim_energy.

(** The shark of the scenario eats on its activation: its energy goes from 2
    to 2 - 1 + 4. *)
Lemma C1_energy_per_activation_witness :
  ∃ m' r' a',
    agent_step Scenario.cfg 3 Scenario.seeded_model Scenario.seeded_source = Done (m', r')
    ∧ agents m' !! 3 = Some a'
    ∧ energy a' = 2 - 1 + 4.
Proof.
  apply (C1_energy_per_activation Scenario.cfg 3 Scenario.seeded_model
           Scenario.seeded_source (mkAgent Shark 2 0 (Some (2, 0)))).
  - apply ScenarioFacts.wf_seeded_model.
  - vm_compute. set_solver.
  - vm_compute. reflexivity.
Defined.

Section claim_reproduction.
Variable cfg : Params.

(** C2.  When the incremented fertility counter of a live agent reaches the
    threshold of its variant, [reproduce] returns and has created exactly
    one object: an agent of the same variant under the fresh id
    [current_id + 1], with the variant's initial energy and fertility
    counter 0.  The offspring is appended to the occupants of the parent's
    cell, which already holds the parent, and to the roster; the parent's
    counter is 0 afterwards; nothing else changes. *)
Theorem C2_reproduction i m a p :
  wf m → i ∈ schedule m → agents m !! i = Some a → pos a = Some p →
  fertility_threshold cfg (kind a) ≤ fertility_counter a + 1 →
  let uid := current_id m + 1 in
  ∃ m',
    match kind a with
    | Fish => Fish_reproduce cfg i m
    | Shark => Shark_reproduce cfg i m
    end = Done m'
    ∧ agents m !! uid = None ∧ (uid ∉ schedule m)
    ∧ agents m' !! uid
      = Some (mkAgent (kind a) (initial_energy cfg (kind a)) 0 (Some p))
    ∧ schedule m' = schedule m ++ [uid]
    ∧ i ∈ World.occupants m p
    ∧ World.occupants m' p = World.occupants m p ++ [uid]
    ∧ agents m' !! i = Some (set_fertility_counter 0 a)
    ∧ (∀ j, j ≠ i → j ≠ uid → agents m' !! j = agents m !! j)
    ∧ (∀ x, x ≠ p → World.occupants m' x = World.occupants m x).
Proof.
  intros Hwf Hi Ha Hp Hge uid.
  destruct (reproduce_reached cfg (kind a) i m a p Hwf Ha Hp Hge)
    as (m' & Hr & Hwf' & Hs & Hc & Hag & Ho).
  assert (Hne : i ≠ uid).
  { unfold uid. intros ->. by rewrite (wf_fresh m Hwf) in Ha. }
  exists m'. split_and!.
  - unfold Fish_reproduce, Shark_reproduce. by destruct (kind a).
  - by apply wf_fresh.
  - by apply wf_fresh_schedule.
  - by rewrite Hag, lookup_insert_ne, lookup_insert_eq.
  - done.
  - destruct (wf_agent m i Hwf Hi) as (a0 & p0 & Ha0 & Hp0 & Hin). congruence.
  - by rewrite Ho, decide_True.
  - by rewrite Hag, lookup_insert_eq.
  - intros j Hji Hju. by rewrite Hag, !lookup_insert_ne.
  - intros x Hx. by rewrite Ho, decide_False, app_nil_r.
Qed.

End claim_reproduction.

(** Fish 2 of the scenario reproduces on the cell it stands on. *)
Lemma C2_reproduction_witness :
  ∃ m',
    Fish_reproduce Scenario.cfg 2 Scenario.seeded_model = Done m'
    ∧ agents Scenario.seeded_model !! 4 = None ∧ (4 ∉ schedule Scenario.seeded_model)
    ∧ agents m' !! 4 = Some (mkAgent Fish 3 0 (Some (1, 0)))
    ∧ schedule m' = [1; 2; 3; 4]
    ∧ 2 ∈ World.occupants Scenario.seeded_model (1, 0)
    ∧ World.occupants m' (1, 0) = [2; 4]
    ∧ agents m' !! 2 = Some (mkAgent Fish 3 0 (Some (1, 0)))
    ∧ (∀ j, j ≠ 2 → j ≠ 4 → agents m' !! j = agents Scenario.seeded_model !! j)
    ∧ (∀ x, x ≠ (1, 0) → World.occupants m' x = World.occupants Scenario.seeded_model x).
Proof.
  apply (C2_reproduction Scenario.cfg 2 Scenario.seeded_model
           (mkAgent Fish 3 0 (Some (1, 0))) (1, 0)).
  - apply ScenarioFacts.wf_seeded_model.
  - vm_compute. set_solver.
  - vm_compute. reflexivity.
  - reflexivity.
  - vm_compute. discriminate.
Defined.

Section claim_fish_move.
Context `{PRNG R}.
Variable cfg : Params.

(** C6.  [Fish.move] of a live fish standing on [p] looks at the four
    orthogonal neighbours of [p], wrapped modulo width and height, and keeps
    those without occupants.  When none is left the model and the random
    source are returned unchanged.  Otherwise the fish moves to the
    candidate whose index is one draw below the number of candidates: it is
    then the only occupant of that cell and has left its old one. *)
Theorem C6_fish_move i m r a p :
  wf m → i ∈ schedule m → agents m !! i = Some a → pos a = Some p →
  let possible_steps := World.get_neighborhood cfg p false in
  let candidates := empty_steps m possible_steps in
  possible_steps =
    [((p.1 - 1) `mod` width cfg, p.2 `mod` height cfg);
     (p.1 `mod` width cfg, (p.2 - 1) `mod` height cfg);
     (p.1 `mod` width cfg, (p.2 + 1) `mod` height cfg);
     ((p.1 + 1) `mod` width cfg, p.2 `mod` height cfg)]
  ∧ (∀ q, q ∈ candidates ↔ q ∈ possible_steps ∧ World.occupants m q = [])
  ∧ match candidates with
    | [] => Fish_move cfg i m r = Done (m, r)
    | _ =>
        let draw := randbelow (Z.of_nat (length candidates)) r in
        ∃ q m',
          candidates !! Z.to_nat draw.1 = Some q
          ∧ Fish_move cfg i m r = Done (m', draw.2)
          ∧ pos_of m' i = Some q
          ∧ World.occupants m' q = [i]
          ∧ (∀ x, x ≠ q → World.occupants m' x = remove_first i (World.occupants m x))
          ∧ schedule m' = schedule m
    end.
Proof.
  intros Hwf Hi Ha Hp possible_steps candidates. split_and!.
  - unfold possible_steps, World.get_neighborhood. simpl.
    rewrite !Z.add_0_r. done.
  - intros q. unfold candidates, empty_steps. rewrite list_elem_of_filter.
    rewrite is_cell_empty_true. tauto.
  - rewrite (Fish_move_unfold cfg i m r a p Ha Hp). fold possible_steps candidates.
    pose proof (move_to_empty_spec i candidates m r Hwf Hi) as Hspec.
    destruct candidates as [|c cs] eqn:Hcs; [done|].
    destruct Hspec as (q & m' & a' & Hq & Hmv & Ha' & Hwf' & Hs & Hc & Hag & Ho).
    exists q, m'. split_and!; try done.
    + unfold pos_of. rewrite Hag, lookup_insert_eq. done.
    + assert (Hempty : World.occupants m q = []).
      { assert (Hin : q ∈ candidates).
        { rewrite Hcs. by eapply list_elem_of_lookup_2. }
        unfold candidates, empty_steps in Hin.
        apply list_elem_of_filter in Hin as [Hin _].
        by apply is_cell_empty_true. }
      by rewrite Ho, Hempty, decide_True.
    + intros x Hx. by rewrite Ho, decide_False, app_nil_r.
Qed.

End claim_fish_move.

(** Fish 2 of the scenario stands on (1,0) between fish 1 and shark 3: of
    its two free neighbours the draw picks the second, (1,1). *)
Lemma C6_fish_move_witness :
  World.get_neighborhood Scenario.cfg (1, 0) false = [(0, 0); (1, 2); (1, 1); (2, 0)]
  ∧ (∀ q, q ∈ [(1, 2); (1, 1)]
          ↔ q ∈ World.get_neighborhood Scenario.cfg (1, 0) false
            ∧ World.occupants Scenario.seeded_model q = [])
  ∧ ∃ q m',
      [(1, 2); (1, 1)] !! 1%nat = Some q
      ∧ Fish_move Scenario.cfg 2 Scenario.seeded_model Scenario.seeded_source
        = Done (m', mkSweep 3 1 true)
      ∧ pos_of m' 2 = Some q
      ∧ World.occupants m' q = [2]
      ∧ (∀ x, x ≠ q →
           World.occupants m' x = remove_first 2 (World.occupants Scenario.seeded_model x))
      ∧ schedule m' = schedule Scenario.seeded_model.
Proof.
  assert (Hi : 2 ∈ schedule Scenario.seeded_model) by (vm_compute; set_solver).
  assert (Ha : agents Scenario.seeded_model !! 2 = Some (mkAgent Fish 3 0 (Some (1, 0))))
    by (vm_compute; reflexivity).
  exact (C6_fish_move Scenario.cfg 2 Scenario.seeded_model Scenario.seeded_source
           (mkAgent Fish 3 0 (Some (1, 0))) (1, 0) ScenarioFacts.wf_seeded_model Hi Ha eq_refl).
Defined.

Section claim_snapshot.
Variable cfg : Params.

Lemma get_grid_at m x y :
  0 ≤ x < width cfg → 0 ≤ y < height cfg →
  grid_at (get_grid cfg m) x y = Some (classify m (World.occupants m (x, y))).
Proof.
  intros Hx Hy. unfold grid_at, get_grid.
  rewrite list_lookup_fmap, lookup_seqZ_lt by lia. simpl.
  rewrite list_lookup_fmap, lookup_seqZ_lt by lia. simpl.
  repeat f_equal; lia.
Qed.

(** C7.  Entry [x][y] of the snapshot is 0 for a cell without occupants and
    otherwise decided by the first occupant alone: 1 when it is a fish, 2
    when it is a shark.  Two models that agree on the agent objects and on
    the first occupant of the cell give the same entry, whatever else stands
    on the cell. *)
Theorem C7_snapshot_first_occupant m x y :
  0 ≤ x < width cfg → 0 ≤ y < height cfg →
  ∃ v,
    grid_at (get_grid cfg m) x y = Some v
    ∧ (World.occupants m (x, y) = [] → v = 0)
    ∧ (∀ j rest b,
         World.occupants m (x, y) = j :: rest → agents m !! j = Some b →
         v = match kind b with Fish => 1 | Shark => 2 end)
    ∧ (∀ m',
         agents m' = agents m →
         head (World.occupants m' (x, y)) = head (World.occupants m (x, y)) →
         grid_at (get_grid cfg m') x y = Some v).
Proof.
  intros Hx Hy. exists (classify m (World.occupants m (x, y))). split_and!.
  - by apply get_grid_at.
  - by intros ->.
  - intros j rest b -> Hb. simpl. rewrite Hb. by destruct (kind b).
  - intros m' Hag Hhd. rewrite get_grid_at by done. f_equal.
    unfold classify. rewrite Hag.
    destruct (World.occupants m' (x, y)), (World.occupants m (x, y)); simpl in *;
      try done.
    by injection Hhd as ->.
Qed.

End claim_snapshot.

(** On the cell (1,1) of the scenario a fish stands first and a shark
    second: the snapshot shows a fish. *)
Lemma C7_snapshot_first_occupant_witness :
  World.occupants Scenario.after_shark (1, 1) = [4; 3]
  ∧ ∃ v,
      grid_at (get_grid Scenario.cfg Scenario.after_shark) 1 1 = Some v
      ∧ (World.occupants Scenario.after_shark (1, 1) = [] → v = 0)
      ∧ (∀ j rest b,
           World.occupants Scenario.after_shark (1, 1) = j :: rest →
           agents Scenario.after_shark !! j = Some b →
           v = match kind b with Fish => 1 | Shark => 2 end)
      ∧ (∀ m',
           agents m' = agents Scenario.after_shark →
           head (World.occupants m' (1, 1))
           = head (World.occupants Scenario.after_shark (1, 1)) →
           grid_at (get_grid Scenario.cfg m') 1 1 = Some v).
Proof.
  split; [vm_compute; reflexivity|].
  apply (C7_snapshot_first_occupant Scenario.cfg Scenario.after_shark 1 1);
    simpl; lia.
Defined.

Section claim_fertility.
Context `{PRNG R}.
Variable cfg : Params.

Lemma agent_step_fertility i m r a :
  wf m → i ∈ schedule m → agents m !! i = Some a →
  ∃ m' r' a',
    agent_step cfg i m r = Done (m', r')
    ∧ wf m' ∧ frame i m m'
    ∧ agents m' !! i = Some a'
    ∧ kind a' = kind a
    ∧ fertility_counter a' = next_fertility cfg (kind a) (fertility_counter a).
Proof.
  intros Hwf Hi Ha.
  destruct (wf_agent m i Hwf Hi) as (a0 & p & Ha0 & Hp & _).
  assert (a0 = a) as -> by congruence.
  unfold agent_step, get_agent. rewrite Ha. simpl.
  destruct (kind a) eqn:Hk.
  - destruct (Fish_step_spec cfg i m r a Hwf Hi Ha)
      as (m' & r' & a' & Hst & Hwf' & F & Ha' & Hk' & _ & Hf & _).
    exists m', r', a'. split_and!; try done. congruence.
  - destruct (Shark_step_spec cfg i m r a p Hwf Hi Ha Hp Hk)
      as (m' & r' & a' & Hst & Hwf' & F & Ha' & Hk' & _ & Hf & _).
    exists m', r', a'. split_and!; try done. congruence.
Qed.

Lemma agent_step_fert_ok i m r m' r' :
  1 ≤ fish_fertility_threshold cfg → 1 ≤ shark_fertility_threshold cfg →
  wf m → fert_ok cfg m → i ∈ schedule m →
  agent_step cfg i m r = Done (m', r') → fert_ok cfg m'.
Proof.
  intros HTf HTs Hwf Hok Hi Hst.
  destruct (wf_agent m i Hwf Hi) as (a & p & Ha & _).
  destruct (agent_step_fertility i m r a Hwf Hi Ha)
    as (m1 & r1 & a' & Hst' & _ & F & Ha' & Hk' & Hf').
  rewrite Hst' in Hst. injection Hst as <- <-.
  assert (HT : ∀ k, 1 ≤ fertility_threshold cfg k) by (by intros []).
  intros j b' Hb'. destruct (decide (j = i)) as [->|Hne].
  - assert (b' = a') as -> by congruence.
    rewrite Hf', Hk'. unfold next_fertility.
    pose proof (Hok i a Ha). pose proof (HT (kind a)). case_decide; lia.
  - destruct (agents m !! j) as [b|] eqn:Hb.
    + destruct (fr_others _ _ _ F j b Hne Hb) as (b1 & Hb1 & Hk1 & _ & Hf1).
      assert (b1 = b') as -> by congruence.
      rewrite Hk1, Hf1. by apply (Hok j).
    + rewrite (fr_new _ _ _ F j b' Hb Hb'). pose proof (HT (kind b')). lia.
Qed.

Lemma seed_agents_counters fuel k n m r m' r' :
  0 < width cfg → 0 < height cfg → seeded cfg m →
  (∀ j b, agents m !! j = Some b → fertility_counter b = 0) →
  seed_agents cfg fuel k n m r = Done (m', r') →
  ∀ j b, agents m' !! j = Some b → fertility_counter b = 0.
Proof.
  intros HW HH. revert m r. induction n as [|n IH]; intros m r Hs H0; simpl.
  - by intros [= <- _].
  - intros Hseed. apply bind_Done in Hseed as ([m1 r1] & H1 & Hseed).
    destruct (seed_one_inv cfg HW HH fuel k m r m1 r1 Hs H1)
      as (p & _ & Hs1 & _ & _ & _ & Hag & _).
    apply (IH m1 r1 Hs1); [|done].
    intros j b. rewrite Hag, lookup_insert. case_decide; [by intros [= <-] | apply H0].
Qed.

Lemma init_fert_ok fuel r m r' :
  1 ≤ fish_fertility_threshold cfg → 1 ≤ shark_fertility_threshold cfg →
  0 < width cfg → 0 < height cfg →
  init cfg fuel r = Done (m, r') → fert_ok cfg m.
Proof.
  intros HTf HTs HW HH Hinit. unfold init in Hinit.
  apply bind_Done in Hinit as ([m1 r1] & Hf & Hs).
  destruct (seed_agents_sound cfg HW HH _ _ _ _ _ _ _ (seeded_empty_model cfg) Hf)
    as [Hs1 _].
  assert (H1 : ∀ j b, agents m1 !! j = Some b → fertility_counter b = 0).
  { apply (seed_agents_counters _ _ _ _ _ _ _ HW HH (seeded_empty_model cfg)) with (2 := Hf).
    intros j b. simpl. by rewrite lookup_empty. }
  pose proof (seed_agents_counters _ _ _ _ _ _ _ HW HH Hs1 H1 Hs) as H2.
  intros j b Hb. rewrite (H2 j b Hb).
  assert (1 ≤ fertility_threshold cfg (kind b)) by (by destruct (kind b)). lia.
Qed.

(** C9.  With both fertility thresholds at least 1: after seeding every
    counter is in range; an activation of a live agent keeps every counter
    in range, and the counter of the activated agent went up by exactly 1
    or, when that reaches the threshold, back to 0; hence after any number
    of ticks every live agent has its counter between 0 and its threshold
    minus 1. *)
Theorem C9_fertility_counter_range :
  1 ≤ fish_fertility_threshold cfg → 1 ≤ shark_fertility_threshold cfg →
  0 < width cfg → 0 < height cfg →
  (∀ fuel r m r', init cfg fuel r = Done (m, r') → fert_ok cfg m)
  ∧ (∀ i m r a,
       wf m → fert_ok cfg m → i ∈ schedule m → agents m !! i = Some a →
       ∃ m' r' a',
         agent_step cfg i m r = Done (m', r')
         ∧ fert_ok cfg m'
         ∧ agents m' !! i = Some a'
         ∧ fertility_counter a' =
             if decide (fertility_threshold cfg (kind a) ≤ fertility_counter a + 1)
             then 0 else fertility_counter a + 1)
  ∧ (∀ fuel n r m0 r0 m r' rows,
       init cfg fuel r = Done (m0, r0) →
       iterate cfg n m0 r0 [] = Done (m, r', rows) →
       ∀ j, j ∈ schedule m →
            ∃ b, agents m !! j = Some b
                 ∧ 0 ≤ fertility_counter b ≤ fertility_threshold cfg (kind b) - 1).
Proof.
  intros HTf HTs HW HH. split_and!.
  - intros fuel r m r'. by apply init_fert_ok.
  - intros i m r a Hwf Hok Hi Ha.
    destruct (agent_step_fertility i m r a Hwf Hi Ha)
      as (m' & r' & a' & Hst & _ & _ & Ha' & _ & Hf').
    exists m', r', a'. split_and!; try done.
    by apply (agent_step_fert_ok i m r m' r').
  - intros fuel n r m0 r0 m r' rows Hinit Hit j Hj.
    pose proof (init_wf cfg fuel r m0 r0 HW HH Hinit) as Hwf0.
    pose proof (init_fert_ok fuel r m0 r0 HTf HTs HW HH Hinit) as Hok0.
    destruct (iterate_activations cfg n m0 r0 [] m r' rows Hit) as (log & Hact).
    assert (Hwf : wf m) by (by eapply activations_wf).
    assert (Hok : fert_ok cfg m).
    { apply (activations_invariant cfg (fert_ok cfg) m0 log m); try done.
      intros i m1 r1 m2 r2. by apply agent_step_fert_ok. }
    destruct (wf_agent m j Hwf Hj) as (b & _ & Hb & _).
    exists b. split; [done | by apply (Hok j)].
Qed.

End claim_fertility.

(** The thresholds of the scenario are 1 and 3. *)
Lemma C9_fertility_counter_range_witness :
  (∀ fuel (r : Sweep) m r', init Scenario.cfg fuel r = Done (m, r') → fert_ok Scenario.cfg m)
  ∧ (∀ i m (r : Sweep) a,
       wf m → fert_ok Scenario.cfg m → i ∈ schedule m → agents m !! i = Some a →
       ∃ m' r' a',
         agent_step Scenario.cfg i m r = Done (m', r')
         ∧ fert_ok Scenario.cfg m'
         ∧ agents m' !! i = Some a'
         ∧ fertility_counter a' =
             if decide (fertility_threshold Scenario.cfg (kind a) ≤ fertility_counter a + 1)
             then 0 else fertility_counter a + 1)
  ∧ (∀ fuel n (r : Sweep) m0 r0 m r' rows,
       init Scenario.cfg fuel r = Done (m0, r0) →
       iterate Scenario.cfg n m0 r0 [] = Done (m, r', rows) →
       ∀ j, j ∈ schedule m →
            ∃ b, agents m !! j = Some b
                 ∧ 0 ≤ fertility_counter b
                   ≤ fertility_threshold Scenario.cfg (kind b) - 1).
Proof. apply (C9_fertility_counter_range Scenario.cfg); simpl; lia. Defined.

Section claim_predation.
Context `{PRNG R}.
Variable cfg : Params.

(** C10.  When a live shark on [p] finds a fish first on some neighbouring
    cell, [move_and_eat] returns: the cell [q] at the drawn index of
    [fish_positions] has a first occupant [fish], which leaves both the
    roster and every cell; the other occupants of [q] stay where they are
    and stay live, and the shark is appended behind them. *)
Theorem C10_predation_first_occupant i m r a p :
  wf m → i ∈ schedule m → agents m !! i = Some a → pos a = Some p →
  kind a = Shark →
  let fps := fish_positions m (World.get_neighborhood cfg p true) in
  fps ≠ [] →
  ∃ q fish rest m',
    fps !! Z.to_nat (randbelow (Z.of_nat (length fps)) r).1 = Some q
    ∧ World.occupants m q = fish :: rest
    ∧ Shark_move_and_eat cfg i m r = Done (m', (randbelow (Z.of_nat (length fps)) r).2)
    ∧ (fish ∉ schedule m') ∧ (∀ x, fish ∉ World.occupants m' x)
    ∧ World.occupants m' q = remove_first i rest ++ [i]
    ∧ pos_of m' i = Some q
    ∧ (∀ j, j ∈ rest → j ≠ i → j ∈ World.occupants m' q ∧ j ∈ schedule m')
    ∧ schedule m' = remove_first fish (schedule m).
Proof.
  intros Hwf Hi Ha Hp Hk fps Hne.
  destruct (Shark_move_and_eat_eats cfg i m r a p Hwf Hi Ha Hp Hk Hne)
    as (q & fish & rest & b & m' & Hq & Hocc & Hb & Hkb & Hfi & Heat
        & Hwf' & Hs & Hc & Hag & Ho).
  assert (Hnd : NoDup (fish :: rest)) by (rewrite <- Hocc; apply Hwf).
  assert (Hgone : fish ∉ schedule m').
  { rewrite Hs. intros [_ Hff]%elem_of_remove_first; [done | apply Hwf]. }
  assert (Hq' : World.occupants m' q = remove_first i rest ++ [i]).
  { rewrite Ho, Hocc, decide_True by done. simpl. by rewrite decide_True. }
  exists q, fish, rest, m'. split_and!; try done.
  - intros x Hx. by apply (wf_cell m' Hwf') in Hx as [Hx _].
  - unfold pos_of. by rewrite Hag, lookup_insert_eq.
  - intros j Hj Hji.
    assert (Hin : j ∈ World.occupants m' q).
    { rewrite Hq'. apply elem_of_app. left.
      apply elem_of_remove_first; [by apply NoDup_cons in Hnd as [_ ?] | done]. }
    split; [done|]. by apply (wf_cell m' Hwf') in Hin as [Hin _].
Qed.

End claim_predation.

(** Shark 3 of the scenario eats fish 2, the first occupant of (1,1): the
    offspring 4 stays on the cell and the shark joins it. *)
Lemma C10_predation_first_occupant_witness :
  fish_positions Scenario.after_fish (World.get_neighborhood Scenario.cfg (2, 0) true)
  = [(1, 1); (0, 0)]
  ∧ ∃ q fish rest m',
      [(1, 1); (0, 0)] !! 0%nat = Some q
      ∧ World.occupants Scenario.after_fish q = fish :: rest
      ∧ Shark_move_and_eat Scenario.cfg 3 Scenario.after_fish (sweep_from 0)
        = Done (m', mkSweep 0 0 true)
      ∧ (fish ∉ schedule m') ∧ (∀ x, fish ∉ World.occupants m' x)
      ∧ World.occupants m' q = remove_first 3 rest ++ [3]
      ∧ pos_of m' 3 = Some q
      ∧ (∀ j, j ∈ rest → j ≠ 3 → j ∈ World.occupants m' q ∧ j ∈ schedule m')
      ∧ schedule m' = remove_first fish (schedule Scenario.after_fish).
Proof.
  split; [vm_compute; reflexivity|].
  assert (Hi : 3 ∈ schedule Scenario.after_fish) by (vm_compute; set_solver).
  assert (Ha : agents Scenario.after_fish !! 3 = Some (mkAgent Shark 2 0 (Some (2, 0))))
    by (vm_compute; reflexivity).
  assert (Hne : fish_positions Scenario.after_fish
                  (World.get_neighborhood Scenario.cfg (2, 0) true) ≠ [])
    by (vm_compute; discriminate).
  exact (C10_predation_first_occupant Scenario.cfg 3 Scenario.after_fish (sweep_from 0)
           (mkAgent Shark 2 0 (Some (2, 0))) (2, 0)
           ScenarioFacts.wf_after_fish Hi Ha eq_refl eq_refl Hne).
Defined.

Section claim_activation_once.
Context `{PRNG R}.
Variable cfg : Params.

(** C3.  A tick on a well-formed model returns, and its log of activations
    (the calls of [agent.step()] it made, in order) has no id twice and
    only ids that were in the roster when the tick began.  An agent in the
    roster after the tick that was not in it before has a new id, is not in
    the log, and is on the activation list the next tick shuffles. *)
Theorem C3_activation_once m r rows :
  wf m →
  ∃ m' r' rows' log,
    model_step cfg m r rows = Done (m', r', rows', log)
    ∧ activations cfg m log m'
    ∧ NoDup log
    ∧ (∀ k, k ∈ log → k ∈ schedule m)
    ∧ (∀ k, k ∈ schedule m' → k ∉ schedule m →
            (k ∉ log) ∧ current_id m < k ∧ k ∈ (shuffle (schedule m') r').1).
Proof.
  intros Hwf.
  destruct (schedule_step_spec cfg m r Hwf)
    as (m' & r' & log & Hss & Hwf' & F & Hnd & Hlog).
  assert (Hst : model_step cfg m r rows = Done (m', r', rows ++ [get_grid cfg m], log)).
  { unfold model_step. by rewrite Hss. }
  exists m', r', (rows ++ [get_grid cfg m]), log. split_and!; try done.
  - by apply model_step_activations in Hst as [? _].
  - intros k Hk Hnk. split_and!.
    + intros Hin. by apply Hnk, Hlog.
    + by destruct (tf_sched _ _ F k Hk).
    + by rewrite shuffle_Permutation.
Qed.

End claim_activation_once.

(** The first tick of the scenario. *)
Lemma C3_activation_once_witness :
  ∃ m' r' rows' log,
    model_step Scenario.cfg Scenario.seeded_model Scenario.seeded_source []
    = Done (m', r', rows', log)
    ∧ activations (R := Sweep) Scenario.cfg Scenario.seeded_model log m'
    ∧ NoDup log
    ∧ (∀ k, k ∈ log → k ∈ schedule Scenario.seeded_model)
    ∧ (∀ k, k ∈ schedule m' → k ∉ schedule Scenario.seeded_model →
            (k ∉ log) ∧ current_id Scenario.seeded_model < k
            ∧ k ∈ (shuffle (schedule m') r').1).
Proof.
  exact (C3_activation_once Scenario.cfg Scenario.seeded_model Scenario.seeded_source []
           ScenarioFacts.wf_seeded_model).
Defined.

Section claim_death.
Context `{PRNG R}.
Variable cfg : Params.

Lemma activations_log m log m' :
  wf m → activations cfg m log m' →
  ∀ k, k ∈ log → k ∈ schedule m ∨ current_id m < k.
Proof.
  intros Hwf Hact. induction Hact as [|m i r m1 r1 log m2 Hi Hst Hact IH].
  - by intros k ?%elem_of_nil.
  - destruct (agent_step_spec cfg i m r Hwf Hi) as (m1' & r1' & Hst' & Hwf1 & F).
    rewrite Hst' in Hst. injection Hst as <- _.
    intros k [->|Hk]%elem_of_cons; [by left|].
    destruct (IH Hwf1 k Hk) as [Hk1|Hk1].
    + by apply (fr_sched _ _ _ F).
    + right. pose proof (fr_id _ _ _ F). lia.
Qed.

(** C4.  Consider the activation of a live agent [i].  If its energy is at
    most 0 afterwards it has left the roster, and the fish a shark eats has
    left the roster.  Every agent [j] that left the roster in this
    activation stands on no cell any more, and after any further sequence
    of activations it is still out of the roster, was never activated
    again, and is on no cell, in particular first on none, so that no later
    snapshot classifies a cell by it. *)
Theorem C4_death_finality i m r m1 r1 :
  wf m → i ∈ schedule m → agent_step cfg i m r = Done (m1, r1) →
  (∀ a1, agents m1 !! i = Some a1 → energy a1 ≤ 0 → i ∉ schedule m1)
  ∧ (∀ a p f,
       agents m !! i = Some a → kind a = Shark → pos a = Some p →
       prey_of cfg m p r = Some f → f ∈ schedule m ∧ f ∉ schedule m1)
  ∧ (∀ j, j ∈ schedule m → j ∉ schedule m1 →
       (∀ x, j ∉ World.occupants m1 x)
       ∧ ∀ log m2, activations cfg m1 log m2 →
           (j ∉ log) ∧ (j ∉ schedule m2)
           ∧ ∀ x, (j ∉ World.occupants m2 x) ∧ head (World.occupants m2 x) ≠ Some j).
Proof.
  intros Hwf Hi Hst.
  destruct (wf_agent m i Hwf Hi) as (a & p & Ha & Hp & _).
  destruct (agent_step_spec cfg i m r Hwf Hi) as (m1' & r1' & Hst' & Hwf1 & F).
  assert (m1' = m1) as -> by congruence.
  split_and!.
  - intros a1 Ha1 He. unfold agent_step, get_agent in Hst. rewrite Ha in Hst.
    simpl in Hst. destruct (kind a) eqn:Hk.
    + destruct (Fish_step_spec cfg i m r a Hwf Hi Ha)
        as (m' & r' & a' & Hfs & _ & _ & Ha' & _ & _ & _ & Hlive).
      rewrite Hfs in Hst. injection Hst as -> _.
      assert (a' = a1) as -> by congruence. rewrite Hlive. lia.
    + destruct (Shark_step_spec cfg i m r a p Hwf Hi Ha Hp Hk)
        as (m' & r' & a' & Hss & _ & _ & Ha' & _ & _ & _ & Hlive & _).
      rewrite Hss in Hst. injection Hst as -> _.
      assert (a' = a1) as -> by congruence. rewrite Hlive. lia.
  - intros a0 p0 f Ha0 Hk Hp0 Hprey.
    assert (a0 = a) as -> by congruence. assert (p0 = p) as -> by congruence.
    unfold agent_step, get_agent in Hst. rewrite Ha in Hst. simpl in Hst.
    rewrite Hk in Hst.
    destruct (Shark_step_spec cfg i m r a p Hwf Hi Ha Hp Hk)
      as (m' & r' & a' & Hss & _ & _ & _ & _ & _ & _ & _ & Hf).
    rewrite Hss in Hst. injection Hst as -> _. by apply Hf.
  - intros j Hj Hnj.
    assert (Hle : j ≤ current_id m1).
    { destruct (wf_agent m j Hwf Hj) as (b & _ & Hb & _).
      assert (j ≤ current_id m) by (apply (wf_ids m Hwf); eauto).
      pose proof (fr_id _ _ _ F). lia. }
    split.
    + intros x Hx. by apply (wf_cell m1 Hwf1) in Hx as [Hx _].
    + intros log m2 Hact.
      assert (Hwf2 : wf m2) by (by eapply activations_wf).
      pose proof (activations_tick_frame cfg m1 log m2 Hwf1 Hact) as F2.
      assert (Hn2 : j ∉ schedule m2).
      { intros Hin. destruct (tf_sched _ _ F2 j Hin); [done | lia]. }
      split_and!; [|done|].
      * intros Hin. destruct (activations_log m1 log m2 Hwf1 Hact j Hin); [done | lia].
      * intros x.
        assert (Hx : j ∉ World.occupants m2 x).
        { intros Hx. by apply (wf_cell m2 Hwf2) in Hx as [Hx _]. }
        split; [done|]. intros Hhd. apply Hx.
        destruct (World.occupants m2 x); [done|].
        injection Hhd as ->. by left.
Qed.

End claim_death.

(** In the scenario shark 3 eats fish 2, which is then gone for good. *)
Lemma C4_death_finality_witness :
  prey_of Scenario.cfg Scenario.after_fish (2, 0) (sweep_from 0) = Some 2
  ∧ (∀ a1, agents Scenario.after_shark !! 3 = Some a1 → energy a1 ≤ 0 →
           3 ∉ schedule Scenario.after_shark)
  ∧ (∀ a p f,
       agents Scenario.after_fish !! 3 = Some a → kind a = Shark → pos a = Some p →
       prey_of Scenario.cfg Scenario.after_fish p (sweep_from 0) = Some f →
       f ∈ schedule Scenario.after_fish ∧ f ∉ schedule Scenario.after_shark)
  ∧ (∀ j, j ∈ schedule Scenario.after_fish → j ∉ schedule Scenario.after_shark →
       (∀ x, j ∉ World.occupants Scenario.after_shark x)
       ∧ ∀ log m2, activations (R := Sweep) Scenario.cfg Scenario.after_shark log m2 →
           (j ∉ log) ∧ (j ∉ schedule m2)
           ∧ ∀ x, (j ∉ World.occupants m2 x) ∧ head (World.occupants m2 x) ≠ Some j).
Proof.
  split; [vm_compute; reflexivity|].
  apply (C4_death_finality Scenario.cfg 3 Scenario.after_fish (sweep_from 0)
           Scenario.after_shark Scenario.after_shark_source).
  - apply ScenarioFacts.wf_after_fish.
  - vm_compute. set_solver.
  - apply ScenarioFacts.step_after_shark.
Defined.

(** ** The counter source is fair *)

Section sweep_fair.
Variable cfg : Params.
Hypothesis width_pos : 0 < width cfg.
Hypothesis height_pos : 0 < height cfg.

Lemma draw_cell_sweep c :
  draw_cell cfg (sweep_from c)
  = ((c `mod` width cfg, (c `div` width cfg) `mod` height cfg), sweep_from (c + 1)).
Proof. done. Qed.

Lemma after_draws_sweep k c :
  after_draws cfg k (sweep_from c) = sweep_from (c + Z.of_nat k).
Proof.
  revert c. induction k as [|k IH]; intros c.
  - simpl. by rewrite Z.add_0_r.
  - cbn [after_draws]. rewrite draw_cell_sweep. cbn [snd]. rewrite IH.
    f_equal. lia.
Qed.

Lemma sweep_fair c : fair cfg (sweep_from c).
Proof.
  intros k [x y] [Hx Hy]%elem_of_cells. simpl in Hx, Hy.
  set (M := width cfg * height cfg).
  assert (HM : 0 < M) by (unfold M; lia).
  set (c' := c + Z.of_nat k).
  set (t := x + y * width cfg).
  exists (Z.to_nat ((t - c') `mod` M)).
  rewrite after_draws_sweep, draw_cell_sweep. cbn [fst].
  pose proof (Z.mod_pos_bound (t - c') M HM) as Hj.
  pose proof (Z.div_mod (t - c') M ltac:(lia)) as Hdm.
  set (z := - ((t - c') `div` M)).
  assert (Hn : c + Z.of_nat (k + Z.to_nat ((t - c') `mod` M))
               = x + (y + z * height cfg) * width cfg).
  { rewrite Nat2Z.inj_add, Z2Nat.id by lia. unfold z, t, c', M in *. lia. }
  rewrite Hn. f_equal.
  - rewrite (Z.mod_add x (y + z * height cfg) (width cfg)) by lia.
    apply Z.mod_small. lia.
  - rewrite (Z.div_add x (y + z * height cfg) (width cfg)) by lia.
    rewrite Z.div_small, Z.add_0_l by lia.
    rewrite (Z.mod_add y z (height cfg)) by lia. apply Z.mod_small. lia.
Qed.

End sweep_fair.

Section claim_seeding.
Context `{PRNG R}.
Variable cfg : Params.
Hypothesis width_pos : 0 < width cfg.
Hypothesis height_pos : 0 < height cfg.

Lemma length_cells_Z : Z.of_nat (length (cells cfg)) = width cfg * height cfg.
Proof. rewrite length_cells. lia. Qed.

Lemma init_terminates r :
  Z.of_nat (N_fish cfg + N_sharks cfg) ≤ width cfg * height cfg →
  fair cfg r → ∃ fuel m r', init cfg fuel r = Done (m, r').
Proof.
  intros Hcap Hfair. rewrite <- length_cells_Z in Hcap.
  destruct (seed_agents_terminates cfg width_pos height_pos Fish (N_fish cfg)
              empty_model r 0 Hfair (seeded_empty_model cfg))
    as (f1 & m1 & n1 & H1); [simpl; lia|].
  destruct (seed_agents_sound cfg width_pos height_pos _ _ _ _ _ _ _
              (seeded_empty_model cfg) H1) as [Hs1 Hl1].
  destruct (seed_agents_terminates cfg width_pos height_pos Shark (N_sharks cfg)
              m1 r n1 Hfair Hs1)
    as (f2 & m2 & n2 & H2); [rewrite Hl1; simpl; lia|].
  exists (f1 `max` f2)%nat, m2, (after_draws cfg n2 r). unfold init.
  simpl in H1.
  rewrite (seed_agents_mono cfg width_pos height_pos f1 (f1 `max` f2) _ _ _ _ _
             ltac:(lia) H1).
  simpl. apply (seed_agents_mono cfg width_pos height_pos f2); [lia | done].
Qed.

Lemma init_over_capacity fuel r :
  width cfg * height cfg < Z.of_nat (N_fish cfg + N_sharks cfg) →
  init cfg fuel r = Timeout.
Proof.
  intros Hover. rewrite <- length_cells_Z in Hover.
  destruct (init cfg fuel r) as [[m r']| |] eqn:Hinit; [| |done].
  - destruct (init_seeded cfg fuel r m r' width_pos height_pos Hinit) as [Hs Hl].
    pose proof (seeded_capacity cfg m Hs). lia.
  - unfold init in Hinit.
    destruct (seed_agents cfg fuel Fish (N_fish cfg) empty_model r)
      as [[m1 r1]| |] eqn:H1; simpl in Hinit; [| |done].
    + destruct (seed_agents_sound cfg width_pos height_pos _ _ _ _ _ _ _
                  (seeded_empty_model cfg) H1) as [Hs1 _].
      by apply (seed_agents_no_raise cfg width_pos height_pos) in Hinit.
    + by apply (seed_agents_no_raise cfg width_pos height_pos) in H1;
        [|apply seeded_empty_model].
Qed.

Lemma empty_cell_exists m :
  seeded cfg m → Z.of_nat (length (schedule m)) < width cfg * height cfg →
  ∃ p, p ∈ cells cfg ∧ World.is_cell_empty m p = true.
Proof.
  intros Hs Hlt. rewrite <- length_cells_Z, (sd_count cfg m Hs) in Hlt.
  destruct (filter_lt_exists (λ p, World.occupants m p ≠ []) (cells cfg))
    as (p & Hp & Hempty); [unfold occupied in Hlt; lia|].
  exists p. split; [done|]. apply is_cell_empty_true.
  destruct (World.occupants m p); [done | by destruct Hempty].
Qed.

(** C8.  On a grid of positive width and height: an iteration of a seeding
    loop that returns has put the new agent alone on a cell of the grid
    that had no occupant; when seeding returns, the configured number of
    agents stand in the roster, each on a cell of its own; while fewer
    agents are seeded than the grid has cells, some cell of the grid is
    empty; if the population is at most width times height, seeding returns
    on every fair random source, given enough steps; if the population is
    larger, seeding is still running after any number of steps. *)
Theorem C8_seeding_termination :
  (∀ fuel k m r m' r',
     seeded cfg m → seed_one cfg fuel k m r = Done (m', r') →
     ∃ p, p ∈ cells cfg ∧ World.occupants m p = []
          ∧ World.occupants m' p = [current_id m + 1]
          ∧ schedule m' = schedule m ++ [current_id m + 1]
          ∧ seeded cfg m')
  ∧ (∀ fuel r m r',
       init cfg fuel r = Done (m, r') →
       wf m ∧ length (schedule m) = (N_fish cfg + N_sharks cfg)%nat
       ∧ ∀ p, (length (World.occupants m p) ≤ 1)%nat)
  ∧ (∀ m, seeded cfg m →
          Z.of_nat (length (schedule m)) < width cfg * height cfg →
          ∃ p, p ∈ cells cfg ∧ World.is_cell_empty m p = true)
  ∧ (Z.of_nat (N_fish cfg + N_sharks cfg) ≤ width cfg * height cfg →
     ∀ r, fair cfg r → ∃ fuel m r', init cfg fuel r = Done (m, r'))
  ∧ (width cfg * height cfg < Z.of_nat (N_fish cfg + N_sharks cfg) →
     ∀ fuel r, init cfg fuel r = Timeout).
Proof.
  split_and!; [| |apply empty_cell_exists| |].
  - intros fuel k m r m' r' Hs Hseed.
    destruct (seed_one_inv cfg width_pos height_pos fuel k m r m' r' Hs Hseed)
      as (p & _ & Hs' & Hempty & Hin & Hsch & _ & Ho).
    exists p. split_and!; try done.
    by rewrite Ho, Hempty, decide_True.
  - intros fuel r m r' Hinit.
    destruct (init_seeded cfg fuel r m r' width_pos height_pos Hinit) as [Hs Hl].
    split_and!; [apply Hs | done | apply Hs].
  - intros Hcap r. by apply init_terminates.
  - intros Hover fuel r. by apply init_over_capacity.
Qed.

End claim_seeding.

(** Seeding the scenario from the counter source returns; seeding three
    agents on two cells never does. *)
Lemma C8_seeding_termination_witness :
  (∃ fuel m r', init Scenario.cfg fuel (sweep_from 0) = Done (m, r'))
  ∧ (∀ fuel (r : Sweep), init Scenario.crowded fuel r = Timeout).
Proof.
  split.
  - apply (C8_seeding_termination (R := Sweep) Scenario.cfg); simpl; try lia.
    apply sweep_fair; simpl; lia.
  - apply (C8_seeding_termination (R := Sweep) Scenario.crowded); simpl; lia.
Defined.

(** ** Two runs on sources that draw alike *)

Section determinism.
Context {R1 R2 : Type} `{G1 : PRNG R1} `{G2 : PRNG R2}.
Variable cfg : Params.

(** [sim r1 r2]: the two generator states answer every draw alike, now and
    ever after.  Two generators built from the same seed are so related. *)
Variable sim : R1 → R2 → Prop.
Hypothesis sim_draw :
  ∀ n r1 r2, sim r1 r2 →
    (randbelow n r1).1 = (randbelow n r2).1
    ∧ sim (randbelow n r1).2 (randbelow n r2).2.























End determinism.




(** * Further properties *)

(** ** The snapshot *)

Section snapshot_facts.
Variable cfg : Params.

Lemma classify_values m content :
  classify m content = 0 ∨ classify m content = 1 ∨ classify m content = 2.
Proof.
  unfold classify. destruct content as [|j rest]; [by left|].
  destruct (agents m !! j) as [b|]; [|by left].
  destruct (kind b); simpl; auto.
Qed.

(** X2.  For a width and a height that are not negative the array
    [get_grid] returns has one row per column index below the width, each
    row one entry per row index below the height, and every entry is 0, 1
    or 2, whatever the model holds. *)
Theorem X2_snapshot_shape m :
  0 ≤ width cfg → 0 ≤ height cfg →
  length (get_grid cfg m) = Z.to_nat (width cfg)
  ∧ ∀ row, row ∈ get_grid cfg m →
      length row = Z.to_nat (height cfg)
      ∧ ∀ v, v ∈ row → v = 0 ∨ v = 1 ∨ v = 2.
Proof.
  intros _ _. unfold get_grid. split.
  - by rewrite length_fmap, length_seqZ.
  - intros row (x & -> & _)%list_elem_of_fmap. split.
    + by rewrite length_fmap, length_seqZ.
    + intros v (y & -> & _)%list_elem_of_fmap. apply classify_values.
Qed.

(** X15.  On a well-formed model the snapshot hides no cell and invents no
    agent: an entry is 0 exactly when the cell has no occupant, and an
    entry 1 (or 2) means that the first occupant of the cell is a fish (or
    a shark) that is in the roster and has this cell as its position. *)
Theorem X15_snapshot_shows_live_agents m x y :
  wf m → 0 ≤ x < width cfg → 0 ≤ y < height cfg →
  ∃ v,
    grid_at (get_grid cfg m) x y = Some v
    ∧ (v = 0 ↔ World.occupants m (x, y) = [])
    ∧ (v ≠ 0 →
       ∃ j b,
         head (World.occupants m (x, y)) = Some j
         ∧ j ∈ schedule m
         ∧ agents m !! j = Some b
         ∧ pos b = Some (x, y)
         ∧ v = match kind b with Fish => 1 | Shark => 2 end).
Proof.
  intros Hwf Hx Hy. exists (classify m (World.occupants m (x, y))).
  split; [by apply get_grid_at|].
  destruct (World.occupants m (x, y)) as [|j rest] eqn:Hocc; simpl.
  - split; [done|]. by intros Hne.
  - assert (Hin : j ∈ World.occupants m (x, y)) by (rewrite Hocc; by left).
    destruct (wf_cell m Hwf _ _ Hin) as [Hj Hp].
    apply pos_of_Some in Hp as (b & Hb & Hpb). rewrite Hb.
    split.
    + split; [by destruct (kind b) | done].
    + intros _. exists j, b. split_and!; done.
Qed.

End snapshot_facts.

(** The snapshot of the seeded scenario: three rows of three entries. *)
Lemma X2_snapshot_shape_witness :
  length (get_grid Scenario.cfg Scenario.seeded_model) = 3%nat
  ∧ ∀ row, row ∈ get_grid Scenario.cfg Scenario.seeded_model →
      length row = 3%nat
      ∧ ∀ v, v ∈ row → v = 0 ∨ v = 1 ∨ v = 2.
Proof.
  apply (X2_snapshot_shape Scenario.cfg Scenario.seeded_model).
  - simpl. lia.
  - simpl. lia.
Defined.

(** The seeded scenario: cell (2,0) holds shark 3. *)
Lemma X15_snapshot_shows_live_agents_witness :
  ∃ v,
    grid_at (get_grid Scenario.cfg Scenario.seeded_model) 2 0 = Some v
    ∧ (v = 0 ↔ World.occupants Scenario.seeded_model (2, 0) = [])
    ∧ (v ≠ 0 →
       ∃ j b,
         head (World.occupants Scenario.seeded_model (2, 0)) = Some j
         ∧ j ∈ schedule Scenario.seeded_model
         ∧ agents Scenario.seeded_model !! j = Some b
         ∧ pos b = Some (2, 0)
         ∧ v = match kind b with Fish => 1 | Shark => 2 end).
Proof.
  apply (X15_snapshot_shows_live_agents Scenario.cfg Scenario.seeded_model 2 0).
  - apply ScenarioFacts.wf_seeded_model.
  - simpl. lia.
  - simpl. lia.
Defined.

(** ** The run as a whole *)

Section run_facts.
Context `{PRNG R}.
Variable cfg : Params.

(** The grids [n] ticks record: one per tick, each the grid of a model
    reached from the model the ticks started on, the first that of this
    model itself. *)
Lemma iterate_rows n m r rows :
  wf m →
  ∃ m' r' new,
    iterate cfg n m r rows = Done (m', r', rows ++ new)
    ∧ wf m'
    ∧ length new = n
    ∧ (∀ g, g ∈ new → ∃ log mk, activations cfg m log mk ∧ wf mk ∧ g = get_grid cfg mk)
    ∧ (n ≠ O → head new = Some (get_grid cfg m)).
Proof.
  revert m r rows. induction n as [|n IH]; intros m r rows Hwf.
  - exists m, r, []. simpl. rewrite app_nil_r. split_and!; try done.
    by intros g ?%elem_of_nil.
  - destruct (model_step_Done cfg m r rows Hwf) as (m1 & r1 & log & Hst & Hwf1).
    pose proof (model_step_activations cfg _ _ _ _ _ _ _ Hst) as [Hact _].
    destruct (IH m1 r1 (rows ++ [get_grid cfg m]) Hwf1)
      as (m' & r' & new & Hit & Hwf' & Hlen & Hall & _).
    exists m', r', (get_grid cfg m :: new). split_and!.
    + cbn [iterate]. rewrite Hst. simpl. rewrite Hit. by rewrite <- app_assoc.
    + done.
    + simpl. by rewrite Hlen.
    + intros g [->|Hg]%elem_of_cons.
      * exists [], m. split_and!; [constructor|done..].
      * destruct (Hall g Hg) as (log' & mk & Hact' & Hwfk & ->).
        exists (log ++ log'), mk. split_and!; try done.
        by eapply activations_app.
    + done.
Qed.

(** X1.  On a grid of positive width and height, once seeding has
    returned, the run of any number [n] of ticks returns as well: no
    operation on the grid or the roster ever meets an invalid agent
    reference.  It records exactly [n] grids, the first the grid of the
    seeded model and each the grid of a well-formed model reached by
    activations of live agents. *)
Theorem X1_run_completes fuel r m r1 n :
  0 < width cfg → 0 < height cfg →
  init cfg fuel r = Done (m, r1) →
  ∃ rows,
    run cfg fuel n r = Done rows
    ∧ length rows = n
    ∧ (∀ g, g ∈ rows → ∃ log mk, activations cfg m log mk ∧ wf mk ∧ g = get_grid cfg mk)
    ∧ (n ≠ O → head rows = Some (get_grid cfg m)).
Proof.
  intros HW HH Hinit.
  pose proof (init_wf cfg fuel r m r1 HW HH Hinit) as Hwf.
  destruct (iterate_rows n m r1 [] Hwf) as (m' & r' & new & Hit & _ & Hlen & Hall & Hhd).
  exists new. split_and!; try done.
  unfold run. rewrite Hinit. simpl. rewrite Hit. done.
Qed.

(** X3.  After seeding and any number of ticks the roster, the cells and
    the agent objects agree: no id is twice in the roster or twice on a
    cell; every agent in the roster stands on the cell its position names
    and on no other; every occupant of a cell is in the roster; and no id
    exceeds the id counter. *)
Theorem X3_roster_and_grid_agree fuel r m0 r0 n m r' rows :
  0 < width cfg → 0 < height cfg →
  init cfg fuel r = Done (m0, r0) →
  iterate cfg n m0 r0 [] = Done (m, r', rows) →
  NoDup (schedule m)
  ∧ (∀ x, NoDup (World.occupants m x))
  ∧ (∀ i, i ∈ schedule m →
       ∃ a p, agents m !! i = Some a ∧ pos a = Some p
              ∧ i ∈ World.occupants m p
              ∧ ∀ x, i ∈ World.occupants m x → x = p)
  ∧ (∀ x i, i ∈ World.occupants m x → i ∈ schedule m)
  ∧ (∀ i, i ∈ schedule m → i ≤ current_id m).
Proof.
  intros HW HH Hinit Hit.
  pose proof (init_wf cfg fuel r m0 r0 HW HH Hinit) as Hwf0.
  destruct (iterate_activations cfg n m0 r0 [] m r' rows Hit) as (log & Hact).
  assert (Hwf : wf m) by (by eapply activations_wf).
  split_and!.
  - apply Hwf.
  - apply Hwf.
  - intros i Hi. destruct (wf_agent m i Hwf Hi) as (a & p & Ha & Hp & Hin).
    exists a, p. split_and!; try done.
    intros x Hx. apply (wf_cell m Hwf) in Hx as [_ Hx].
    apply pos_of_Some in Hx as (a' & Ha' & Hp'). congruence.
  - intros x i Hx. by apply (wf_cell m Hwf) in Hx as [? _].
  - intros i Hi. destruct (wf_agent m i Hwf Hi) as (a & _ & Ha & _).
    apply (wf_ids m Hwf). eauto.
Qed.

End run_facts.

(** The scenario, run for three ticks. *)
Lemma X1_run_completes_witness :
  ∃ rows,
    run Scenario.cfg 9 3 (sweep_from 0) = Done rows
    ∧ length rows = 3%nat
    ∧ (∀ g, g ∈ rows →
         ∃ log mk, activations (R := Sweep) Scenario.cfg Scenario.seeded_model log mk
                   ∧ wf mk ∧ g = get_grid Scenario.cfg mk)
    ∧ (3%nat ≠ O → head rows = Some (get_grid Scenario.cfg Scenario.seeded_model)).
Proof.
  apply (X1_run_completes Scenario.cfg 9 (sweep_from 0) Scenario.seeded_model
           Scenario.seeded_source 3).
  - simpl. lia.
  - simpl. lia.
  - apply ScenarioFacts.init_seeded_model.
Defined.

(** ** What an activation does to roster, counter and positions *)

Lemma elem_of_remove_first_ne x l j :
  j ≠ x → j ∈ l → j ∈ remove_first x l.
Proof.
  intros Hne. induction l as [|y l IH]; simpl; [done|].
  case_decide as Hxy.
  - subst y. intros [->|Hj]%elem_of_cons; done.
  - intros [->|Hj]%elem_of_cons; [by left | right; auto].
Qed.

Lemma length_remove_first_le x l : (length (remove_first x l) ≤ length l)%nat.
Proof.
  induction l as [|y l IH]; simpl; [lia|]. case_decide; simpl; lia.
Qed.

Section effects.
Context `{PRNG R}.
Variable cfg : Params.

Lemma get_neighborhood_in_cells p moore q :
  0 < width cfg → 0 < height cfg →
  q ∈ World.get_neighborhood cfg p moore → q ∈ cells cfg.
Proof.
  intros width_pos height_pos.
  unfold World.get_neighborhood. intros (d & -> & _)%list_elem_of_fmap.
  apply elem_of_cells. simpl.
  pose proof (Z.mod_pos_bound (p.1 + d.1) (width cfg) width_pos).
  pose proof (Z.mod_pos_bound (p.2 + d.2) (height cfg) height_pos). lia.
Qed.

Lemma on_grid_insert m m' i a' :
  on_grid cfg m → (∀ p, pos a' = Some p → p ∈ cells cfg) →
  agents m' = <[i := a']> (agents m) → on_grid cfg m'.
Proof.
  intros Hg Ha' Hag j b p. rewrite Hag, lookup_insert. case_decide.
  - intros [= <-]. apply Ha'.
  - apply Hg.
Qed.

Lemma gentle_trans i m m1 m2 : gentle cfg i m m1 → gentle cfg i m1 m2 → gentle cfg i m m2.
Proof.
  intros [? ? ? K1 G1] [? ? ? K2 G2]. split; [done|lia|lia|auto|auto].
Qed.

Lemma gentle_refl i m : wf m → gentle cfg i m m.
Proof. intros Hwf. split; [done|lia|lia|auto|auto]. Qed.

Lemma move_to_empty_gentle i steps m r a :
  wf m → i ∈ schedule m → agents m !! i = Some a →
  (0 < width cfg → 0 < height cfg → ∀ q, q ∈ steps → q ∈ cells cfg) →
  ∃ m' r',
    move_to_empty i steps m r = Done (m', r')
    ∧ gentle cfg i m m' ∧ current_id m' = current_id m ∧ i ∈ schedule m'.
Proof.
  intros Hwf Hi Ha Hsteps.
  pose proof (move_to_empty_spec i steps m r Hwf Hi) as Hspec.
  destruct steps as [|s steps].
  - exists m, r. split_and!; [done|by apply gentle_refl|done..].
  - destruct Hspec as (q & m' & a' & Hq & Hmv & Ha' & Hwf' & Hs & Hc & Hag & _).
    eexists m', _. split_and!; [exact Hmv| |done|by rewrite Hs].
    split; [done|lia|rewrite Hs; lia|by rewrite Hs|].
    intros HW HH Hg. apply (on_grid_insert m m' i (set_pos (Some q) a')); [done| |done].
    intros p [= <-]. apply Hsteps; [done..|]. by eapply list_elem_of_lookup_2.
Qed.

Lemma update_energy_gentle i m a e :
  wf m → i ∈ schedule m → agents m !! i = Some a →
  ∃ m',
    update_agent i (λ a, set_energy (energy a + e) a) m = Done m'
    ∧ gentle cfg i m m' ∧ current_id m' = current_id m ∧ i ∈ schedule m'.
Proof.
  intros Hwf Hi Ha. eexists. split_and!; [by apply update_agent_Done| |done|done].
  split; simpl; [|lia|lia|auto|].
  - by apply (wf_update m i a (λ a, set_energy (energy a + e) a)).
  - intros _ _ Hg. eapply (on_grid_insert m); [done| |done].
    simpl. intros p Hp. by apply (Hg i a).
Qed.

Lemma reproduce_gentle k i m a :
  wf m → i ∈ schedule m → agents m !! i = Some a →
  ∃ m',
    reproduce cfg k i m = Done m'
    ∧ gentle cfg i m m' ∧ current_id m' ≤ current_id m + 1 ∧ i ∈ schedule m'.
Proof.
  intros Hwf Hi Ha.
  destruct (decide (fertility_threshold cfg k ≤ fertility_counter a + 1)) as [Hge|Hlt].
  - destruct (wf_agent m i Hwf Hi) as (a' & p & Ha' & Hp & _).
    assert (a' = a) as -> by congruence.
    destruct (reproduce_reached cfg k i m a p Hwf Ha Hp Hge)
      as (m' & Hr & Hwf' & Hs & Hc & Hag & Ho).
    exists m'. split_and!; [done| |lia|rewrite Hs; apply elem_of_app; by left].
    split; [done|lia| | |].
    + rewrite Hs, length_app. simpl. lia.
    + intros j Hj _. rewrite Hs. apply elem_of_app. by left.
    + intros _ _ Hg j b q. rewrite Hag, lookup_insert. case_decide.
      * intros [= <-]. simpl. by apply (Hg i a).
      * rewrite lookup_insert. case_decide; [|apply Hg].
        intros [= <-]. simpl. intros [= <-]. by apply (Hg i a).
  - rewrite (reproduce_below cfg k i m a Ha Hlt). eexists. split_and!; [done| |simpl; lia|done].
    split; simpl; [|lia|lia|auto|].
    + by apply (wf_update m i a (λ a, set_fertility_counter (fertility_counter a + 1) a)).
    + intros _ _ Hg. eapply (on_grid_insert m); [done| |done].
      simpl. intros q Hq. by apply (Hg i a).
Qed.

Lemma death_check_gentle i m a :
  wf m → i ∈ schedule m → agents m !! i = Some a →
  ∃ m',
    death_check i m = Done m'
    ∧ gentle cfg i m m' ∧ current_id m' = current_id m.
Proof.
  intros Hwf Hi Ha. destruct (decide (energy a ≤ 0)) as [Hd|Hl].
  - destruct (death_check_dead i m a Hwf Hi Ha Hd)
      as (m' & Hdc & Hwf' & Hs & Hc & Hag & Ho).
    exists m'. split_and!; [done| |done].
    split; [done|lia| | |].
    + rewrite Hs. pose proof (length_remove_first_le i (schedule m)). lia.
    + intros j Hj Hne. rewrite Hs. by apply elem_of_remove_first_ne.
    + intros _ _ Hg. by apply (on_grid_insert m m' i (set_pos None a)).
  - exists m. split_and!; [by eapply death_check_alive| |done]. by apply gentle_refl.
Qed.

End effects.

Section activation_effects.
Context `{PRNG R}.
Variable cfg : Params.

Lemma empty_steps_in_cells m p moore q :
  0 < width cfg → 0 < height cfg →
  q ∈ empty_steps m (World.get_neighborhood cfg p moore) → q ∈ cells cfg.
Proof.
  intros HW HH. unfold empty_steps. intros [_ Hq]%list_elem_of_filter.
  by eapply get_neighborhood_in_cells.
Qed.

(** The first stage of [Shark.step]: it removes at most one agent, a fish. *)
Lemma Shark_move_and_eat_effects i m r a p :
  wf m → i ∈ schedule m → agents m !! i = Some a → pos a = Some p →
  kind a = Shark →
  ∃ m' r',
    Shark_move_and_eat cfg i m r = Done (m', r')
    ∧ wf m' ∧ i ∈ schedule m'
    ∧ current_id m' = current_id m
    ∧ (length (schedule m') ≤ length (schedule m))%nat
    ∧ (0 < width cfg → 0 < height cfg → on_grid cfg m → on_grid cfg m')
    ∧ (∀ j, j ∈ schedule m → j ∉ schedule m' →
            ∃ b, agents m !! j = Some b ∧ kind b = Fish).
Proof.
  intros Hwf Hi Ha Hp Hk.
  destruct (fish_positions m (World.get_neighborhood cfg p true)) as [|fp fps] eqn:Hfps.
  - rewrite (Shark_move_and_eat_fallback cfg i m r a p Ha Hp Hfps).
    destruct (move_to_empty_gentle cfg i
                (empty_steps m (World.get_neighborhood cfg p true)) m r a Hwf Hi Ha)
      as (m' & r' & Hmv & G & Hc & Hi').
    { intros HW HH q. by apply empty_steps_in_cells. }
    exists m', r'. split_and!; try done.
    + apply (g_wf _ _ _ _ G).
    + pose proof (g_len cfg i m m' G). lia.
    + apply (g_grid _ _ _ _ G).
    + intros j Hj Hnj. destruct (decide (j = i)) as [->|Hne]; [done|].
      by apply (g_keep cfg i m m' G) in Hj.
  - destruct (Shark_move_and_eat_eats cfg i m r a p Hwf Hi Ha Hp Hk)
      as (q & fish & rest & b & m' & Hq & Hocc & Hb & Hkb & Hne & Heat
          & Hwf' & Hs & Hc & Hag & Ho); [by rewrite Hfps|].
    eexists m', _. split_and!; [exact Heat|done| |done| | |].
    + rewrite Hs. by apply elem_of_remove_first_ne.
    + rewrite Hs. apply length_remove_first_le.
    + intros HW HH Hg j c x. rewrite Hag, lookup_insert. case_decide.
      * intros [= <-]. simpl. intros [= <-].
        apply (get_neighborhood_in_cells cfg p true); [done..|].
        apply list_elem_of_lookup_2 in Hq.
        by apply list_elem_of_filter in Hq as [_ Hq].
      * rewrite lookup_insert. case_decide; [by intros [= <-] | apply Hg].
    + intros j Hj Hnj. rewrite Hs in Hnj.
      destruct (decide (j = fish)) as [->|Hjf]; [eauto|].
      exfalso. apply Hnj. by apply elem_of_remove_first_ne.
Qed.

(** One activation, for its effect on roster, id counter and positions. *)
Lemma agent_step_effects i m r a :
  wf m → i ∈ schedule m → agents m !! i = Some a →
  ∃ m' r',
    agent_step cfg i m r = Done (m', r')
    ∧ wf m'
    ∧ current_id m ≤ current_id m' ≤ current_id m + 1
    ∧ (length (schedule m') ≤ S (length (schedule m)))%nat
    ∧ (0 < width cfg → 0 < height cfg → on_grid cfg m → on_grid cfg m')
    ∧ (∀ j, j ∈ schedule m → j ∉ schedule m' →
            j = i ∨ (kind a = Shark ∧ ∃ b, agents m !! j = Some b ∧ kind b = Fish)).
Proof.
  intros Hwf Hi Ha.
  destruct (wf_agent m i Hwf Hi) as (a0 & p & Ha0 & Hp & _).
  assert (a0 = a) as -> by congruence.
  unfold agent_step, get_agent. rewrite Ha. simpl. destruct (kind a) eqn:Hk.
  - destruct (move_to_empty_gentle cfg i
                (empty_steps m (World.get_neighborhood cfg p false)) m r a Hwf Hi Ha)
      as (m1 & r1 & Hmv & G1 & Hc1 & Hi1).
    { intros HW HH q. by apply empty_steps_in_cells. }
    destruct (wf_agent m1 i (g_wf _ _ _ _ G1) Hi1) as (a1 & _ & Ha1 & _).
    destruct (update_energy_gentle cfg i m1 a1 (-1) (g_wf _ _ _ _ G1) Hi1 Ha1)
      as (m2 & Hup & G2 & Hc2 & Hi2).
    destruct (wf_agent m2 i (g_wf _ _ _ _ G2) Hi2) as (a2 & _ & Ha2 & _).
    destruct (reproduce_gentle cfg Fish i m2 a2 (g_wf _ _ _ _ G2) Hi2 Ha2)
      as (m3 & Hrp & G3 & Hc3 & Hi3).
    destruct (wf_agent m3 i (g_wf _ _ _ _ G3) Hi3) as (a3 & _ & Ha3 & _).
    destruct (death_check_gentle cfg i m3 a3 (g_wf _ _ _ _ G3) Hi3 Ha3)
      as (m4 & Hdc & G4 & Hc4).
    assert (G : gentle cfg i m m4).
    { eapply gentle_trans; [|exact G4]. eapply gentle_trans; [|exact G3].
      eapply gentle_trans; [exact G1|exact G2]. }
    exists m4, r1. split_and!.
    + unfold Fish_step. rewrite (Fish_move_unfold cfg i m r a p Ha Hp), Hmv. simpl.
      change (λ a : Agent, set_energy (energy a - 1) a)
        with (λ a : Agent, set_energy (energy a + -1) a).
      rewrite Hup. simpl. unfold Fish_reproduce. rewrite Hrp. simpl. by rewrite Hdc.
    + apply (g_wf _ _ _ _ G).
    + apply (g_cid _ _ _ _ G).
    + lia.
    + pose proof (g_len _ _ _ _ G). lia.
    + apply (g_grid _ _ _ _ G).
    + intros j Hj Hnj. left. destruct (decide (j = i)) as [->|Hne]; [done|].
      by apply (g_keep _ _ _ _ G) in Hj.
  - destruct (Shark_move_and_eat_effects i m r a p Hwf Hi Ha Hp Hk)
      as (m1 & r1 & Hmv & Hwf1 & Hi1 & Hc1 & Hl1 & Hg1 & Hv1).
    destruct (wf_agent m1 i Hwf1 Hi1) as (a1 & _ & Ha1 & _).
    destruct (reproduce_gentle cfg Shark i m1 a1 Hwf1 Hi1 Ha1)
      as (m2 & Hrp & G2 & Hc2 & Hi2).
    destruct (wf_agent m2 i (g_wf _ _ _ _ G2) Hi2) as (a2 & _ & Ha2 & _).
    destruct (update_energy_gentle cfg i m2 a2 (-1) (g_wf _ _ _ _ G2) Hi2 Ha2)
      as (m3 & Hup & G3 & Hc3 & Hi3).
    destruct (wf_agent m3 i (g_wf _ _ _ _ G3) Hi3) as (a3 & _ & Ha3 & _).
    destruct (death_check_gentle cfg i m3 a3 (g_wf _ _ _ _ G3) Hi3 Ha3)
      as (m4 & Hdc & G4 & Hc4).
    assert (G : gentle cfg i m1 m4).
    { eapply gentle_trans; [|exact G4]. eapply gentle_trans; [exact G2|exact G3]. }
    exists m4, r1. split_and!.
    + unfold Shark_step. rewrite Hmv. simpl. unfold Shark_reproduce. rewrite Hrp. simpl.
      change (λ a : Agent, set_energy (energy a - 1) a)
        with (λ a : Agent, set_energy (energy a + -1) a).
      rewrite Hup. simpl. by rewrite Hdc.
    + apply (g_wf _ _ _ _ G).
    + pose proof (g_cid _ _ _ _ G). lia.
    + lia.
    + pose proof (g_len _ _ _ _ G). lia.
    + intros HW HH Hg. by apply (g_grid _ _ _ _ G), Hg1.
    + intros j Hj Hnj. destruct (decide (j = i)) as [->|Hne]; [by left|]. right.
      split; [done|]. apply Hv1; [done|]. intros Hj1.
      by apply (g_keep _ _ _ _ G) in Hj1.
Qed.

End activation_effects.

Section roster_facts.
Context `{PRNG R}.
Variable cfg : Params.

(** X5.  The activation of a live agent [i] takes out of the roster nobody
    but [i] itself and, when [i] is a shark, fish: a shark leaves the
    roster only in its own activation, and the activation of a fish removes
    no other agent. *)
Theorem X5_activation_victims i m r a m' r' :
  wf m → i ∈ schedule m → agents m !! i = Some a →
  agent_step cfg i m r = Done (m', r') →
  ∀ j, j ∈ schedule m → j ∉ schedule m' →
       j = i ∨ (kind a = Shark ∧ ∃ b, agents m !! j = Some b ∧ kind b = Fish).
Proof.
  intros Hwf Hi Ha Hst.
  destruct (agent_step_effects cfg i m r a Hwf Hi Ha)
    as (m1 & r1 & Hst' & _ & _ & _ & _ & Hv).
  rewrite Hst' in Hst. injection Hst as <- _. exact Hv.
Qed.

Lemma activations_roster_length m log m' :
  wf m → activations cfg m log m' →
  (length (schedule m') ≤ length (schedule m) + length log)%nat
  ∧ current_id m' ≤ current_id m + Z.of_nat (length log).
Proof.
  intros Hwf Hact. induction Hact as [|m i r m1 r1 log m2 Hi Hst Hact IH].
  - simpl. lia.
  - destruct (wf_agent m i Hwf Hi) as (a & _ & Ha & _).
    destruct (agent_step_effects cfg i m r a Hwf Hi Ha)
      as (m1' & r1' & Hst' & Hwf1 & Hc & Hl & _).
    rewrite Hst' in Hst. injection Hst as <- _.
    destruct (IH Hwf1) as [IHl IHc]. simpl. lia.
Qed.

(** X12.  In one tick the roster at most doubles and at most one id per
    agent of the roster is handed out: every activation adds at most one
    agent, and at most the agents of the roster are activated. *)
Theorem X12_population_at_most_doubles m r rows m' r' rows' log :
  wf m →
  model_step cfg m r rows = Done (m', r', rows', log) →
  (length log ≤ length (schedule m))%nat
  ∧ (length (schedule m') ≤ length (schedule m) + length log)%nat
  ∧ (length (schedule m') ≤ 2 * length (schedule m))%nat
  ∧ current_id m' ≤ current_id m + Z.of_nat (length (schedule m)).
Proof.
  intros Hwf Hst.
  destruct (schedule_step_spec cfg m r Hwf)
    as (m1 & r1 & log1 & Hss & Hwf1 & _ & Hnd & Hlog).
  assert (Hl : (length log ≤ length (schedule m))%nat).
  { unfold model_step in Hst. rewrite Hss in Hst. injection Hst as _ _ _ <-.
    apply submseteq_length, NoDup_submseteq; done. }
  apply model_step_activations in Hst as [Hact _].
  destruct (activations_roster_length m log m' Hwf Hact) as [Hlen Hc]. lia.
Qed.

Lemma seed_agents_on_grid fuel k n m r m' r' :
  0 < width cfg → 0 < height cfg → seeded cfg m → on_grid cfg m →
  seed_agents cfg fuel k n m r = Done (m', r') → on_grid cfg m'.
Proof.
  intros HW HH. revert m r. induction n as [|n IH]; intros m r Hs Hg; simpl.
  - by intros [= <- _].
  - intros Hseed. apply bind_Done in Hseed as ([m1 r1] & H1 & Hseed).
    destruct (seed_one_inv cfg HW HH fuel k m r m1 r1 Hs H1)
      as (p & _ & Hs1 & _ & Hin & _ & Hag & _).
    apply (IH m1 r1 Hs1); [|done].
    eapply on_grid_insert; [exact Hg| |exact Hag]. by intros q [= <-].
Qed.

Lemma init_on_grid fuel r m r' :
  0 < width cfg → 0 < height cfg → init cfg fuel r = Done (m, r') → on_grid cfg m.
Proof.
  intros HW HH Hinit. unfold init in Hinit.
  apply bind_Done in Hinit as ([m1 r1] & Hf & Hs).
  destruct (seed_agents_sound cfg HW HH _ _ _ _ _ _ _ (seeded_empty_model cfg) Hf)
    as [Hs1 _].
  eapply seed_agents_on_grid; [done..| |exact Hs].
  eapply seed_agents_on_grid; [done|done|apply seeded_empty_model| |exact Hf].
  intros j b p. simpl. by rewrite lookup_empty.
Qed.

(** X11.  After seeding and any number of ticks on a grid of positive width
    and height, every agent in the roster has a position within the grid,
    [0 <= x < width] and [0 <= y < height], and no cell outside the grid
    has an occupant. *)
Theorem X11_agents_stay_on_grid fuel r m0 r0 n m r' rows :
  0 < width cfg → 0 < height cfg →
  init cfg fuel r = Done (m0, r0) →
  iterate cfg n m0 r0 [] = Done (m, r', rows) →
  (∀ i, i ∈ schedule m →
        ∃ a x y, agents m !! i = Some a ∧ pos a = Some (x, y)
                 ∧ 0 ≤ x < width cfg ∧ 0 ≤ y < height cfg)
  ∧ (∀ x y, World.occupants m (x, y) ≠ [] →
            0 ≤ x < width cfg ∧ 0 ≤ y < height cfg).
Proof.
  intros HW HH Hinit Hit.
  pose proof (init_wf cfg fuel r m0 r0 HW HH Hinit) as Hwf0.
  pose proof (init_on_grid fuel r m0 r0 HW HH Hinit) as Hg0.
  destruct (iterate_activations cfg n m0 r0 [] m r' rows Hit) as (log & Hact).
  assert (Hwf : wf m) by (by eapply activations_wf).
  assert (Hg : on_grid cfg m).
  { apply (activations_invariant cfg (on_grid cfg) m0 log m); try done.
    intros i m1 r1 m2 r2 Hwf1 Hg1 Hi1 Hst.
    destruct (wf_agent m1 i Hwf1 Hi1) as (a & _ & Ha & _).
    destruct (agent_step_effects cfg i m1 r1 a Hwf1 Hi1 Ha)
      as (m2' & r2' & Hst' & _ & _ & _ & Hgrid & _).
    rewrite Hst' in Hst. injection Hst as <- _. by apply Hgrid. }
  split.
  - intros i Hi. destruct (wf_agent m i Hwf Hi) as (a & [x y] & Ha & Hp & _).
    exists a, x, y. split_and!; try done; by apply (elem_of_cells cfg (x, y)), (Hg i a).
  - intros x y Hne. destruct (World.occupants m (x, y)) as [|j rest] eqn:Hocc; [done|].
    assert (Hin : j ∈ World.occupants m (x, y)) by (rewrite Hocc; by left).
    apply (wf_cell m Hwf) in Hin as [_ Hp].
    apply pos_of_Some in Hp as (b & Hb & Hpb).
    by apply (elem_of_cells cfg (x, y)), (Hg j b).
Qed.

End roster_facts.

(** ** The activated agent and the others *)

Section self_facts.
Context `{PRNG R}.
Variable cfg : Params.

Lemma agent_step_self i m r a :
  wf m → i ∈ schedule m → agents m !! i = Some a →
  ∃ m' r' a',
    agent_step cfg i m r = Done (m', r')
    ∧ wf m' ∧ frame i m m'
    ∧ agents m' !! i = Some a'
    ∧ kind a' = kind a
    ∧ fertility_counter a' = next_fertility cfg (kind a) (fertility_counter a)
    ∧ (energy a' = energy a - 1
       ∨ (kind a = Shark ∧ energy a' = energy a - 1 + shark_energy_from_fish cfg))
    ∧ (i ∈ schedule m' ↔ 0 < energy a').
Proof.
  intros Hwf Hi Ha.
  destruct (wf_agent m i Hwf Hi) as (a0 & p & Ha0 & Hp & _).
  assert (a0 = a) as -> by congruence.
  unfold agent_step, get_agent. rewrite Ha. simpl.
  destruct (kind a) eqn:Hk.
  - destruct (Fish_step_spec cfg i m r a Hwf Hi Ha)
      as (m' & r' & a' & Hst & Hwf' & F & Ha' & Hk' & He & Hf & Hlive).
    exists m', r', a'. split_and!; try done; [congruence | by left].
  - destruct (Shark_step_spec cfg i m r a p Hwf Hi Ha Hp Hk)
      as (m' & r' & a' & Hst & Hwf' & F & Ha' & Hk' & He & Hf & Hlive & _).
    exists m', r', a'. split_and!; try done; [congruence|].
    unfold gained in He.
    destruct (fish_positions m (World.get_neighborhood cfg p true));
      [left | right; split; [done|]]; lia.
Qed.

(** X6.  After its activation an agent is in the roster exactly when its
    energy is positive: it then still stands on the cell its position
    names, and otherwise it stands on no cell.  Starvation is the only way
    an agent takes itself out. *)
Theorem X6_survives_iff_energy_positive i m r a m' r' :
  wf m → i ∈ schedule m → agents m !! i = Some a →
  agent_step cfg i m r = Done (m', r') →
  ∃ a',
    agents m' !! i = Some a'
    ∧ (i ∈ schedule m' ↔ 0 < energy a')
    ∧ (0 < energy a' → ∃ p, pos a' = Some p ∧ i ∈ World.occupants m' p)
    ∧ (energy a' ≤ 0 → ∀ x, i ∉ World.occupants m' x).
Proof.
  intros Hwf Hi Ha Hst.
  destruct (agent_step_self i m r a Hwf Hi Ha)
    as (m1 & r1 & a' & Hst' & Hwf' & _ & Ha' & _ & _ & _ & Hlive).
  rewrite Hst' in Hst. injection Hst as <- _.
  exists a'. split_and!; try done.
  - intros He. apply Hlive in He.
    destruct (wf_agent m1 i Hwf' He) as (a1 & p & Ha1 & Hp & Hin).
    exists p. split; [congruence | done].
  - intros He x Hx. apply (wf_cell m1 Hwf') in Hx as [Hx _].
    apply Hlive in Hx. lia.
Qed.

(** X7.  The activation of agent [i] changes the kind, the energy and the
    fertility counter of no other agent object, and an object it creates
    starts with fertility counter 0. *)
Theorem X7_others_keep_their_attributes i m r m' r' :
  wf m → i ∈ schedule m →
  agent_step cfg i m r = Done (m', r') →
  (∀ j b, j ≠ i → agents m !! j = Some b →
          ∃ b', agents m' !! j = Some b'
                ∧ kind b' = kind b ∧ energy b' = energy b
                ∧ fertility_counter b' = fertility_counter b)
  ∧ (∀ j b', agents m !! j = None → agents m' !! j = Some b' →
             fertility_counter b' = 0).
Proof.
  intros Hwf Hi Hst.
  destruct (agent_step_spec cfg i m r Hwf Hi) as (m1 & r1 & Hst' & Hwf' & F).
  rewrite Hst' in Hst. injection Hst as <- _. split.
  - intros j b Hne Hb. destruct (fr_others _ _ _ F j b Hne Hb) as (b' & Hb' & Hs).
    exists b'. split; [done | apply Hs].
  - intros j b' Hn Hb'. by apply (fr_new _ _ _ F j b').
Qed.

End self_facts.

(** ** What a tick does to each agent *)

Section tick_facts.
Context `{PRNG R}.
Variable cfg : Params.

(** The record of agent [j] across the walk of an activation list without
    repetitions. *)
Lemma activate_all_track keys m r m' r' log j b :
  wf m → NoDup keys → agents m !! j = Some b →
  activate_all cfg keys m r = Done (m', r', log) →
  ∃ b',
    agents m' !! j = Some b' ∧ kind b' = kind b
    ∧ (j ∈ keys → j ∈ schedule m' → j ∈ log)
    ∧ (j ∈ schedule m → j ∉ log → j ∈ schedule m' ∨ kind b = Fish)
    ∧ (j ∉ log → energy b' = energy b
                 ∧ fertility_counter b' = fertility_counter b)
    ∧ (j ∈ log →
       fertility_counter b' = next_fertility cfg (kind b) (fertility_counter b)
       ∧ (energy b' = energy b - 1
          ∨ (kind b = Shark
             ∧ energy b' = energy b - 1 + shark_energy_from_fish cfg))
       ∧ (j ∈ schedule m' → 0 < energy b')).
Proof.
  revert m r log b. induction keys as [|k keys IH]; intros m r log b Hwf Hnd Hb; simpl.
  - intros [= <- _ <-]. exists b.
    split_and!; try done; try (by intros ?%elem_of_nil); try (intros; by left).
  - apply NoDup_cons in Hnd as [Hk Hnd]. case_decide as Hks.
    + intros Hall. apply bind_Done in Hall as ([m1 r1] & Hst & Hall).
      apply bind_Done in Hall as ([[m2 r2] log2] & Hall & Hd).
      injection Hd as <- <- <-.
      destruct (wf_agent m k Hwf Hks) as (a & _ & Ha & _).
      destruct (agent_step_self cfg k m r a Hwf Hks Ha)
        as (m1' & r1' & a' & Hst' & Hwf1 & F & Ha' & Hk' & Hf' & He' & Hlive).
      rewrite Hst' in Hst. injection Hst as <- <-.
      destruct (activate_all_spec cfg keys m1' r1' Hwf1)
        as (m2' & r2' & log2' & Hall' & Hwf2 & TF & Hsub & _).
      rewrite Hall' in Hall. injection Hall as <- <- <-.
      destruct (decide (j = k)) as [->|Hne].
      * assert (b = a) as -> by congruence.
        destruct (IH m1' r1' log2' a' Hwf1 Hnd Ha' Hall')
          as (b' & Hb' & Hkb & _ & _ & Hskip & _).
        assert (Hnl : k ∉ log2').
        { intros Hin. apply Hk. by eapply elem_of_sublist. }
        destruct (Hskip Hnl) as [Heq Hfq].
        exists b'. split_and!; try done.
        -- congruence.
        -- intros _ _. apply elem_of_cons. by left.
        -- intros _ Hn. exfalso. apply Hn, elem_of_cons. by left.
        -- intros Hn. exfalso. apply Hn, elem_of_cons. by left.
        -- intros _. split_and!.
           ++ congruence.
           ++ rewrite Heq. done.
           ++ intros Hin. rewrite Heq. apply Hlive.
              destruct (tf_sched _ _ TF k Hin) as [|Hlt]; [done|].
              assert (k ≤ current_id m1') by (apply (wf_ids m1' Hwf1); eauto). lia.
      * destruct (fr_others _ _ _ F j b Hne Hb) as (b1 & Hb1 & Hk1 & He1 & Hf1).
        destruct (IH m1' r1' log2' b1 Hwf1 Hnd Hb1 Hall')
          as (b' & Hb' & Hkb & Hcomp & Hgone & Hskip & Hact).
        exists b'. split_and!; try done.
        -- congruence.
        -- intros [?|Hin]%elem_of_cons Hs; [done|].
           apply elem_of_cons. right. by apply Hcomp.
        -- intros Hjs Hn.
           assert (Hn2 : j ∉ log2').
           { intros Hin. apply Hn, elem_of_cons. by right. }
           destruct (decide (j ∈ schedule m1')) as [Hj1|Hj1].
           ++ destruct (Hgone Hj1 Hn2) as [|Hfish]; [by left | right; congruence].
           ++ destruct (agent_step_effects cfg k m r a Hwf Hks Ha)
                as (m3 & r3 & Hst3 & _ & _ & _ & _ & Hvict).
              rewrite Hst' in Hst3. injection Hst3 as <- <-.
              destruct (Hvict j Hjs Hj1) as [?|(_ & b0 & Hb0 & Hfish)]; [done|].
              right. congruence.
        -- intros Hn.
           assert (Hn2 : j ∉ log2').
           { intros Hin. apply Hn, elem_of_cons. by right. }
           destruct (Hskip Hn2). split; congruence.
        -- intros [?|Hin]%elem_of_cons; [done|].
           destruct (Hact Hin) as (Hfa & Hea & Hla).
           split_and!; [congruence| |done].
           rewrite <- He1, <- Hk1. done.
    + intros Hall.
      destruct (IH m r log b Hwf Hnd Hb Hall)
        as (b' & Hb' & Hkb & Hcomp & Hgone & Hskip & Hact).
      exists b'. split_and!; try done.
      intros [->|Hin]%elem_of_cons Hs; [|by apply Hcomp].
      exfalso.
      destruct (activate_all_spec cfg keys m r Hwf)
        as (m2' & r2' & log2' & Hall' & _ & TF & _).
      rewrite Hall' in Hall. injection Hall as <- <- <-.
      destruct (tf_sched _ _ TF k Hs) as [|Hlt]; [done|].
      assert (k ≤ current_id m) by (apply (wf_ids m Hwf); eauto). lia.
Qed.

Lemma model_step_track m r rows m' r' rows' log j b :
  wf m → j ∈ schedule m → agents m !! j = Some b →
  model_step cfg m r rows = Done (m', r', rows', log) →
  ∃ b',
    agents m' !! j = Some b' ∧ kind b' = kind b
    ∧ (j ∈ schedule m' → j ∈ log)
    ∧ (j ∉ log → (j ∉ schedule m') ∧ kind b = Fish
                 ∧ energy b' = energy b
                 ∧ fertility_counter b' = fertility_counter b)
    ∧ (j ∈ log →
       fertility_counter b' = next_fertility cfg (kind b) (fertility_counter b)
       ∧ (energy b' = energy b - 1
          ∨ (kind b = Shark
             ∧ energy b' = energy b - 1 + shark_energy_from_fish cfg))
       ∧ (j ∈ schedule m' → 0 < energy b')).
Proof.
  intros Hwf Hj Hb Hst. unfold model_step, schedule_step in Hst.
  apply bind_Done in Hst as ([[m1 r1] log1] & Hss & Hd).
  injection Hd as <- <- _ <-.
  pose proof (shuffle_Permutation (schedule m) r) as Hperm.
  destruct (shuffle (schedule m) r) as [keys r0]. simpl in Hperm.
  assert (Hnd : NoDup keys) by (rewrite Hperm; apply Hwf).
  assert (Hjk : j ∈ keys) by (by rewrite Hperm).
  destruct (activate_all_track keys m r0 m1 r1 log1 j b Hwf Hnd Hb Hss)
    as (b' & Hb' & Hkb & Hcomp & Hgone & Hskip & Hact).
  exists b'. split_and!; try done.
  - by apply Hcomp.
  - intros Hn. destruct (Hskip Hn) as [He Hf].
    assert (Hns : j ∉ schedule m1) by (intros Hs; by apply Hn, Hcomp).
    split_and!; try done.
    by destruct (Hgone Hj Hn).
Qed.

(** X8.  A tick reaches every agent of the roster it starts from: a shark
    is always activated in it, and so is every agent still in the roster
    when the tick ends.  An agent the tick passes over is a fish that is out
    of the roster at the end, with the energy and the fertility counter it
    had: it was eaten before its turn. *)
Theorem X8_tick_reaches_every_agent m r rows m' r' rows' log j b :
  wf m → j ∈ schedule m → agents m !! j = Some b →
  model_step cfg m r rows = Done (m', r', rows', log) →
  (kind b = Shark → j ∈ log)
  ∧ (j ∈ schedule m' → j ∈ log)
  ∧ (j ∉ log →
     kind b = Fish ∧ (j ∉ schedule m')
     ∧ ∃ b', agents m' !! j = Some b' ∧ energy b' = energy b
             ∧ fertility_counter b' = fertility_counter b).
Proof.
  intros Hwf Hj Hb Hst.
  destruct (model_step_track m r rows m' r' rows' log j b Hwf Hj Hb Hst)
    as (b' & Hb' & Hk & Hcomp & Hskip & _).
  split_and!; [|done|].
  - intros Hs. destruct (decide (j ∈ log)) as [|Hn]; [done|].
    destruct (Hskip Hn) as (_ & Hf & _). congruence.
  - intros Hn. destruct (Hskip Hn) as (Hns & Hf & He & Hc).
    split_and!; [done..|]. by exists b'.
Qed.

(** X9.  An agent in the roster at the start and at the end of a tick keeps
    its kind, has positive energy, has its fertility counter advanced by
    one step of the reproduction rule, and its energy is one less than
    before for a fish, and one less or one less plus the bonus for a
    shark. *)
Theorem X9_tick_on_a_survivor m r rows m' r' rows' log j b :
  wf m → j ∈ schedule m → agents m !! j = Some b →
  model_step cfg m r rows = Done (m', r', rows', log) →
  j ∈ schedule m' →
  ∃ b',
    agents m' !! j = Some b' ∧ kind b' = kind b
    ∧ fertility_counter b' = next_fertility cfg (kind b) (fertility_counter b)
    ∧ 0 < energy b'
    ∧ match kind b with
      | Fish => energy b' = energy b - 1
      | Shark => energy b' = energy b - 1
                 ∨ energy b' = energy b - 1 + shark_energy_from_fish cfg
      end.
Proof.
  intros Hwf Hj Hb Hst Hj'.
  destruct (model_step_track m r rows m' r' rows' log j b Hwf Hj Hb Hst)
    as (b' & Hb' & Hk & Hcomp & _ & Hact).
  destruct (Hact (Hcomp Hj')) as (Hf & He & Hpos).
  exists b'. split_and!; try done; [by apply Hpos|].
  destruct (kind b); destruct He as [He|[Hs He]]; try done; [by left | by right].
Qed.

Lemma model_step_wf m r rows m' r' rows' log :
  wf m → model_step cfg m r rows = Done (m', r', rows', log) →
  wf m' ∧ tick_frame m m'.
Proof.
  intros Hwf Hst. apply model_step_activations in Hst as [Hact _].
  split; [by eapply activations_wf | by eapply activations_tick_frame].
Qed.

Lemma iterate_tick_frame n m r rows m' r' rows' :
  wf m → iterate cfg n m r rows = Done (m', r', rows') → wf m' ∧ tick_frame m m'.
Proof.
  intros Hwf Hit. apply iterate_activations in Hit as [log Hact].
  split; [by eapply activations_wf | by eapply activations_tick_frame].
Qed.

(** The record of an agent that is in the roster after [n] ticks. *)
Lemma iterate_track n m r rows m' r' rows' j b :
  wf m → j ∈ schedule m → agents m !! j = Some b →
  iterate cfg n m r rows = Done (m', r', rows') →
  j ∈ schedule m' →
  ∃ b' (k : nat),
    agents m' !! j = Some b' ∧ kind b' = kind b
    ∧ (k ≤ n)%nat ∧ (kind b = Fish → k = 0%nat)
    ∧ energy b' = energy b - Z.of_nat n + Z.of_nat k * shark_energy_from_fish cfg
    ∧ (n ≠ 0%nat → 0 < energy b')
    ∧ fertility_counter b'
      = Nat.iter n (next_fertility cfg (kind b)) (fertility_counter b).
Proof.
  revert m r rows b. induction n as [|n IH]; intros m r rows b Hwf Hj Hb; simpl.
  - intros [= <- _ _] _. exists b, 0%nat. split_and!; try done. lia.
  - intros Hit Hj'.
    apply bind_Done in Hit as ([[[m1 r1] rows1] log1] & Hst & Hit).
    destruct (model_step_wf _ _ _ _ _ _ _ Hwf Hst) as [Hwf1 TF1].
    destruct (iterate_tick_frame _ _ _ _ _ _ _ Hwf1 Hit) as [Hwf' TF'].
    assert (Hj1 : j ∈ schedule m1).
    { destruct (tf_sched _ _ TF' j Hj') as [|Hlt]; [done|].
      assert (j ≤ current_id m) by (apply (wf_ids m Hwf); eauto).
      pose proof (tf_id _ _ TF1). lia. }
    destruct (model_step_track m r rows m1 r1 rows1 log1 j b Hwf Hj Hb Hst)
      as (b1 & Hb1 & Hk1 & Hcomp1 & _ & Hact1).
    destruct (Hact1 (Hcomp1 Hj1)) as (Hf1 & He1 & Hpos1).
    specialize (Hpos1 Hj1).
    destruct (IH m1 r1 rows1 b1 Hwf1 Hj1 Hb1 Hit Hj')
      as (b' & k & Hb' & Hk' & Hkn & Hkf & He' & Hpos' & Hf').
    assert (Hfc : fertility_counter b'
                  = next_fertility cfg (kind b)
                      (Nat.iter n (next_fertility cfg (kind b)) (fertility_counter b))).
    { rewrite Hf', Hf1, Hk1. clear.
      induction n as [|n IHn]; simpl; [done | by rewrite IHn]. }
    assert (Hp : 0 < energy b').
    { destruct n as [|n]; [|by apply Hpos'].
      assert (k = 0%nat) as -> by lia. lia. }
    destruct He1 as [He1|[Hs He1]].
    + exists b', k. split_and!; try done; [congruence | lia | | lia].
      intros Hfish. apply Hkf. congruence.
    + exists b', (S k). split_and!; try done; [congruence | lia | congruence | lia].
Qed.

(** X10.  A fish in the roster after [n] ticks has lost exactly [n] units of
    energy, so a fish is out of the roster after as many ticks as it had
    energy, whatever else happens to it. *)
Theorem X10_fish_lifetime n m r rows m' r' rows' j b :
  wf m → j ∈ schedule m → agents m !! j = Some b → kind b = Fish →
  iterate cfg n m r rows = Done (m', r', rows') →
  (j ∈ schedule m' →
   ∃ b', agents m' !! j = Some b' ∧ kind b' = Fish
         ∧ energy b' = energy b - Z.of_nat n)
  ∧ (n ≠ 0%nat → energy b ≤ Z.of_nat n → j ∉ schedule m').
Proof.
  intros Hwf Hj Hb Hk Hit.
  assert (Hlive : j ∈ schedule m' →
                  ∃ b', agents m' !! j = Some b' ∧ kind b' = Fish
                        ∧ energy b' = energy b - Z.of_nat n
                        ∧ (n ≠ 0%nat → 0 < energy b')).
  { intros Hj'.
    destruct (iterate_track n m r rows m' r' rows' j b Hwf Hj Hb Hit Hj')
      as (b' & k & Hb' & Hk' & _ & Hkf & He' & Hpos & _).
    rewrite (Hkf Hk) in He'. exists b'. split_and!; try done; [congruence | lia]. }
  split.
  - intros Hj'. destruct (Hlive Hj') as (b' & ? & ? & ? & _). by exists b'.
  - intros Hn He Hj'. destruct (Hlive Hj') as (b' & _ & _ & He' & Hpos).
    specialize (Hpos Hn). lia.
Qed.

(** X13.  A shark in the roster after [n] ticks has energy
    [e - n + k * bonus] for a number [k] of meals between 0 and [n]: it
    pays one unit per tick and gains the bonus at most once per tick. *)
Theorem X13_shark_energy_account n m r rows m' r' rows' j b :
  wf m → j ∈ schedule m → agents m !! j = Some b → kind b = Shark →
  iterate cfg n m r rows = Done (m', r', rows') →
  j ∈ schedule m' →
  ∃ b' (k : nat),
    agents m' !! j = Some b' ∧ kind b' = Shark ∧ (k ≤ n)%nat
    ∧ energy b' = energy b - Z.of_nat n + Z.of_nat k * shark_energy_from_fish cfg
    ∧ (n ≠ 0%nat → 0 < energy b').
Proof.
  intros Hwf Hj Hb Hk Hit Hj'.
  destruct (iterate_track n m r rows m' r' rows' j b Hwf Hj Hb Hit Hj')
    as (b' & k & Hb' & Hk' & Hkn & _ & He' & Hpos & _).
  exists b', k. split_and!; try done. congruence.
Qed.

Lemma iter_next_fertility k c n :
  0 < fertility_threshold cfg k → 0 ≤ c < fertility_threshold cfg k →
  Nat.iter n (next_fertility cfg k) c
  = (c + Z.of_nat n) mod fertility_threshold cfg k.
Proof.
  intros HT Hc. induction n as [|n IH].
  - simpl. rewrite Z.add_0_r. symmetry. by apply Z.mod_small.
  - simpl. rewrite IH. unfold next_fertility.
    pose proof (Z.mod_pos_bound (c + Z.of_nat n) (fertility_threshold cfg k) HT) as Hb.
    replace (c + Z.of_nat (S n)) with ((c + Z.of_nat n) + 1) by lia.
    rewrite <- (Zplus_mod_idemp_l (c + Z.of_nat n) 1).
    case_decide as Hd.
    + assert ((c + Z.of_nat n) mod fertility_threshold cfg k + 1
              = fertility_threshold cfg k) as -> by lia.
      by rewrite Z.mod_same by lia.
    + symmetry. apply Z.mod_small. lia.
Qed.

(** X14.  With a positive threshold and a counter below it, the fertility
    counter of an agent in the roster after [n] ticks is the old one plus
    [n], modulo the threshold of its kind. *)
Theorem X14_fertility_counter_period n m r rows m' r' rows' j b :
  wf m → j ∈ schedule m → agents m !! j = Some b →
  0 < fertility_threshold cfg (kind b) →
  0 ≤ fertility_counter b < fertility_threshold cfg (kind b) →
  iterate cfg n m r rows = Done (m', r', rows') →
  j ∈ schedule m' →
  ∃ b',
    agents m' !! j = Some b'
    ∧ fertility_counter b'
      = (fertility_counter b + Z.of_nat n) mod fertility_threshold cfg (kind b).
Proof.
  intros Hwf Hj Hb HT Hc Hit Hj'.
  destruct (iterate_track n m r rows m' r' rows' j b Hwf Hj Hb Hit Hj')
    as (b' & k & Hb' & _ & _ & _ & _ & _ & Hf).
  exists b'. split; [done|]. rewrite Hf. by apply iter_next_fertility.
Qed.

End tick_facts.

(** ** The population the constructor leaves *)

Section population_facts.
Context `{PRNG R}.
Variable cfg : Params.
Hypothesis width_pos : 0 < width cfg.
Hypothesis height_pos : 0 < height cfg.

(** X4.  The constructor, when it returns, leaves [N_fish + N_sharks]
    agents with the ids 1, 2, ... in the order of their creation: the first
    [N_fish] ids are fish with the initial fish energy, the others sharks
    with the initial shark energy, every fertility counter is 0, and every
    agent is the only occupant of a cell of the grid. *)
Theorem X4_initial_population fuel r m r' :
  init cfg fuel r = Done (m, r') →
  current_id m = Z.of_nat (N_fish cfg + N_sharks cfg)
  ∧ schedule m = seqZ 1 (Z.of_nat (N_fish cfg + N_sharks cfg))
  ∧ ∀ j, 1 ≤ j ≤ Z.of_nat (N_fish cfg + N_sharks cfg) →
         let k := if decide (j ≤ Z.of_nat (N_fish cfg)) then Fish else Shark in
         ∃ p, agents m !! j = Some (mkAgent k (initial_energy cfg k) 0 (Some p))
              ∧ p ∈ cells cfg ∧ World.occupants m p = [j].
Proof.
  intros Hinit. unfold init in Hinit.
  apply bind_Done in Hinit as ([m1 r1] & Hf & Hs).
  destruct (seed_agents_layout cfg width_pos height_pos _ _ _ _ _ _ _
              (seeded_empty_model cfg) Hf)
    as (Hs1 & Hc1 & Hsch1 & _ & _ & Hnew1).
  destruct (seed_agents_layout cfg width_pos height_pos _ _ _ _ _ _ _ Hs1 Hs)
    as (Hs2 & Hc2 & Hsch2 & Hold2 & Hocc2 & Hnew2).
  simpl in Hc1, Hsch1, Hnew1. split_and!.
  - lia.
  - rewrite Hsch2, Hsch1, Hc1. simpl. rewrite Nat2Z.inj_add.
    rewrite (seqZ_app 1) by lia. f_equal. f_equal. lia.
  - intros j Hj k. unfold k. case_decide as Hjf.
    + destruct (Hnew1 j) as (p & Hag & Hin & Hocc); [lia|].
      exists p. split_and!; [|done|].
      * rewrite Hold2 by lia. done.
      * rewrite Hocc2; [done|]. by rewrite Hocc.
    + apply Hnew2. lia.
Qed.

End population_facts.

Section degenerate_facts.
Context `{PRNG R}.
Variable cfg : Params.

Lemma seed_agents_no_grid fuel k n m r :
  width cfg ≤ 0 ∨ height cfg ≤ 0 → n ≠ 0%nat →
  seed_agents cfg fuel k n m r = Raise.
Proof.
  intros Hdim Hn. destruct n as [|n]; [done|]. simpl.
  unfold seed_one, find_empty_cell, randrange.
  destruct (decide (0 < width cfg)) as [HW|HW]; [|done].
  destruct (decide (0 < height cfg)) as [HH|HH]; [lia|].
  simpl. by destruct (randbelow (width cfg) r) as [x r1].
Qed.

(** X17.  On a grid without cells (width or height not positive) the
    constructor raises as soon as it has one agent to place, whatever the
    random source and however long the search for a cell may run: the
    first sampling of a coordinate is on an empty range. *)
Theorem X17_constructor_without_cells fuel r :
  width cfg ≤ 0 ∨ height cfg ≤ 0 →
  N_fish cfg ≠ 0%nat ∨ N_sharks cfg ≠ 0%nat →
  init cfg fuel r = Raise.
Proof.
  intros Hdim Hn. unfold init.
  destruct (N_fish cfg) as [|nf] eqn:Hnf.
  - simpl. apply seed_agents_no_grid; [done|]. by destruct Hn.
  - by rewrite seed_agents_no_grid.
Qed.

End degenerate_facts.

Section shark_move_facts.
Context `{PRNG R}.
Variable cfg : Params.

(** X16.  A live shark on [p] with no fish first on any of the eight
    neighbouring cells (wrapped modulo width and height) does not eat: with
    no empty neighbour the model and the random source come back unchanged,
    otherwise the shark moves to the empty neighbour at the drawn index,
    where it is alone; its energy and fertility counter and the roster are
    as before. *)
Theorem X16_shark_moves_without_prey i m r a p :
  wf m → i ∈ schedule m → agents m !! i = Some a → pos a = Some p →
  let possible_steps := World.get_neighborhood cfg p true in
  let candidates := empty_steps m possible_steps in
  fish_positions m possible_steps = [] →
  possible_steps =
    [((p.1 - 1) `mod` width cfg, (p.2 - 1) `mod` height cfg);
     ((p.1 - 1) `mod` width cfg, p.2 `mod` height cfg);
     ((p.1 - 1) `mod` width cfg, (p.2 + 1) `mod` height cfg);
     (p.1 `mod` width cfg, (p.2 - 1) `mod` height cfg);
     (p.1 `mod` width cfg, (p.2 + 1) `mod` height cfg);
     ((p.1 + 1) `mod` width cfg, (p.2 - 1) `mod` height cfg);
     ((p.1 + 1) `mod` width cfg, p.2 `mod` height cfg);
     ((p.1 + 1) `mod` width cfg, (p.2 + 1) `mod` height cfg)]
  ∧ match candidates with
    | [] => Shark_move_and_eat cfg i m r = Done (m, r)
    | _ =>
        let draw := randbelow (Z.of_nat (length candidates)) r in
        ∃ q m',
          candidates !! Z.to_nat draw.1 = Some q
          ∧ Shark_move_and_eat cfg i m r = Done (m', draw.2)
          ∧ agents m' !! i = Some (set_pos (Some q) a)
          ∧ World.occupants m q = []
          ∧ World.occupants m' q = [i]
          ∧ (∀ x, x ≠ q → World.occupants m' x = remove_first i (World.occupants m x))
          ∧ schedule m' = schedule m
    end.
Proof.
  intros Hwf Hi Ha Hp possible_steps candidates Hnone. split.
  - unfold possible_steps, World.get_neighborhood. simpl.
    rewrite !Z.add_0_r. done.
  - rewrite (Shark_move_and_eat_fallback cfg i m r a p Ha Hp Hnone).
    fold possible_steps candidates.
    pose proof (move_to_empty_spec i candidates m r Hwf Hi) as Hspec.
    destruct candidates as [|c cs] eqn:Hcs; [done|].
    destruct Hspec as (q & m' & a' & Hq & Hmv & Ha' & Hwf' & Hs & Hc & Hag & Ho).
    assert (a' = a) as -> by congruence.
    assert (Hempty : World.occupants m q = []).
    { assert (Hin : q ∈ candidates).
      { rewrite Hcs. by eapply list_elem_of_lookup_2. }
      unfold candidates, empty_steps in Hin.
      apply list_elem_of_filter in Hin as [Hin _].
      by apply is_cell_empty_true. }
    exists q, m'. split_and!; try done.
    + by rewrite Hag, lookup_insert_eq.
    + by rewrite Ho, Hempty, decide_True.
    + intros x Hx. by rewrite Ho, decide_False, app_nil_r.
Qed.

End shark_move_facts.

(** ** The scenario, run *)

Module ScenarioRuns.
Import Scenario.

(** The first tick activates shark 3, which eats fish 2, and then fish 1. *)
Lemma first_tick :
  model_step cfg seeded_model seeded_source []
  = Done (after_ticks 1, source_after_ticks 1, rows_after_ticks 1, [3; 1]).
Proof. vm_compute. reflexivity. Qed.

Lemma ticks_Done n :
  (n ≤ 4)%nat →
  iterate cfg n seeded_model seeded_source []
  = Done (after_ticks n, source_after_ticks n, rows_after_ticks n).
Proof.
  intros Hn.
  destruct n as [|[|[|[|[|n]]]]]; [vm_compute; reflexivity..|lia].
Qed.

Lemma wf_after_ticks n : (n ≤ 4)%nat → wf (after_ticks n).
Proof.
  intros Hn. pose proof (ticks_Done n Hn) as Hit.
  apply iterate_activations in Hit as [log Hact].
  eapply (activations_wf (R := Sweep)); [apply ScenarioFacts.wf_seeded_model | done].
Qed.

End ScenarioRuns.


(** The scenario after two ticks: fish 1, shark 3 and fish 5. *)
Lemma X3_roster_and_grid_agree_witness :
  NoDup (schedule (Scenario.after_ticks 2))
  ∧ (∀ x, NoDup (World.occupants (Scenario.after_ticks 2) x))
  ∧ (∀ i, i ∈ schedule (Scenario.after_ticks 2) →
       ∃ a p, agents (Scenario.after_ticks 2) !! i = Some a ∧ pos a = Some p
              ∧ i ∈ World.occupants (Scenario.after_ticks 2) p
              ∧ ∀ x, i ∈ World.occupants (Scenario.after_ticks 2) x → x = p)
  ∧ (∀ x i, i ∈ World.occupants (Scenario.after_ticks 2) x →
            i ∈ schedule (Scenario.after_ticks 2))
  ∧ (∀ i, i ∈ schedule (Scenario.after_ticks 2) →
          i ≤ current_id (Scenario.after_ticks 2)).
Proof.
  assert (HW : 0 < width Scenario.cfg) by (simpl; lia).
  assert (HH : 0 < height Scenario.cfg) by (simpl; lia).
  exact (X3_roster_and_grid_agree Scenario.cfg 9 (sweep_from 0)
           Scenario.seeded_model Scenario.seeded_source 2
           (Scenario.after_ticks 2) (Scenario.source_after_ticks 2)
           (Scenario.rows_after_ticks 2) HW HH
           ScenarioFacts.init_seeded_model (ScenarioRuns.ticks_Done 2 (le_S _ _ (le_S _ _ (le_n 2))))).
Defined.

(** The scenario as seeded: ids 1 and 2 are fish, id 3 is the shark. *)
Lemma X4_initial_population_witness :
  current_id Scenario.seeded_model = 3
  ∧ schedule Scenario.seeded_model = seqZ 1 3
  ∧ ∀ j, 1 ≤ j ≤ 3 →
         let k := if decide (j ≤ 2) then Fish else Shark in
         ∃ p, agents Scenario.seeded_model !! j
              = Some (mkAgent k (initial_energy Scenario.cfg k) 0 (Some p))
              ∧ p ∈ cells Scenario.cfg
              ∧ World.occupants Scenario.seeded_model p = [j].
Proof.
  assert (HW : 0 < width Scenario.cfg) by (simpl; lia).
  assert (HH : 0 < height Scenario.cfg) by (simpl; lia).
  exact (X4_initial_population Scenario.cfg HW HH 9 (sweep_from 0)
           Scenario.seeded_model Scenario.seeded_source
           ScenarioFacts.init_seeded_model).
Defined.

(** Shark 3 eats fish 2: the only agent its activation takes out of the
    roster is that fish. *)
Lemma X5_activation_victims_witness :
  agents Scenario.after_fish !! 3 = Some (mkAgent Shark 2 0 (Some (2, 0)))
  ∧ ∀ j, j ∈ schedule Scenario.after_fish → j ∉ schedule Scenario.after_shark →
         j = 3
         ∨ (kind (mkAgent Shark 2 0 (Some (2, 0))) = Shark
            ∧ ∃ b, agents Scenario.after_fish !! j = Some b ∧ kind b = Fish).
Proof.
  assert (Hi : 3 ∈ schedule Scenario.after_fish) by (vm_compute; set_solver).
  assert (Ha : agents Scenario.after_fish !! 3 = Some (mkAgent Shark 2 0 (Some (2, 0))))
    by (vm_compute; reflexivity).
  split; [exact Ha|].
  exact (X5_activation_victims Scenario.cfg 3 Scenario.after_fish (sweep_from 0)
           (mkAgent Shark 2 0 (Some (2, 0))) Scenario.after_shark
           Scenario.after_shark_source ScenarioFacts.wf_after_fish Hi Ha
           ScenarioFacts.step_after_shark).
Defined.

(** Fish 2 of the seeded scenario, activated: energy 2, still in the
    roster and on its cell. *)
Lemma X6_survives_iff_energy_positive_witness :
  ∃ a',
    agents Scenario.after_fish !! 2 = Some a'
    ∧ (2 ∈ schedule Scenario.after_fish ↔ 0 < energy a')
    ∧ (0 < energy a' → ∃ p, pos a' = Some p ∧ 2 ∈ World.occupants Scenario.after_fish p)
    ∧ (energy a' ≤ 0 → ∀ x, 2 ∉ World.occupants Scenario.after_fish x).
Proof.
  assert (Hi : 2 ∈ schedule Scenario.seeded_model) by (vm_compute; set_solver).
  assert (Ha : agents Scenario.seeded_model !! 2 = Some (mkAgent Fish 3 0 (Some (1, 0))))
    by (vm_compute; reflexivity).
  exact (X6_survives_iff_energy_positive Scenario.cfg 2 Scenario.seeded_model
           Scenario.seeded_source (mkAgent Fish 3 0 (Some (1, 0)))
           Scenario.after_fish Scenario.after_fish_source
           ScenarioFacts.wf_seeded_model Hi Ha ScenarioFacts.step_after_fish).
Defined.

(** The activation of fish 2 leaves fish 1 and shark 3 as they were and
    creates fish 4 with counter 0. *)
Lemma X7_others_keep_their_attributes_witness :
  (∀ j b, j ≠ 2 → agents Scenario.seeded_model !! j = Some b →
          ∃ b', agents Scenario.after_fish !! j = Some b'
                ∧ kind b' = kind b ∧ energy b' = energy b
                ∧ fertility_counter b' = fertility_counter b)
  ∧ (∀ j b', agents Scenario.seeded_model !! j = None →
             agents Scenario.after_fish !! j = Some b' →
             fertility_counter b' = 0).
Proof.
  assert (Hi : 2 ∈ schedule Scenario.seeded_model) by (vm_compute; set_solver).
  exact (X7_others_keep_their_attributes Scenario.cfg 2 Scenario.seeded_model
           Scenario.seeded_source Scenario.after_fish Scenario.after_fish_source
           ScenarioFacts.wf_seeded_model Hi ScenarioFacts.step_after_fish).
Defined.

(** In the first tick fish 2 is eaten by shark 3 before its turn. *)
Lemma X8_tick_reaches_every_agent_witness :
  (kind (mkAgent Fish 3 0 (Some (1, 0))) = Shark → 2 ∈ [3; 1])
  ∧ (2 ∈ schedule (Scenario.after_ticks 1) → 2 ∈ [3; 1])
  ∧ (2 ∉ [3; 1] →
     kind (mkAgent Fish 3 0 (Some (1, 0))) = Fish
     ∧ (2 ∉ schedule (Scenario.after_ticks 1))
     ∧ ∃ b', agents (Scenario.after_ticks 1) !! 2 = Some b'
             ∧ energy b' = energy (mkAgent Fish 3 0 (Some (1, 0)))
             ∧ fertility_counter b'
               = fertility_counter (mkAgent Fish 3 0 (Some (1, 0)))).
Proof.
  assert (Hj : 2 ∈ schedule Scenario.seeded_model) by (vm_compute; set_solver).
  assert (Hb : agents Scenario.seeded_model !! 2 = Some (mkAgent Fish 3 0 (Some (1, 0))))
    by (vm_compute; reflexivity).
  exact (X8_tick_reaches_every_agent Scenario.cfg Scenario.seeded_model
           Scenario.seeded_source [] (Scenario.after_ticks 1)
           (Scenario.source_after_ticks 1) (Scenario.rows_after_ticks 1) [3; 1]
           2 (mkAgent Fish 3 0 (Some (1, 0)))
           ScenarioFacts.wf_seeded_model Hj Hb ScenarioRuns.first_tick).
Defined.

(** Fish 1 lives through the first tick: energy 3 - 1, and with threshold
    1 its counter is back at 0. *)
Lemma X9_tick_on_a_survivor_witness :
  ∃ b',
    agents (Scenario.after_ticks 1) !! 1 = Some b'
    ∧ kind b' = kind (mkAgent Fish 3 0 (Some (0, 0)))
    ∧ fertility_counter b' = next_fertility Scenario.cfg Fish 0
    ∧ 0 < energy b'
    ∧ energy b' = 3 - 1.
Proof.
  assert (Hj : 1 ∈ schedule Scenario.seeded_model) by (vm_compute; set_solver).
  assert (Hb : agents Scenario.seeded_model !! 1 = Some (mkAgent Fish 3 0 (Some (0, 0))))
    by (vm_compute; reflexivity).
  assert (Hj' : 1 ∈ schedule (Scenario.after_ticks 1)) by (vm_compute; repeat constructor).
  exact (X9_tick_on_a_survivor Scenario.cfg Scenario.seeded_model
           Scenario.seeded_source [] (Scenario.after_ticks 1)
           (Scenario.source_after_ticks 1) (Scenario.rows_after_ticks 1) [3; 1]
           1 (mkAgent Fish 3 0 (Some (0, 0)))
           ScenarioFacts.wf_seeded_model Hj Hb ScenarioRuns.first_tick Hj').
Defined.

(** Fish 1, seeded with energy 3, over three ticks. *)
Lemma X10_fish_lifetime_witness :
  (1 ∈ schedule (Scenario.after_ticks 3) →
   ∃ b', agents (Scenario.after_ticks 3) !! 1 = Some b' ∧ kind b' = Fish
         ∧ energy b' = 3 - 3)
  ∧ (3%nat ≠ 0%nat → 3 ≤ 3 → 1 ∉ schedule (Scenario.after_ticks 3)).
Proof.
  assert (Hj : 1 ∈ schedule Scenario.seeded_model) by (vm_compute; set_solver).
  assert (Hb : agents Scenario.seeded_model !! 1 = Some (mkAgent Fish 3 0 (Some (0, 0))))
    by (vm_compute; reflexivity).
  assert (Hn : (3 ≤ 4)%nat) by lia.
  exact (X10_fish_lifetime Scenario.cfg 3 Scenario.seeded_model
           Scenario.seeded_source [] (Scenario.after_ticks 3)
           (Scenario.source_after_ticks 3) (Scenario.rows_after_ticks 3)
           1 (mkAgent Fish 3 0 (Some (0, 0)))
           ScenarioFacts.wf_seeded_model Hj Hb eq_refl (ScenarioRuns.ticks_Done 3 Hn)).
Defined.

(** The scenario after two ticks, on its grid of three by three. *)
Lemma X11_agents_stay_on_grid_witness :
  (∀ i, i ∈ schedule (Scenario.after_ticks 2) →
        ∃ a x y, agents (Scenario.after_ticks 2) !! i = Some a ∧ pos a = Some (x, y)
                 ∧ 0 ≤ x < 3 ∧ 0 ≤ y < 3)
  ∧ (∀ x y, World.occupants (Scenario.after_ticks 2) (x, y) ≠ [] →
            0 ≤ x < 3 ∧ 0 ≤ y < 3).
Proof.
  assert (HW : 0 < width Scenario.cfg) by (simpl; lia).
  assert (HH : 0 < height Scenario.cfg) by (simpl; lia).
  assert (Hn : (2 ≤ 4)%nat) by lia.
  exact (X11_agents_stay_on_grid Scenario.cfg 9 (sweep_from 0)
           Scenario.seeded_model Scenario.seeded_source 2
           (Scenario.after_ticks 2) (Scenario.source_after_ticks 2)
           (Scenario.rows_after_ticks 2) HW HH
           ScenarioFacts.init_seeded_model (ScenarioRuns.ticks_Done 2 Hn)).
Defined.

(** The first tick of the scenario: two activations, three agents before
    and three after. *)
Lemma X12_population_at_most_doubles_witness :
  (length [3; 1] ≤ length (schedule Scenario.seeded_model))%nat
  ∧ (length (schedule (Scenario.after_ticks 1))
     ≤ length (schedule Scenario.seeded_model) + length [3; 1])%nat
  ∧ (length (schedule (Scenario.after_ticks 1))
     ≤ 2 * length (schedule Scenario.seeded_model))%nat
  ∧ current_id (Scenario.after_ticks 1)
    ≤ current_id Scenario.seeded_model
      + Z.of_nat (length (schedule Scenario.seeded_model)).
Proof.
  exact (X12_population_at_most_doubles Scenario.cfg Scenario.seeded_model
           Scenario.seeded_source [] (Scenario.after_ticks 1)
           (Scenario.source_after_ticks 1) (Scenario.rows_after_ticks 1) [3; 1]
           ScenarioFacts.wf_seeded_model ScenarioRuns.first_tick).
Defined.

(** Shark 3, seeded with energy 2, eats in each of the first three ticks. *)
Lemma X13_shark_energy_account_witness :
  ∃ b' (k : nat),
    agents (Scenario.after_ticks 3) !! 3 = Some b' ∧ kind b' = Shark ∧ (k ≤ 3)%nat
    ∧ energy b' = 2 - 3 + Z.of_nat k * 4
    ∧ (3%nat ≠ 0%nat → 0 < energy b').
Proof.
  assert (Hj : 3 ∈ schedule Scenario.seeded_model) by (vm_compute; set_solver).
  assert (Hb : agents Scenario.seeded_model !! 3 = Some (mkAgent Shark 2 0 (Some (2, 0))))
    by (vm_compute; reflexivity).
  assert (Hj' : 3 ∈ schedule (Scenario.after_ticks 3)) by (vm_compute; repeat constructor).
  assert (Hn : (3 ≤ 4)%nat) by lia.
  exact (X13_shark_energy_account Scenario.cfg 3 Scenario.seeded_model
           Scenario.seeded_source [] (Scenario.after_ticks 3)
           (Scenario.source_after_ticks 3) (Scenario.rows_after_ticks 3)
           3 (mkAgent Shark 2 0 (Some (2, 0)))
           ScenarioFacts.wf_seeded_model Hj Hb eq_refl (ScenarioRuns.ticks_Done 3 Hn) Hj').
Defined.

(** Shark 3 with threshold 3: after four ticks its counter is 4 mod 3. *)
Lemma X14_fertility_counter_period_witness :
  ∃ b',
    agents (Scenario.after_ticks 4) !! 3 = Some b'
    ∧ fertility_counter b' = (0 + 4) `mod` 3.
Proof.
  assert (Hj : 3 ∈ schedule Scenario.seeded_model) by (vm_compute; set_solver).
  assert (Hb : agents Scenario.seeded_model !! 3 = Some (mkAgent Shark 2 0 (Some (2, 0))))
    by (vm_compute; reflexivity).
  assert (Hj' : 3 ∈ schedule (Scenario.after_ticks 4)) by (vm_compute; repeat constructor).
  assert (HT : 0 < fertility_threshold Scenario.cfg (kind (mkAgent Shark 2 0 (Some (2, 0)))))
    by (simpl; lia).
  assert (Hc : 0 ≤ fertility_counter (mkAgent Shark 2 0 (Some (2, 0)))
               < fertility_threshold Scenario.cfg (kind (mkAgent Shark 2 0 (Some (2, 0)))))
    by (simpl; lia).
  assert (Hn : (4 ≤ 4)%nat) by lia.
  exact (X14_fertility_counter_period Scenario.cfg 4 Scenario.seeded_model
           Scenario.seeded_source [] (Scenario.after_ticks 4)
           (Scenario.source_after_ticks 4) (Scenario.rows_after_ticks 4)
           3 (mkAgent Shark 2 0 (Some (2, 0)))
           ScenarioFacts.wf_seeded_model Hj Hb HT Hc (ScenarioRuns.ticks_Done 4 Hn) Hj').
Defined.

(** After four ticks shark 3 stands on (1,0) behind fish 9 and the only
    other occupied cell shows shark 8: it has no prey and seven empty
    neighbours to choose from. *)
Lemma X16_shark_moves_without_prey_witness :
  let possible_steps := World.get_neighborhood Scenario.cfg (1, 0) true in
  let candidates := empty_steps (Scenario.after_ticks 4) possible_steps in
  possible_steps =
    [((1 - 1) `mod` 3, (0 - 1) `mod` 3);
     ((1 - 1) `mod` 3, 0 `mod` 3);
     ((1 - 1) `mod` 3, (0 + 1) `mod` 3);
     (1 `mod` 3, (0 - 1) `mod` 3);
     (1 `mod` 3, (0 + 1) `mod` 3);
     ((1 + 1) `mod` 3, (0 - 1) `mod` 3);
     ((1 + 1) `mod` 3, 0 `mod` 3);
     ((1 + 1) `mod` 3, (0 + 1) `mod` 3)]
  ∧ match candidates with
    | [] => Shark_move_and_eat Scenario.cfg 3 (Scenario.after_ticks 4) (sweep_from 0)
            = Done (Scenario.after_ticks 4, sweep_from 0)
    | _ =>
        let draw := randbelow (Z.of_nat (length candidates)) (sweep_from 0) in
        ∃ q m',
          candidates !! Z.to_nat draw.1 = Some q
          ∧ Shark_move_and_eat Scenario.cfg 3 (Scenario.after_ticks 4) (sweep_from 0)
            = Done (m', draw.2)
          ∧ agents m' !! 3 = Some (set_pos (Some q) (mkAgent Shark 14 1 (Some (1, 0))))
          ∧ World.occupants (Scenario.after_ticks 4) q = []
          ∧ World.occupants m' q = [3]
          ∧ (∀ x, x ≠ q →
               World.occupants m' x
               = remove_first 3 (World.occupants (Scenario.after_ticks 4) x))
          ∧ schedule m' = schedule (Scenario.after_ticks 4)
    end.
Proof.
  assert (Hi : 3 ∈ schedule (Scenario.after_ticks 4)) by (vm_compute; set_solver).
  assert (Ha : agents (Scenario.after_ticks 4) !! 3
               = Some (mkAgent Shark 14 1 (Some (1, 0))))
    by (vm_compute; reflexivity).
  assert (Hnone : fish_positions (Scenario.after_ticks 4)
                    (World.get_neighborhood Scenario.cfg (1, 0) true) = [])
    by (vm_compute; reflexivity).
  assert (Hn : (4 ≤ 4)%nat) by lia.
  exact (X16_shark_moves_without_prey Scenario.cfg 3 (Scenario.after_ticks 4)
           (sweep_from 0) (mkAgent Shark 14 1 (Some (1, 0))) (1, 0)
           (ScenarioRuns.wf_after_ticks 4 Hn) Hi Ha eq_refl Hnone).
Defined.

(** The scenario's population on a grid of width 0. *)
Lemma X17_constructor_without_cells_witness :
  init Scenario.no_cells 9 (sweep_from 0) = Raise.
Proof.
  assert (Hdim : width Scenario.no_cells ≤ 0 ∨ height Scenario.no_cells ≤ 0)
    by (left; simpl; lia).
  assert (Hn : N_fish Scenario.no_cells ≠ 0%nat ∨ N_sharks Scenario.no_cells ≠ 0%nat)
    by (left; simpl; lia).
  exact (X17_constructor_without_cells Scenario.no_cells 9 (sweep_from 0) Hdim Hn).
Defined.
